(** * Path detector: a shallow embedding of [path_detector.py]

    The module analyses a binarised camera frame ([mask], an h x w numpy
    array) and returns a steering heading.  The embedding follows the
    source function by function: [profile], [find_center],
    [model_to_heading] and [detect].

    Modelling conventions.
    - Python ints are [Z].
    - The sampling is modelled twice.  In [Sampling] the float64
      coordinates produced by [np.linspace] and the arithmetic on them are
      idealised as exact rationals ([Q]) and the int64 arrays as unbounded
      integers; this model is used for what the scans read on a frame.  In
      [Float64] every operation is rounded to binary64 and int64 sums wrap;
      this model is used for statements about the values of the sample
      coordinates, of the contacts and of the midpoint, which the rounding
      changes.
    - The angle computation lives in [R]; a float there is a sign bit and a
      magnitude, because the result of [np.arctan2] depends on the sign of
      a zero argument.  The conversion [1. * int] is exact for integers of
      magnitude at most [2^53]; theorems about headings of given points
      bound the coordinates ([pixel_coordinate], [frame_coordinate]).
    - [np.linspace], [np.nonzero], [np.arctan2] and
      [scipy.ndimage.map_coordinates] are library functions; they are
      modelled from their documented behaviour with the arguments the
      source passes.
    - The visualisation image returned next to the dictionary is drawn by
      OpenCV and carries no information used downstream; it is left out. *)

From Stdlib Require Import String ZArith QArith Qabs Qround Bool List Lia.
From Stdlib Require Import Reals Psatz.
From Stdlib Require Qcanon.
Import ListNotations.

(** ** Exceptions *)

Inductive exn : Type :=
| ValueError      (* tuple unpacking of a shape of the wrong length *)
| RuntimeError.   (* scipy: coordinate array does not match the input rank *)

Inductive res (A : Type) : Type :=
| Ok (a : A)
| Raise (e : exn).

Arguments Ok {A} a.
Arguments Raise {A} e.

Definition bind {A B : Type} (m : res A) (k : A -> res B) : res B :=
  match m with
  | Ok a => k a
  | Raise e => Raise e
  end.

Notation "x <- m ;; k" := (bind m (fun x => k))
  (at level 61, m at next level, right associativity).
Notation "' p <- m ;; k" := (bind m (fun x => let p := x in k))
  (at level 61, p pattern, m at next level, right associativity).

(** ** numpy arrays *)

(** An n-dimensional array: its shape and its cells, addressed by a list of
    indices (row first for an image). *)
Record ndarray : Type := {
  shape : list nat;
  item : list Z -> Z
}.

(** [h, w = a.shape] *)
Definition unpack2 (s : list nat) : res (Z * Z) :=
  match s with
  | [h; w] => Ok (Z.of_nat h, Z.of_nat w)
  | _ => Raise ValueError
  end.

Module Sampling.

Local Open Scope Q_scope.

Definition point : Type := (Q * Q)%type.

Definition of_ints (p : Z * Z) : point := (inject_Z (fst p), inject_Z (snd p)).

(** Python's [int(f)] on a float: truncation toward zero. *)
Definition int_of (q : Q) : Z := Z.quot (Qnum q) (Zpos (Qden q)).

(** [np.linspace(start, stop, num)] with [endpoint=True]: [arange(num) * step
    + start] where [step = (stop - start) / (num - 1)], the last element
    being overwritten with [stop] when [num > 1]. *)
Definition linspace (start stop : Q) (num : nat) : list Q :=
  let div := (num - 1)%nat in
  let step := (stop - start) / inject_Z (Z.of_nat div) in
  map (fun i : nat =>
         if (1 <? num)%nat && (i =? div)%nat then stop
         else inject_Z (Z.of_nat i) * step + start)
      (seq 0 num).

(** [scipy.ndimage.map_coordinates(input, [m, n], order=0)] on a 2-D input
    with the default [mode='constant'], [cval=0.0]: a coordinate below 0 or
    above [len - 1] on either axis yields [cval]; otherwise the cell at
    [floor(c + 0.5)] on each axis is read. *)
Definition in_range (c : Q) (len : Z) : bool :=
  Qle_bool 0 c && Qle_bool c (inject_Z (len - 1)).

Definition nearest (c : Q) : Z := Qfloor (c + (1 # 2)).

Definition sample_at (input : ndarray) (h w : Z) (r c : Q) : Z :=
  if in_range r h && in_range c w
  then item input [nearest r; nearest c]
  else 0%Z.

Definition map_coordinates (input : ndarray) (m n : list Q) : res (list Z) :=
  match shape input with
  | [h; w] =>
      Ok (map (fun rc => sample_at input (Z.of_nat h) (Z.of_nat w) (fst rc) (snd rc))
              (combine m n))
  | _ => Raise RuntimeError
  end.

(** [profile(mask, p0, p1, num)] *)
Definition profile (mask : ndarray) (p0 p1 : point) (num : nat)
  : res (list Q * list Q * list Z) :=
  let n := linspace (fst p0) (fst p1) num in
  let m := linspace (snd p0) (snd p1) num in
  vals <- map_coordinates mask m n ;;
  Ok (n, m, vals).

(** [np.nonzero(vals)[0]]: the indices of the non-zero entries, ascending. *)
Fixpoint nonzero_from (i : nat) (vals : list Z) : list nat :=
  match vals with
  | [] => []
  | v :: rest =>
      if (v =? 0)%Z then nonzero_from (S i) rest
      else i :: nonzero_from (S i) rest
  end.

Definition nonzero (vals : list Z) : list nat := nonzero_from 0 vals.

(** The local variables of [find_center], in the order the body binds
    them. *)
Record locals : Type := {
  sample_width : Z;
  p0 : Z * Z;
  pl : Z * Z;
  pr : Z * Z;
  xl : list Q;  yl : list Q;  l_val : list Z;
  xr : list Q;  yr : list Q;  r_val : list Z;
  idx_l : list nat;
  idx_r : list nat;
  contact_l : point;
  contact_r : point;
  center : point
}.

(** Lines 134-136: the midpoint of the two contacts, then [int] on each
    coordinate. *)
Definition midpoint (cl cr : point) : point :=
  ((fst cl + fst cr) / 2, (snd cl + snd cr) / 2).

Definition to_pixel (c : point) : Z * Z := (int_of (fst c), int_of (snd c)).

Definition road_center (cl cr : point) : Z * Z := to_pixel (midpoint cl cr).

(** The body of [find_center] up to the computation of [center]. *)
Definition find_center_locals (mask : ndarray) (x y : Z) : res locals :=
  ' (img_height, img_width) <- unpack2 (shape mask) ;;
  let sample_width := int_of (inject_Z img_width / 2) in
  let p0 := (x, y) in
  let pl := ((x - sample_width)%Z, y) in
  let pr := ((x + sample_width)%Z, y) in
  ' (xl, yl, l_val) <- profile mask (of_ints p0) (of_ints pl) 40 ;;
  ' (xr, yr, r_val) <- profile mask (of_ints p0) (of_ints pr) 40 ;;
  let idx_l := nonzero l_val in
  let idx_r := nonzero r_val in
  let contact_l :=
    match idx_l with
    | [] => of_ints ((fst p0 + -100)%Z, (snd p0 + 0)%Z)
    | i :: _ => (nth i xl 0, nth i yl 0)
    end in
  let contact_r :=
    match idx_r with
    | [] => of_ints ((fst p0 + 30)%Z, (snd p0 + 0)%Z)
    | i :: _ => (nth i xr 0, nth i yr 0)
    end in
  Ok {| sample_width := sample_width; p0 := p0; pl := pl; pr := pr;
        xl := xl; yl := yl; l_val := l_val;
        xr := xr; yr := yr; r_val := r_val;
        idx_l := idx_l; idx_r := idx_r;
        contact_l := contact_l; contact_r := contact_r;
        center := midpoint contact_l contact_r |}.

(** [find_center(mask, x, y)] *)
Definition find_center (mask : ndarray) (x y : Z) : res (Z * Z) :=
  l <- find_center_locals mask x y ;;
  Ok (to_pixel (center l)).

End Sampling.

Module Heading.

Local Open Scope R_scope.

(** A finite float64: the sign bit and the magnitude.  Both zeros exist:
    [+0.0] is [{| sign := false; mag := 0 |}] and [-0.0] is
    [{| sign := true; mag := 0 |}]. *)
Record float : Type := { sign : bool; mag : R }.

Definition value (f : float) : R := if sign f then - mag f else mag f.

Definition is_zero (r : R) : bool := if Req_dec_T r 0 then true else false.

Definition is_neg (r : R) : bool := if Rlt_dec r 0 then true else false.

(** [float(z)] for a Python int. *)
Definition of_int (z : Z) : float :=
  {| sign := (z <? 0)%Z; mag := IZR (Z.abs z) |}.

Definition fone : float := {| sign := false; mag := 1 |}.

(** [np.pi] *)
Definition fpi : float := {| sign := false; mag := PI |}.

(** Unary minus flips the sign bit, also on a zero. *)
Definition fopp (a : float) : float := {| sign := negb (sign a); mag := mag a |}.

(** Product and quotient: the sign bit is the exclusive or of the signs. *)
Definition fmul (a b : float) : float :=
  {| sign := xorb (sign a) (sign b); mag := mag a * mag b |}.

Definition fdiv (a b : float) : float :=
  {| sign := xorb (sign a) (sign b); mag := mag a / mag b |}.

(** Difference: an exact zero result is [+0.0] unless it is [(-0.0) - (+0.0)]
    (round to nearest). *)
Definition fsub (a b : float) : float :=
  let v := value a - value b in
  if is_zero v then {| sign := sign a && negb (sign b); mag := 0 |}
  else {| sign := is_neg v; mag := Rabs v |}.

(** [np.arctan2(y, x)] on finite arguments (C99 [atan2]): the result has the
    sign of [y]; [atan2(+-0, x)] is [+-pi] for [x] negative or [-0.0] and
    [+-0] otherwise; [atan2(y, +-0)] is [+-pi/2] for [y] non-zero. *)
Definition arctan2 (y x : float) : float :=
  {| sign := sign y;
     mag := if is_zero (mag y) then (if sign x then PI else 0)
            else if is_zero (mag x) then PI / 2
            else if sign x then PI - atan (mag y / mag x)
            else atan (mag y / mag x) |}.

(** [model_to_heading(model_xy, car_center_xy)]; [detect] passes two tuples
    of Python ints. *)
Definition model_to_heading (model_xy car_center_xy : Z * Z) : float :=
  let dx := fsub (fmul fone (of_int (fst model_xy))) (of_int (fst car_center_xy)) in
  let dy := fsub (fmul fone (of_int (snd model_xy))) (of_int (snd car_center_xy)) in
  let heading := fdiv (fmul (fopp (arctan2 dx (fopp dy))) (of_int 180)) fpi in
  heading.

(** The same function on two tuples of floats. *)
Definition model_to_heading_floats (model_xy car_center_xy : float * float) : float :=
  let dx := fsub (fmul fone (fst model_xy)) (fst car_center_xy) in
  let dy := fsub (fmul fone (snd model_xy)) (snd car_center_xy) in
  let heading := fdiv (fmul (fopp (arctan2 dx (fopp dy))) (of_int 180)) fpi in
  heading.

(** The formula as the specification words it: the two-argument arctangent
    of real numbers, with [atan2(0, 0) = 0]. *)
Definition spec_atan2 (y x : R) : R :=
  if is_zero x then
    (if is_zero y then 0 else if is_neg y then - (PI / 2) else PI / 2)
  else if is_neg x then
    (if is_neg y then atan (y / x) - PI else atan (y / x) + PI)
  else atan (y / x).

Definition spec_heading (target reference : Z * Z) : R :=
  let dx := IZR (fst target) - IZR (fst reference) in
  let dy := IZR (snd target) - IZR (snd reference) in
  - spec_atan2 dx (- dy) * 180 / PI.

End Heading.

(** ** [detect] *)

Local Open Scope string_scope.

(** [detect(mask)]: the dictionary handed to the state machine.  The literal
    [.6] is taken as the rational 6/10: the float product [img_height * .6]
    and the exact one truncate to the same integer for image heights. *)
Definition detect (mask : ndarray) : res (list (string * Heading.float)) :=
  ' (img_height, img_width) <- unpack2 (shape mask) ;;
  let x0 := Sampling.int_of (inject_Z img_width / 2)%Q in
  let y0 := Sampling.int_of (inject_Z img_height * (6 # 10))%Q in
  let car_center := (x0, img_height) in
  road_center <- Sampling.find_center mask x0 y0 ;;
  let heading := Heading.model_to_heading road_center car_center in
  let path_dict := [("heading", heading)] in
  Ok path_dict.

(** ** Concrete masks *)

(** The [h] x [w] mask whose non-zero pixels are the listed [(x, y)]
    positions ([x] the column, [y] the row) and that is zero elsewhere. *)
Definition mask_of (h w : nat) (lit : list (Z * Z)) : ndarray :=
  {| shape := [h; w];
     item := fun idx =>
       match idx with
       | [r; c] =>
           if existsb (fun p => (fst p =? c)%Z && (snd p =? r)%Z) lit
           then 1%Z else 0%Z
       | _ => 0%Z
       end |}.

(** The mask of the end-to-end example: 100 x 100, lit at (30,60) and
    (70,60) only. *)
Definition example_mask : ndarray := mask_of 100 100 [(30, 60); (70, 60)]%Z.

(** ** Identical arrays *)

(** An index is in bounds when it has one component per axis, each below the
    axis length. *)
Definition in_bounds (idx : list Z) (shp : list nat) : Prop :=
  Forall2 (fun i n => (0 <= i < Z.of_nat n)%Z) idx shp.

(** Two arrays are identical when they have the same shape and hold the same
    value in every cell. *)
Definition same_array (a b : ndarray) : Prop :=
  shape a = shape b /\
  forall idx : list Z, in_bounds idx (shape a) -> item a idx = item b idx.

(** Two masks have the same pattern on a row when they have the same shape
    and the same cells of that row are zero. *)
Definition same_row_pattern (a b : ndarray) (row : Z) : Prop :=
  shape a = shape b /\
  forall c : Z, in_bounds [row; c] (shape a) ->
    (item a [row; c] = 0%Z <-> item b [row; c] = 0%Z).

(** ** The sign detector ([sign_detector.py]) *)

Module SignDetector.

Local Open Scope Z_scope.

(** On a colour image the only exception the body of [detect] can raise is
    the [IndexError] of an index outside the array. *)
Inductive outcome (A : Type) : Type :=
| Got (a : A)
| IndexError.

Arguments Got {A} a.
Arguments IndexError {A}.

Definition and_then {A B : Type} (m : outcome A) (k : A -> outcome B) : outcome B :=
  match m with
  | Got a => k a
  | IndexError => IndexError
  end.

Notation "x <~ m ;; k" := (and_then m (fun x => k))
  (at level 61, m at next level, right associativity).
Notation "' p <~ m ;; k" := (and_then m (fun x => let p := x in k))
  (at level 61, p pattern, m at next level, right associativity).

(** A pixel: channels 0, 1 and 2. *)
Definition colour : Type := (Z * Z * Z)%type.

Definition ch0 (p : colour) : Z := fst (fst p).
Definition ch1 (p : colour) : Z := snd (fst p).
Definition ch2 (p : colour) : Z := snd p.

(** [sign]: a numpy array of shape [(rows, cols, 3)]. *)
Record image : Type := {
  rows : nat;
  cols : nat;
  pixel : Z -> Z -> colour
}.

(** numpy indexing along one axis: a negative index counts from the end. *)
Definition index (i len : Z) : outcome Z :=
  if (0 <=? i) && (i <? len) then Got i
  else if (- len <=? i) && (i <? 0) then Got (i + len)
  else IndexError.

(** [sign[r][c]] *)
Definition getpix (sign : image) (r c : Z) : outcome colour :=
  r' <~ index r (Z.of_nat (rows sign)) ;;
  c' <~ index c (Z.of_nat (cols sign)) ;;
  Got (pixel sign r' c').

(** [range(start, stop, step)] for a positive [step]. *)
Definition range (start stop step : Z) : list Z :=
  map (fun k : nat => start + step * Z.of_nat k)
      (seq 0 (Z.to_nat ((stop - start + step - 1) / step))).

(** A [for] loop that appends one result per element. *)
Fixpoint mapM {A B : Type} (f : A -> outcome B) (l : list A) : outcome (list B) :=
  match l with
  | [] => Got []
  | x :: rest =>
      y <~ f x ;;
      ys <~ mapM f rest ;;
      Got (y :: ys)
  end.

(** A [for] loop that updates local variables. *)
Fixpoint foldM {S A : Type} (f : S -> A -> outcome S) (l : list A) (s : S) : outcome S :=
  match l with
  | [] => Got s
  | x :: rest =>
      s' <~ f s x ;;
      foldM f rest s'
  end.

(** Lines 29-33: the counters [(cr, cb)] after the loop over
    [ligne_analysee]. *)
Definition count_colours (ligne_analysee : list colour) : Z * Z :=
  fold_left
    (fun (st : Z * Z) (j : colour) =>
       let '(cr, cb) := st in
       if ch0 j <? ch2 j then (cr + 1, cb)
       else if ch2 j <? ch0 j then (cr, cb + 1)
       else (cr, cb))
    ligne_analysee (0, 0).

(** The test of lines 40 and 43. *)
Definition is_white (p : colour) : bool :=
  (150 <? ch0 p) && (150 <? ch1 p) && (150 <? ch2 p).

(** Lines 36-44: the counters [(blanc_droite, blanc_gauche)] after the
    nested loops. *)
Definition count_whites (sign : image) (w h : Z) : outcome (Z * Z) :=
  foldM
    (fun (st : Z * Z) (i : Z) =>
       st' <~ foldM (fun (st1 : Z * Z) (j : Z) =>
                       let '(blanc_droite, blanc_gauche) := st1 in
                       p <~ getpix sign i j ;;
                       Got (if is_white p then (blanc_droite, blanc_gauche + 1)
                            else (blanc_droite, blanc_gauche)))
                    (range 1 (w / 2) 1) st ;;
       foldM (fun (st1 : Z * Z) (k : Z) =>
                let '(blanc_droite, blanc_gauche) := st1 in
                p <~ getpix sign i k ;;
                Got (if is_white p then (blanc_droite + 1, blanc_gauche)
                     else (blanc_droite, blanc_gauche)))
             (range (w / 2) w 1) st')
    (range 1 h 1) (0, 0).

(** The values of the returned dictionary. *)
Inductive pyval : Type :=
| PStr (s : string)
| PInt (z : Z).

(** [detect(bb, sign)] with [bb = (x0, y0, w, h)].  The [print] of line 55
    writes to the console only and is left out. *)
Definition detect (bb : Z * Z * Z * Z) (sign : image)
  : outcome (list (string * pyval)) :=
  let '(x0, y0, w, h) := bb in
  ligne_analysee <~ mapM (fun i => getpix sign (h / 3) i) (range 1 w 3) ;;
  let '(cr, cb) := count_colours ligne_analysee in
  logo <~ (if cr <? cb then
             ' (blanc_droite, blanc_gauche) <~ count_whites sign w h ;;
             Got (if blanc_gauche <? blanc_droite then "TOURNER A DROITE"
                  else "TOURNER A GAUCHE")
           else if cb <? cr then Got "STOP"
           else Got "NONE") ;;
  Got [("sign", PStr logo); ("x0", PInt x0); ("y0", PInt y0);
       ("w", PInt w); ("h", PInt h)].

(** Two images agree away from column 0 when they have the same size and the
    same pixels in every column but the first. *)
Definition same_beyond_first_column (a b : image) : Prop :=
  rows a = rows b /\ cols a = cols b /\
  forall r c : Z, 1 <= c -> pixel a r c = pixel b r c.

(** A uniform image: every pixel is [p]. *)
Definition uniform (r c : nat) (p : colour) : image :=
  {| rows := r; cols := c; pixel := fun _ _ => p |}.

End SignDetector.

(** ** Ranges of Python ints *)

(** A pixel coordinate: an integer that the conversion to float64 keeps
    exact, together with the differences and sums of two of them, and that
    fits an int64 array with room for the offsets of [find_center]. *)
Definition pixel_coordinate (z : Z) : Prop := (Z.abs z <= 2 ^ 52)%Z.

(** A coordinate of an image of ordinary size. *)
Definition frame_coordinate (z : Z) : Prop := (Z.abs z <= 2 ^ 20)%Z.

(** ** The sampling in binary64 *)

(** The functions of [Sampling] once more, with every float operation
    rounded to binary64 the way numpy and scipy perform it.  A finite float
    is the rational it denotes; overflow to infinity is not modelled and the
    theorems bound the operands. *)
Module Float64.

Import Sampling.
Local Open Scope Q_scope.

Definition pow2 (p : Z) : Q :=
  if (0 <=? p)%Z then inject_Z (2 ^ p) else / inject_Z (2 ^ (- p)).

(** [floor(log2 a)] for a positive [a]. *)
Definition ilog2 (a : Q) : Z :=
  let k := (Z.log2 (Qnum a) - Z.log2 (Zpos (Qden a)))%Z in
  if Qle_bool (pow2 k) a then k else (k - 1)%Z.

(** The nearest integer, ties to the even one. *)
Definition round_half_even (x : Q) : Z :=
  let f := Qfloor x in
  match Qcompare (x - inject_Z f) (1 # 2) with
  | Lt => f
  | Gt => (f + 1)%Z
  | Eq => if Z.even f then f else (f + 1)%Z
  end.

(** Rounding to the nearest binary64 number (53 significant bits, last place
    never below [2^-1074]), ties to even. *)
Definition round64 (q : Q) : Q :=
  let r := Qred q in
  if (Qnum r =? 0)%Z then 0
  else
    let a := Qabs r in
    let p := Z.max (ilog2 a - 52) (-1074) in
    let m := round_half_even (a / pow2 p) in
    let v := inject_Z m * pow2 p in
    if (Qnum r <? 0)%Z then - v else v.

(** The four operations of IEEE 754: the exact result, rounded. *)
Definition fadd (a b : Q) : Q := round64 (a + b).
Definition fsub (a b : Q) : Q := round64 (a - b).
Definition fmul (a b : Q) : Q := round64 (a * b).
Definition fdiv (a b : Q) : Q := round64 (a / b).

(** [float(z)]: the conversion of an int to float64. *)
Definition of_int (z : Z) : Q := round64 (inject_Z z).

(** A float64 value whose sums with another one stay finite. *)
Definition float64 (q : Q) : Prop := round64 q == q /\ Qabs q <= pow2 1022.

(** The unit roundoff [2^-53] of binary64 and half its smallest positive
    number, [2^-1075]: rounding [q] moves it by at most
    [|q| * unit_roundoff + tiny]. *)
Definition unit_roundoff : Q := / inject_Z (2 ^ 53).
Definition tiny : Q := / inject_Z (2 ^ 1075).

(** Point [i] of the [num] evenly spaced points from [start] to [stop]. *)
Definition even_point (start stop : Q) (num i : nat) : Q :=
  start + inject_Z (Z.of_nat i) / inject_Z (Z.of_nat (num - 1)) * (stop - start).

(** What the roundings of [np.linspace(start, stop, num)] can add up to:
    [(|start| + |stop|) * 2^-50 + num * 2^-1071]. *)
Definition rounding_allowance (start stop : Q) (num : nat) : Q :=
  (Qabs start + Qabs stop) * (1 # 1125899906842624)
  + inject_Z (Z.of_nat num) * (16 * tiny).

(** int64 arithmetic wraps around. *)
Definition wrap64 (z : Z) : Z := ((z + 2 ^ 63) mod 2 ^ 64 - 2 ^ 63)%Z.

(** [np.linspace(start, stop, num)] on float64 arguments:
    [step = (stop - start) / (num - 1)], the samples are
    [arange(num) * step + start] (or [arange(num) / (num - 1) * (stop -
    start) + start] when the step is zero), and the last one is overwritten
    with [stop] when [num > 1]. *)
Definition linspace64 (start stop : Q) (num : nat) : list Q :=
  let div := inject_Z (Z.of_nat (num - 1)) in
  let delta := fsub stop start in
  let step := fdiv delta div in
  map (fun i : nat =>
         if (1 <? num)%nat && (i =? num - 1)%nat then stop
         else if Qeq_bool step 0
              then fadd (fmul (fdiv (inject_Z (Z.of_nat i)) div) delta) start
              else fadd (fmul (inject_Z (Z.of_nat i)) step) start)
      (seq 0 num).

(** [map_coordinates] with [order=0]: the cell read is [floor(c + 0.5)],
    the sum being a float64 sum. *)
Definition nearest64 (c : Q) : Z := Qfloor (fadd c (1 # 2)).

Definition sample_at64 (input : ndarray) (h w : Z) (r c : Q) : Z :=
  if in_range r h && in_range c w
  then item input [nearest64 r; nearest64 c]
  else 0%Z.

Definition map_coordinates64 (input : ndarray) (m n : list Q) : res (list Z) :=
  match shape input with
  | [h; w] =>
      Ok (map (fun rc => sample_at64 input (Z.of_nat h) (Z.of_nat w) (fst rc) (snd rc))
              (combine m n))
  | _ => Raise RuntimeError
  end.

(** [profile(mask, p0, p1, num)] on two points with float64 coordinates. *)
Definition profile64 (mask : ndarray) (p0 p1 : Q * Q) (num : nat)
  : res (list Q * list Q * list Z) :=
  let n := linspace64 (fst p0) (fst p1) num in
  let m := linspace64 (snd p0) (snd p1) num in
  vals <- map_coordinates64 mask m n ;;
  Ok (n, m, vals).

(** An int64 point handed to [np.linspace]: both coordinates are converted
    to float64. *)
Definition of_int_point (p : Z * Z) : Q * Q := (of_int (fst p), of_int (snd p)).

(** A contact is an int64 array (the fallback) or a float64 array (a
    sample). *)
Inductive coords : Type :=
| IntPt (x y : Z)
| FloatPt (x y : Q).

(** [contact_l + contact_r]: int64 plus int64 wraps; otherwise the int64
    operand is converted and the sum is a float64 sum. *)
Definition add_coords (a b : coords) : coords :=
  match a, b with
  | IntPt x1 y1, IntPt x2 y2 => IntPt (wrap64 (x1 + x2)) (wrap64 (y1 + y2))
  | IntPt x1 y1, FloatPt x2 y2 => FloatPt (fadd (of_int x1) x2) (fadd (of_int y1) y2)
  | FloatPt x1 y1, IntPt x2 y2 => FloatPt (fadd x1 (of_int x2)) (fadd y1 (of_int y2))
  | FloatPt x1 y1, FloatPt x2 y2 => FloatPt (fadd x1 x2) (fadd y1 y2)
  end.

(** [a / 2]: true division, always a float64 array. *)
Definition halve (a : coords) : Q * Q :=
  match a with
  | IntPt x y => (fdiv (of_int x) 2, fdiv (of_int y) 2)
  | FloatPt x y => (fdiv x 2, fdiv y 2)
  end.

(** Lines 134-136. *)
Definition road_center64 (cl cr : coords) : Z * Z :=
  to_pixel (halve (add_coords cl cr)).

(** The local variables of [find_center]. *)
Record locals64 : Type := {
  sample_width64 : Z;
  xl64 : list Q;  yl64 : list Q;  l_val64 : list Z;
  xr64 : list Q;  yr64 : list Q;  r_val64 : list Z;
  contact_l64 : coords;
  contact_r64 : coords;
  center64 : Q * Q
}.

(** The body of [find_center] up to the computation of [center], for [x],
    [y] and the two segment ends within int64. *)
Definition find_center_locals64 (mask : ndarray) (x y : Z) : res locals64 :=
  ' (img_height, img_width) <- unpack2 (shape mask) ;;
  let sample_width := int_of (fdiv (of_int img_width) 2) in
  let p0 := (x, y) in
  let pl := ((x - sample_width)%Z, y) in
  let pr := ((x + sample_width)%Z, y) in
  ' (xl, yl, l_val) <- profile64 mask (of_int_point p0) (of_int_point pl) 40 ;;
  ' (xr, yr, r_val) <- profile64 mask (of_int_point p0) (of_int_point pr) 40 ;;
  let idx_l := nonzero l_val in
  let idx_r := nonzero r_val in
  let contact_l :=
    match idx_l with
    | [] => IntPt (wrap64 (fst p0 + -100)) (wrap64 (snd p0 + 0))
    | i :: _ => FloatPt (nth i xl 0) (nth i yl 0)
    end in
  let contact_r :=
    match idx_r with
    | [] => IntPt (wrap64 (fst p0 + 30)) (wrap64 (snd p0 + 0))
    | i :: _ => FloatPt (nth i xr 0) (nth i yr 0)
    end in
  Ok {| sample_width64 := sample_width;
        xl64 := xl; yl64 := yl; l_val64 := l_val;
        xr64 := xr; yr64 := yr; r_val64 := r_val;
        contact_l64 := contact_l; contact_r64 := contact_r;
        center64 := halve (add_coords contact_l contact_r) |}.

(** [find_center(mask, x, y)] *)
Definition find_center64 (mask : ndarray) (x y : Z) : res (Z * Z) :=
  l <- find_center_locals64 mask x y ;;
  Ok (to_pixel (center64 l)).

End Float64.

(** * Properties *)

Module SamplingFacts.

Import Sampling.
Local Open Scope Q_scope.

(** ** [int] *)

Lemma int_of_nonneg (q : Q) : 0 <= q -> int_of q = Qfloor q.
Proof.
  destruct q as [n d]; unfold int_of, Qfloor, Qle; simpl; intros Hn.
  apply Z.quot_div_nonneg; lia.
Qed.

Lemma int_of_neg (q : Q) : q < 0 -> int_of q = Qceiling q.
Proof.
  destruct q as [n d]; unfold int_of, Qceiling, Qfloor, Qlt; simpl; intros Hn.
  rewrite <- (Z.opp_involutive n) at 1.
  rewrite Z.quot_opp_l by lia.
  f_equal. apply Z.quot_div_nonneg; lia.
Qed.

Lemma int_of_comp (p q : Q) : p == q -> int_of p = int_of q.
Proof.
  intros Heq.
  destruct (Qlt_le_dec p 0) as [Hp | Hp].
  - rewrite (int_of_neg _ Hp), (int_of_neg q) by (rewrite <- Heq; exact Hp).
    unfold Qceiling. f_equal. apply Qfloor_comp. rewrite Heq. reflexivity.
  - rewrite (int_of_nonneg _ Hp), (int_of_nonneg q) by (rewrite <- Heq; exact Hp).
    apply Qfloor_comp, Heq.
Qed.

Lemma int_of_inject_Z (z : Z) : int_of (inject_Z z) = z.
Proof. unfold int_of; simpl. apply Z.quot_1_r. Qed.

(** [int(w / 2)] is the integer quotient for a non-negative [w]. *)
Lemma int_of_half (w : Z) : (0 <= w)%Z -> int_of (inject_Z w / 2) = (w / 2)%Z.
Proof.
  intros Hw. rewrite int_of_nonneg.
  - change 2 with (inject_Z 2). symmetry. apply Zdiv_Qdiv.
  - apply Qle_shift_div_l; [reflexivity |].
    rewrite Qmult_0_l. change 0 with (inject_Z 0). rewrite <- Zle_Qle. exact Hw.
Qed.

(** [int(h * .6)] is [3 h / 5] rounded down for a non-negative [h]. *)
Lemma int_of_six_tenths (h : Z) :
  (0 <= h)%Z -> int_of (inject_Z h * (6 # 10)) = (3 * h / 5)%Z.
Proof.
  intros Hh. rewrite int_of_nonneg.
  - rewrite Zdiv_Qdiv. apply Qfloor_comp.
    rewrite inject_Z_mult. change (inject_Z 3) with 3. change (inject_Z 5) with 5.
    field.
  - apply Qmult_le_0_compat; [| discriminate].
    change 0 with (inject_Z 0). rewrite <- Zle_Qle. exact Hh.
Qed.

(** ** [np.linspace] *)

Lemma linspace_length (start stop : Q) (num : nat) :
  length (linspace start stop num) = num.
Proof. unfold linspace. rewrite length_map, length_seq. reflexivity. Qed.

Lemma linspace_nth (start stop : Q) (num i : nat) :
  (i < num)%nat ->
  nth i (linspace start stop num) 0 =
    if (1 <? num)%nat && (i =? num - 1)%nat then stop
    else inject_Z (Z.of_nat i) * ((stop - start) / inject_Z (Z.of_nat (num - 1)))
         + start.
Proof.
  intros Hi. unfold linspace.
  set (f := fun i0 : nat => _).
  rewrite (nth_indep _ 0 (f 0%nat)) by (rewrite length_map, length_seq; exact Hi).
  rewrite map_nth, seq_nth by exact Hi.
  reflexivity.
Qed.

(** Sample [i] sits at parameter [i / (num - 1)] of the segment. *)
Lemma linspace_nth_param (start stop : Q) (num i : nat) :
  (2 <= num)%nat -> (i < num)%nat ->
  nth i (linspace start stop num) 0
  == start + (inject_Z (Z.of_nat i) / inject_Z (Z.of_nat (num - 1))) * (stop - start).
Proof.
  intros Hnum Hi. rewrite linspace_nth by exact Hi.
  assert (Hd : ~ inject_Z (Z.of_nat (num - 1)) == 0).
  { change 0 with (inject_Z 0). rewrite inject_Z_injective. lia. }
  destruct ((1 <? num)%nat && (i =? num - 1)%nat) eqn:E.
  - apply andb_true_iff in E. destruct E as [_ E]. apply Nat.eqb_eq in E.
    subst i. field. exact Hd.
  - field. exact Hd.
Qed.

(** A degenerate segment: every sample is the common endpoint. *)
Lemma linspace_const (c : Q) (num i : nat) :
  (i < num)%nat -> nth i (linspace c c num) 0 == c.
Proof.
  intros Hi. rewrite linspace_nth by exact Hi.
  destruct ((1 <? num)%nat && (i =? num - 1)%nat); [reflexivity |].
  unfold Qdiv. setoid_replace (c - c) with 0 by ring. ring.
Qed.

(** ** [np.nonzero] *)

Lemma nonzero_from_nil (s : nat) (vals : list Z) :
  nonzero_from s vals = [] <-> (forall v, In v vals -> v = 0%Z).
Proof.
  revert s. induction vals as [| v rest IH]; intros s; simpl.
  - split; [intros _ v [] | reflexivity].
  - destruct (Z.eqb_spec v 0) as [Hv | Hv].
    + rewrite IH. split.
      * intros H u [Hu | Hu]; [congruence | auto].
      * intros H u Hu. apply H. right. exact Hu.
    + split; [discriminate |]. intros H. exfalso. apply Hv, H. left. reflexivity.
Qed.

Lemma nonzero_from_head (s k : nat) (vals : list Z) (rest : list nat) :
  nonzero_from s vals = k :: rest ->
  exists i : nat,
    k = (s + i)%nat /\ (i < length vals)%nat /\ nth i vals 0%Z <> 0%Z /\
    (forall j : nat, (j < i)%nat -> nth j vals 0%Z = 0%Z).
Proof.
  revert s. induction vals as [| v tl IH]; intros s; simpl; [discriminate |].
  destruct (Z.eqb_spec v 0) as [Hv | Hv]; intros H.
  - destruct (IH _ H) as (i & Hk & Hi & Hnz & Hbefore).
    exists (S i). repeat split; [lia | lia | exact Hnz |].
    intros [| j] Hj; [exact Hv | apply Hbefore; lia].
  - injection H as Hk _. exists 0%nat. repeat split; [lia | lia | exact Hv |].
    intros j Hj. lia.
Qed.

Lemma nonzero_from_first (s i : nat) (vals : list Z) :
  (i < length vals)%nat -> nth i vals 0%Z <> 0%Z ->
  (forall j : nat, (j < i)%nat -> nth j vals 0%Z = 0%Z) ->
  exists rest, nonzero_from s vals = (s + i)%nat :: rest.
Proof.
  revert s i. induction vals as [| v tl IH]; intros s i Hi Hnz Hbefore; simpl in *.
  - lia.
  - destruct i as [| i].
    + destruct (Z.eqb_spec v 0) as [Hv | Hv]; [contradiction |].
      rewrite Nat.add_0_r. eexists; reflexivity.
    + destruct (Z.eqb_spec v 0) as [Hv | Hv].
      * destruct (IH (S s) i) as [rest Hrest]; [lia | exact Hnz | |].
        { intros j Hj. apply (Hbefore (S j)). lia. }
        exists rest. rewrite Hrest. f_equal. lia.
      * exfalso. apply Hv. apply (Hbefore 0%nat). lia.
Qed.

Lemma nonzero_nil (vals : list Z) :
  nonzero vals = [] <-> (forall v, In v vals -> v = 0%Z).
Proof. apply nonzero_from_nil. Qed.

Lemma nonzero_head (k : nat) (vals : list Z) (rest : list nat) :
  nonzero vals = k :: rest ->
  (k < length vals)%nat /\ nth k vals 0%Z <> 0%Z /\
  (forall j : nat, (j < k)%nat -> nth j vals 0%Z = 0%Z).
Proof.
  intros H. destruct (nonzero_from_head _ _ _ _ H) as (i & Hk & Hi & Hnz & Hb).
  simpl in Hk. subst k. auto.
Qed.

Lemma nonzero_first (i : nat) (vals : list Z) :
  (i < length vals)%nat -> nth i vals 0%Z <> 0%Z ->
  (forall j : nat, (j < i)%nat -> nth j vals 0%Z = 0%Z) ->
  exists rest, nonzero vals = i :: rest.
Proof. intros. apply (nonzero_from_first 0); assumption. Qed.

(** ** [map_coordinates] and [profile] on a 2-D mask *)

Lemma sample_at_nonzero (input : ndarray) (h w : Z) (r c : Q) :
  sample_at input h w r c <> 0%Z ->
  (0 <= r <= inject_Z (h - 1) /\ 0 <= c <= inject_Z (w - 1)) /\
  item input [nearest r; nearest c] = sample_at input h w r c.
Proof.
  unfold sample_at, in_range.
  destruct (Qle_bool 0 r && Qle_bool r (inject_Z (h - 1))
            && (Qle_bool 0 c && Qle_bool c (inject_Z (w - 1)))) eqn:E;
    [| congruence].
  intros _. rewrite !andb_true_iff, !Qle_bool_iff in E. tauto.
Qed.

Lemma sample_at_outside (input : ndarray) (h w : Z) (r c : Q) :
  r < 0 \/ inject_Z (h - 1) < r \/ c < 0 \/ inject_Z (w - 1) < c ->
  sample_at input h w r c = 0%Z.
Proof.
  intros Hout. unfold sample_at, in_range.
  destruct (Qle_bool 0 r && Qle_bool r (inject_Z (h - 1))
            && (Qle_bool 0 c && Qle_bool c (inject_Z (w - 1)))) eqn:E;
    [| reflexivity].
  rewrite !andb_true_iff, !Qle_bool_iff in E. exfalso. lra.
Qed.

(** Inside the mask the cell that is read lies inside the mask. *)
Lemma nearest_in_bounds (c : Q) (len : Z) :
  0 <= c <= inject_Z (len - 1) -> (0 <= nearest c < len)%Z.
Proof.
  intros [Hlo Hhi]. unfold nearest. split.
  - change 0%Z with (Qfloor 0). apply Qfloor_resp_le. lra.
  - assert (H : (Qfloor (c + (1 # 2)) <= Qfloor (inject_Z (len - 1) + (1 # 2)))%Z)
      by (apply Qfloor_resp_le; lra).
    assert (H' : (Qfloor (inject_Z (len - 1) + (1 # 2)) < len)%Z).
    { assert (Hf := Qfloor_le (inject_Z (len - 1) + (1 # 2))).
      set (fl := Qfloor (inject_Z (len - 1) + (1 # 2))) in *.
      assert (Hlt : inject_Z fl < inject_Z len).
      { unfold Z.sub in Hf. rewrite inject_Z_plus in Hf.
        change (inject_Z (- (1))) with (-1 # 1) in Hf. lra. }
      rewrite <- Zlt_Qlt in Hlt. exact Hlt. }
    lia.
Qed.

Lemma nearest_close (c : Q) :
  c - (1 # 2) < inject_Z (nearest c) <= c + (1 # 2).
Proof.
  unfold nearest. split.
  - assert (H := Qlt_floor (c + (1 # 2))).
    rewrite inject_Z_plus in H. change (inject_Z 1) with 1 in H. lra.
  - apply Qfloor_le.
Qed.

Lemma profile_2d (mask : ndarray) (h w : nat) (p0 p1 : point) (num : nat) :
  shape mask = [h; w] ->
  profile mask p0 p1 num =
    Ok (linspace (fst p0) (fst p1) num,
        linspace (snd p0) (snd p1) num,
        map (fun rc => sample_at mask (Z.of_nat h) (Z.of_nat w) (fst rc) (snd rc))
            (combine (linspace (snd p0) (snd p1) num)
                     (linspace (fst p0) (fst p1) num))).
Proof. intros Hs. unfold profile, map_coordinates. rewrite Hs. reflexivity. Qed.

Lemma sampled_length (mask : ndarray) (h w : Z) (m n : list Q) :
  length m = length n ->
  length (map (fun rc => sample_at mask h w (fst rc) (snd rc)) (combine m n))
  = length n.
Proof. intros H. rewrite length_map, length_combine, H. apply Nat.min_id. Qed.

Lemma sampled_nth (mask : ndarray) (h w : Z) (m n : list Q) (i : nat) :
  length m = length n -> (i < length n)%nat ->
  nth i (map (fun rc => sample_at mask h w (fst rc) (snd rc)) (combine m n)) 0%Z
  = sample_at mask h w (nth i m 0) (nth i n 0).
Proof.
  intros Hlen Hi.
  set (f := fun rc : Q * Q => _).
  rewrite (nth_indep _ 0%Z (f (0, 0))).
  - rewrite map_nth, combine_nth by exact Hlen. reflexivity.
  - rewrite length_map, length_combine, Hlen, Nat.min_id. exact Hi.
Qed.

(** ** [find_center] on a 2-D mask *)

(** On a mask of shape [(h, w)] no exception is raised and every local is
    determined as the body of [find_center] binds it. *)
Lemma find_center_locals_2d (mask : ndarray) (h w : nat) (x y : Z) :
  shape mask = [h; w] ->
  exists l : locals,
    find_center_locals mask x y = Ok l /\
    sample_width l = int_of (inject_Z (Z.of_nat w) / 2) /\
    p0 l = (x, y) /\
    pl l = ((x - sample_width l)%Z, y) /\
    pr l = ((x + sample_width l)%Z, y) /\
    (xl l = linspace (inject_Z x) (inject_Z (x - sample_width l)) 40 /\
     yl l = linspace (inject_Z y) (inject_Z y) 40 /\
     l_val l = map (fun rc => sample_at mask (Z.of_nat h) (Z.of_nat w) (fst rc) (snd rc))
                   (combine (yl l) (xl l))) /\
    (xr l = linspace (inject_Z x) (inject_Z (x + sample_width l)) 40 /\
     yr l = linspace (inject_Z y) (inject_Z y) 40 /\
     r_val l = map (fun rc => sample_at mask (Z.of_nat h) (Z.of_nat w) (fst rc) (snd rc))
                   (combine (yr l) (xr l))) /\
    contact_l l = match nonzero (l_val l) with
                  | [] => of_ints ((x + -100)%Z, (y + 0)%Z)
                  | i :: _ => (nth i (xl l) 0, nth i (yl l) 0)
                  end /\
    contact_r l = match nonzero (r_val l) with
                  | [] => of_ints ((x + 30)%Z, (y + 0)%Z)
                  | i :: _ => (nth i (xr l) 0, nth i (yr l) 0)
                  end /\
    center l = midpoint (contact_l l) (contact_r l).
Proof.
  intros Hs. unfold find_center_locals. rewrite Hs. cbn [unpack2 bind].
  rewrite !(profile_2d mask h w _ _ _ Hs). cbn [bind].
  eexists. split; [reflexivity |].
  cbn [sample_width p0 pl pr xl yl l_val xr yr r_val contact_l contact_r center
       of_ints fst snd].
  repeat split; reflexivity.
Qed.

Lemma locals_lengths (mask : ndarray) (h w : Z) (xs ys : list Q) (a b c d : Q) :
  xs = linspace a b 40 -> ys = linspace c d 40 ->
  length ys = length xs /\ length xs = 40%nat /\
  length (map (fun rc => sample_at mask h w (fst rc) (snd rc)) (combine ys xs)) = 40%nat.
Proof.
  intros -> ->. rewrite sampled_length; rewrite !linspace_length; auto.
Qed.

Lemma param_in_unit (num i : nat) :
  (2 <= num)%nat -> (i < num)%nat ->
  0 <= inject_Z (Z.of_nat i) / inject_Z (Z.of_nat (num - 1)) <= 1.
Proof.
  intros Hnum Hi.
  assert (Hd : 0 < inject_Z (Z.of_nat (num - 1))).
  { change 0 with (inject_Z 0). rewrite <- Zlt_Qlt. lia. }
  split.
  - apply Qle_shift_div_l; [exact Hd |]. rewrite Qmult_0_l.
    change 0 with (inject_Z 0). rewrite <- Zle_Qle. lia.
  - apply Qle_shift_div_r; [exact Hd |]. rewrite Qmult_1_l.
    rewrite <- Zle_Qle. lia.
Qed.

(** [int] drops the fractional part: sign times the floor of the absolute
    value. *)
Lemma int_of_trunc (q : Q) : int_of q = (Z.sgn (Qnum q) * Qfloor (Qabs q))%Z.
Proof.
  destruct q as [[| n | n] d]; unfold int_of, Qfloor, Qabs; cbn [Qnum Qden Z.abs Z.sgn].
  - rewrite Z.quot_0_l by discriminate. reflexivity.
  - rewrite Z.quot_div_nonneg by lia. lia.
  - change (Z.neg n) with (- Z.pos n)%Z. rewrite Z.quot_opp_l by discriminate.
    rewrite Z.quot_div_nonneg by lia. lia.
Qed.

Lemma nearest_inject_Z (z : Z) : nearest (inject_Z z) = z.
Proof.
  assert (Hc := nearest_close (inject_Z z)).
  destruct Hc as [Hlo Hhi].
  assert (H1 : inject_Z z < inject_Z (nearest (inject_Z z) + 1)).
  { rewrite inject_Z_plus. change (inject_Z 1) with 1. lra. }
  assert (H2 : inject_Z (nearest (inject_Z z)) < inject_Z (z + 1)).
  { rewrite inject_Z_plus. change (inject_Z 1) with 1. lra. }
  rewrite <- Zlt_Qlt in H1, H2. lia.
Qed.

Lemma nearest_comp (p q : Q) : p == q -> nearest p = nearest q.
Proof. intros H. unfold nearest. apply Qfloor_comp. rewrite H. reflexivity. Qed.

(** ** The row of the road centre *)

Lemma contact_rows (mask : ndarray) (h w : nat) (x y : Z) (l : locals) :
  shape mask = [h; w] ->
  find_center_locals mask x y = Ok l ->
  snd (contact_l l) == inject_Z y /\ snd (contact_r l) == inject_Z y.
Proof.
  intros Hs Hl.
  destruct (find_center_locals_2d mask h w x y Hs)
    as (l' & Hl' & _ & _ & _ & _ & (Hxl & Hyl & Hlv) & (Hxr & Hyr & Hrv) & Hcl & Hcr & _).
  rewrite Hl in Hl'. injection Hl' as Hl'. subst l'.
  destruct (locals_lengths mask (Z.of_nat h) (Z.of_nat w) _ _ _ _ _ _ Hxl Hyl)
    as (_ & _ & Hlenl).
  destruct (locals_lengths mask (Z.of_nat h) (Z.of_nat w) _ _ _ _ _ _ Hxr Hyr)
    as (_ & _ & Hlenr).
  rewrite <- Hlv in Hlenl. rewrite <- Hrv in Hlenr.
  split.
  - rewrite Hcl. destruct (nonzero (l_val l)) as [| i rest] eqn:E.
    + unfold of_ints; cbn [fst snd]. rewrite Z.add_0_r. reflexivity.
    + cbn [snd]. apply nonzero_head in E. destruct E as [Hi _].
      rewrite Hyl. apply linspace_const. lia.
  - rewrite Hcr. destruct (nonzero (r_val l)) as [| i rest] eqn:E.
    + unfold of_ints; cbn [fst snd]. rewrite Z.add_0_r. reflexivity.
    + cbn [snd]. apply nonzero_head in E. destruct E as [Hi _].
      rewrite Hyr. apply linspace_const. lia.
Qed.

(** [find_center] returns a point of the sampled row. *)
Lemma find_center_row (mask : ndarray) (h w : nat) (x y : Z) :
  shape mask = [h; w] ->
  exists cx : Z, find_center mask x y = Ok (cx, y).
Proof.
  intros Hs.
  destruct (find_center_locals_2d mask h w x y Hs) as (l & Hl & Hrest).
  destruct (contact_rows mask h w x y l Hs Hl) as [Hyl Hyr].
  assert (Hc : center l = midpoint (contact_l l) (contact_r l)) by tauto.
  exists (int_of (fst (center l))).
  unfold find_center. rewrite Hl. cbn [bind]. unfold to_pixel.
  do 2 f_equal. rewrite Hc. unfold midpoint; cbn [snd].
  transitivity (int_of (inject_Z y)); [| apply int_of_inject_Z].
  apply int_of_comp. rewrite Hyl, Hyr. field.
Qed.

(** [find_center] returns [road_center] of the two contacts. *)
Lemma find_center_is_road_center (mask : ndarray) (h w : nat) (x y : Z) (l : locals) :
  shape mask = [h; w] ->
  find_center_locals mask x y = Ok l ->
  find_center mask x y = Ok (road_center (contact_l l) (contact_r l)).
Proof.
  intros Hs Hl.
  destruct (find_center_locals_2d mask h w x y Hs) as (l' & Hl' & Hrest).
  rewrite Hl in Hl'. injection Hl' as Hl'. subst l'.
  assert (Hc : center l = midpoint (contact_l l) (contact_r l)) by tauto.
  unfold find_center, road_center. rewrite Hl. cbn [bind]. rewrite Hc. reflexivity.
Qed.

(** ** Identical masks *)

Lemma sample_at_ext (a b : ndarray) (h w : nat) (r c : Q) :
  shape a = [h; w] -> same_array a b ->
  sample_at a (Z.of_nat h) (Z.of_nat w) r c = sample_at b (Z.of_nat h) (Z.of_nat w) r c.
Proof.
  intros Hs [_ Hitem]. unfold sample_at.
  destruct (in_range r (Z.of_nat h) && in_range c (Z.of_nat w)) eqn:E; [| reflexivity].
  unfold in_range in E. rewrite !andb_true_iff, !Qle_bool_iff in E.
  apply Hitem. rewrite Hs. unfold in_bounds.
  constructor; [apply nearest_in_bounds; tauto |].
  constructor; [apply nearest_in_bounds; tauto | constructor].
Qed.

Lemma profile_ext (a b : ndarray) (p0 p1 : point) (num : nat) :
  same_array a b -> profile a p0 p1 num = profile b p0 p1 num.
Proof.
  intros Hsame. pose proof Hsame as [Hshape _].
  unfold profile, map_coordinates. rewrite <- Hshape.
  destruct (shape a) as [| h [| w [| ? ?]]] eqn:Hs; try reflexivity.
  cbn [bind]. do 2 f_equal. apply map_ext. intros rc.
  apply sample_at_ext; assumption.
Qed.

Lemma find_center_ext (a b : ndarray) (x y : Z) :
  same_array a b -> find_center a x y = find_center b x y.
Proof.
  intros Hsame. pose proof Hsame as [Hshape _].
  unfold find_center, find_center_locals. rewrite <- Hshape.
  destruct (unpack2 (shape a)) as [[ih iw] | e]; cbn [bind]; [| reflexivity].
  rewrite (profile_ext a b) by exact Hsame.
  destruct (profile b _ _ 40) as [[[xs ys] vs] | e]; cbn [bind]; [| reflexivity].
  rewrite (profile_ext a b) by exact Hsame. reflexivity.
Qed.

(** ** Scan segments and samples outside the mask *)

Lemma even_halves (w : Z) : Z.even w = true -> (w / 2 + w / 2 = w)%Z.
Proof.
  intros H. apply Z.even_spec in H. destruct H as [k ->].
  rewrite (Z.mul_comm 2 k), Z.div_mul by discriminate. lia.
Qed.

(** C10: on a mask of shape [(h, w)], called as [detect] calls it (with
    [x = int(w / 2)]), [find_center] returns normally; the half-width is
    [w / 2], the left segment ends at [(0, y)] and the right one at
    [(2 * (w / 2), y)]; for an even positive [w] that end is [(w, y)], one
    past the last column, and the sample taken there has value 0.  Every
    sample whose coordinate lies outside the mask has value 0. *)
Theorem scan_reaches_outside (mask : ndarray) (h w : nat) (y : Z) :
  shape mask = [h; w] ->
  exists l : locals,
    find_center_locals mask (int_of (inject_Z (Z.of_nat w) / 2)) y = Ok l /\
    sample_width l = (Z.of_nat w / 2)%Z /\
    pl l = (0%Z, y) /\
    pr l = ((Z.of_nat w / 2 + Z.of_nat w / 2)%Z, y) /\
    (length (l_val l) = 40%nat /\ length (r_val l) = 40%nat) /\
    (Z.even (Z.of_nat w) = true -> (0 < w)%nat ->
     fst (pr l) = Z.of_nat w /\
     nth 39 (xr l) 0 = inject_Z (Z.of_nat w) /\
     inject_Z (Z.of_nat w - 1) < nth 39 (xr l) 0 /\
     nth 39 (r_val l) 0%Z = 0%Z) /\
    (forall i : nat, (i < 40)%nat ->
       (nth i (yl l) 0 < 0 \/ inject_Z (Z.of_nat h - 1) < nth i (yl l) 0 \/
        nth i (xl l) 0 < 0 \/ inject_Z (Z.of_nat w - 1) < nth i (xl l) 0) ->
       nth i (l_val l) 0%Z = 0%Z) /\
    (forall i : nat, (i < 40)%nat ->
       (nth i (yr l) 0 < 0 \/ inject_Z (Z.of_nat h - 1) < nth i (yr l) 0 \/
        nth i (xr l) 0 < 0 \/ inject_Z (Z.of_nat w - 1) < nth i (xr l) 0) ->
       nth i (r_val l) 0%Z = 0%Z).
Proof.
  intros Hs.
  destruct (find_center_locals_2d mask h w (int_of (inject_Z (Z.of_nat w) / 2)) y Hs)
    as (l & Hl & Hsw & _ & Hpl & Hpr & (Hxl & Hyl & Hlv) & (Hxr & Hyr & Hrv) & _).
  rewrite int_of_half in * by lia.
  destruct (locals_lengths mask (Z.of_nat h) (Z.of_nat w) _ _ _ _ _ _ Hxl Hyl)
    as (Hll & Hlxl & Hlenl).
  destruct (locals_lengths mask (Z.of_nat h) (Z.of_nat w) _ _ _ _ _ _ Hxr Hyr)
    as (Hlr & Hlxr & Hlenr).
  assert (Hleft : forall i : nat, (i < 40)%nat ->
            nth i (l_val l) 0%Z
            = sample_at mask (Z.of_nat h) (Z.of_nat w) (nth i (yl l) 0) (nth i (xl l) 0)).
  { intros i Hi. rewrite Hlv at 1. apply sampled_nth; [exact Hll | lia]. }
  assert (Hright : forall i : nat, (i < 40)%nat ->
            nth i (r_val l) 0%Z
            = sample_at mask (Z.of_nat h) (Z.of_nat w) (nth i (yr l) 0) (nth i (xr l) 0)).
  { intros i Hi. rewrite Hrv at 1. apply sampled_nth; [exact Hlr | lia]. }
  exists l. split; [exact Hl |]. split; [exact Hsw |].
  split; [rewrite Hpl, Hsw, Z.sub_diag; reflexivity |].
  split; [rewrite Hpr, Hsw; reflexivity |].
  split; [split; [rewrite Hlv; exact Hlenl | rewrite Hrv; exact Hlenr] |].
  split; [| split].
  - intros Heven Hpos.
    assert (Hend : nth 39 (xr l) 0 = inject_Z (Z.of_nat w)).
    { rewrite Hxr, linspace_nth by lia. cbn [Nat.ltb Nat.leb Nat.sub Nat.eqb andb].
      rewrite Hsw, even_halves by exact Heven. reflexivity. }
    assert (Hout : inject_Z (Z.of_nat w - 1) < nth 39 (xr l) 0).
    { rewrite Hend, <- Zlt_Qlt. lia. }
    split; [rewrite Hpr, Hsw; cbn [fst]; apply even_halves, Heven |].
    split; [exact Hend |]. split; [exact Hout |].
    rewrite Hright by lia. apply sample_at_outside. tauto.
  - intros i Hi Hout. rewrite Hleft by exact Hi. apply sample_at_outside, Hout.
  - intros i Hi Hout. rewrite Hright by exact Hi. apply sample_at_outside, Hout.
Qed.

(** The theorem at the 100 x 100 example mask: the right scan ends at
    column 100. *)
Lemma scan_reaches_outside_witness :
  exists l : locals,
    find_center_locals example_mask 50 60 = Ok l /\
    pl l = (0%Z, 60%Z) /\ fst (pr l) = 100%Z /\ nth 39 (r_val l) 0%Z = 0%Z.
Proof.
  destruct (scan_reaches_outside example_mask 100 100 60 eq_refl)
    as (l & Hl & _ & Hpl & _ & _ & Heven & _).
  destruct Heven as (Hpr & _ & _ & Hv); [reflexivity | lia |].
  exists l. repeat split; assumption.
Defined.

End SamplingFacts.

Module HeadingFacts.

Import Heading.
Local Open Scope R_scope.

Lemma is_zero_true (r : R) : r = 0 -> is_zero r = true.
Proof. intros H. unfold is_zero. destruct (Req_dec_T r 0); [reflexivity | contradiction]. Qed.

Lemma is_zero_false (r : R) : r <> 0 -> is_zero r = false.
Proof. intros H. unfold is_zero. destruct (Req_dec_T r 0); [contradiction | reflexivity]. Qed.

Lemma is_neg_true (r : R) : r < 0 -> is_neg r = true.
Proof. intros H. unfold is_neg. destruct (Rlt_dec r 0); [reflexivity | contradiction]. Qed.

Lemma is_neg_false (r : R) : 0 <= r -> is_neg r = false.
Proof. intros H. unfold is_neg. destruct (Rlt_dec r 0); [lra | reflexivity]. Qed.

Lemma value_of_int (z : Z) : value (of_int z) = IZR z.
Proof.
  unfold value, of_int; cbn [sign mag].
  destruct (Z.ltb_spec z 0) as [Hz | Hz].
  - rewrite Z.abs_neq by lia. rewrite opp_IZR. ring.
  - rewrite Z.abs_eq by lia. reflexivity.
Qed.

(** [1. * a - b] on two Python ints: the exact difference, [+0.0] when they
    are equal. *)
Lemma float_difference (a b : Z) :
  fsub (fmul fone (of_int a)) (of_int b) =
    {| sign := (a <? b)%Z; mag := IZR (Z.abs (a - b)) |}.
Proof.
  unfold fsub.
  assert (Hv : value (fmul fone (of_int a)) - value (of_int b) = IZR (a - b)).
  { rewrite value_of_int, minus_IZR. f_equal.
    rewrite <- (value_of_int a). unfold value, fmul, fone; cbn [sign mag xorb].
    destruct (sign (of_int a)); ring. }
  rewrite Hv. destruct (Z.eq_dec a b) as [Hab | Hab].
  - subst b. rewrite Z.sub_diag, is_zero_true by reflexivity.
    rewrite Z.ltb_irrefl. f_equal.
    cbn [fmul fone of_int sign xorb]. destruct (a <? 0)%Z; reflexivity.
  - rewrite is_zero_false by (intros H; apply eq_IZR in H; lia).
    f_equal.
    + destruct (Z.ltb_spec a b) as [Hlt | Hge].
      * apply is_neg_true. apply IZR_lt. lia.
      * apply is_neg_false. apply IZR_le. lia.
    + symmetry. apply abs_IZR.
Qed.

Lemma value_difference (a b : Z) :
  value {| sign := (a <? b)%Z; mag := IZR (Z.abs (a - b)) |} = IZR a - IZR b.
Proof.
  unfold value; cbn [sign mag]. rewrite <- minus_IZR.
  destruct (Z.ltb_spec a b) as [Hlt | Hge].
  - rewrite Z.abs_neq by lia. rewrite opp_IZR. ring.
  - rewrite Z.abs_eq by lia. reflexivity.
Qed.

(** The last line of [model_to_heading]: negate, scale by 180, divide by pi. *)
Lemma value_degrees (a : float) :
  value (fdiv (fmul (fopp a) (of_int 180)) fpi) = - value a * 180 / PI.
Proof.
  unfold value, fdiv, fmul, fopp, of_int, fpi; cbn [sign mag xorb Z.ltb Z.compare Z.abs].
  assert (HPI := PI_neq0).
  destruct (sign a); cbn [negb xorb]; field; exact HPI.
Qed.

Lemma atan_quot_opp_l (y x : R) : x <> 0 -> atan (- y / x) = - atan (y / x).
Proof. intros Hx. rewrite <- atan_opp. f_equal. field. exact Hx. Qed.

Lemma atan_quot_opp_r (y x : R) : x <> 0 -> atan (y / - x) = - atan (y / x).
Proof. intros Hx. rewrite <- atan_opp. f_equal. field. exact Hx. Qed.

Lemma atan_quot_opp_opp (y x : R) : x <> 0 -> atan (- y / - x) = atan (y / x).
Proof. intros Hx. f_equal. field. exact Hx. Qed.

(** Away from the pair [(+-0, -0)] and from a negative zero ordinate,
    [np.arctan2] is the two-argument arctangent of the values. *)
Lemma arctan2_value (fy fx : float) :
  0 <= mag fy -> 0 <= mag fx ->
  (mag fy = 0 -> sign fy = false /\ (mag fx = 0 -> sign fx = false)) ->
  value (arctan2 fy fx) = spec_atan2 (value fy) (value fx).
Proof.
  destruct fy as [sy my], fx as [sx mx]; cbn [sign mag]; intros Hmy Hmx Hzero.
  unfold arctan2, spec_atan2, value; cbn [sign mag].
  destruct (Req_dec_T my 0) as [Ey | Ey].
  - destruct (Hzero Ey) as [-> Hsx]. subst my.
    rewrite (is_zero_true 0) by reflexivity.
    destruct (Req_dec_T mx 0) as [Ex | Ex].
    + rewrite (Hsx Ex). subst mx. rewrite !(is_zero_true 0) by reflexivity.
      reflexivity.
    + destruct sx.
      * rewrite (is_zero_false (- mx)), (is_neg_true (- mx)), (is_neg_false 0) by lra.
        unfold Rdiv. rewrite Rmult_0_l, atan_0. ring.
      * rewrite (is_zero_false mx), (is_neg_false mx) by lra.
        unfold Rdiv. rewrite Rmult_0_l, atan_0. reflexivity.
  - rewrite (is_zero_false my) by exact Ey.
    destruct (Req_dec_T mx 0) as [Ex | Ex].
    + subst mx. rewrite (is_zero_true 0) by reflexivity.
      assert (E0 : (if sx then - 0 else 0) = 0) by (destruct sx; ring).
      rewrite E0, (is_zero_true 0) by reflexivity.
      destruct sy.
      * rewrite (is_zero_false (- my)), (is_neg_true (- my)) by lra. reflexivity.
      * rewrite (is_zero_false my), (is_neg_false my) by lra. reflexivity.
    + rewrite (is_zero_false mx) by exact Ex.
      destruct sx, sy.
      * rewrite (is_zero_false (- mx)), (is_neg_true (- mx)), (is_neg_true (- my)) by lra.
        rewrite atan_quot_opp_opp by exact Ex. ring.
      * rewrite (is_zero_false (- mx)), (is_neg_true (- mx)), (is_neg_false my) by lra.
        rewrite atan_quot_opp_r by exact Ex. ring.
      * rewrite ?(is_zero_false mx), (is_neg_false mx) by lra.
        rewrite atan_quot_opp_l by exact Ex. reflexivity.
      * rewrite ?(is_zero_false mx), (is_neg_false mx) by lra. reflexivity.
Qed.

Lemma abs_difference_zero (a b : Z) : IZR (Z.abs (a - b)) = 0 -> a = b.
Proof. intros H. apply eq_IZR in H. lia. Qed.

(** For two distinct points the code computes the formula of the
    specification. *)
Lemma heading_distinct (a c b d : Z) :
  (a, c) <> (b, d) ->
  value (model_to_heading (a, c) (b, d))
  = - spec_atan2 (IZR a - IZR b) (- (IZR c - IZR d)) * 180 / PI.
Proof.
  intros Hne. unfold model_to_heading; cbn [fst snd].
  rewrite value_degrees, !float_difference.
  do 3 f_equal.
  rewrite <- (value_difference a b).
  replace (- (IZR c - IZR d)) with
    (value (fopp {| sign := (c <? d)%Z; mag := IZR (Z.abs (c - d)) |})).
  - apply arctan2_value; cbn [fopp sign mag].
    + apply IZR_le. lia.
    + apply IZR_le. lia.
    + intros Ha. apply abs_difference_zero in Ha. subst b.
      split; [apply Z.ltb_irrefl |].
      intros Hc. apply abs_difference_zero in Hc. subst d.
      exfalso. apply Hne. reflexivity.
  - rewrite <- (value_difference c d). unfold value, fopp; cbn [sign mag].
    destruct (c <? d)%Z; cbn [negb]; ring.
Qed.

(** For coincident points [-dy] is the negative zero, [np.arctan2(0.0, -0.0)]
    is pi, and the heading is -180 degrees. *)
Lemma heading_coincident (p : Z * Z) : value (model_to_heading p p) = -180.
Proof.
  destruct p as [a c]. unfold model_to_heading; cbn [fst snd].
  rewrite value_degrees, !float_difference, !Z.sub_diag, !Z.ltb_irrefl.
  unfold arctan2, fopp, value; cbn [sign mag negb Z.abs].
  rewrite (is_zero_true 0) by reflexivity.
  assert (HPI := PI_neq0). field. exact HPI.
Qed.

Lemma spec_atan2_pos_x (y x : R) : 0 < x -> spec_atan2 y x = atan (y / x).
Proof.
  intros Hx. unfold spec_atan2.
  rewrite (is_zero_false x), (is_neg_false x) by lra. reflexivity.
Qed.

Lemma spec_atan2_zero_x (y : R) :
  y <> 0 -> spec_atan2 y 0 = if is_neg y then - (PI / 2) else PI / 2.
Proof.
  intros Hy. unfold spec_atan2.
  rewrite (is_zero_true 0), (is_zero_false y) by auto. reflexivity.
Qed.

Lemma atan_pos (u : R) : 0 < u -> 0 < atan u.
Proof. intros Hu. rewrite <- atan_0. apply atan_increasing, Hu. Qed.

Lemma atan_neg (u : R) : u < 0 -> atan u < 0.
Proof. intros Hu. rewrite <- atan_0. apply atan_increasing, Hu. Qed.

Lemma degrees_pos (a : R) : 0 < a -> 0 < a * 180 / PI.
Proof.
  intros Ha. assert (HPI := PI_RGT_0).
  apply Rdiv_lt_0_compat; lra.
Qed.

(** An angle strictly inside a quarter turn stays strictly inside 90
    degrees. *)
Lemma degrees_quarter (a : R) :
  - (PI / 2) < a < PI / 2 -> -90 < - a * 180 / PI < 90.
Proof.
  intros [Hlo Hhi]. assert (HPI := PI_RGT_0).
  split.
  - apply (Rmult_lt_reg_r PI); [exact HPI |].
    replace (- a * 180 / PI * PI) with (- a * 180) by (field; lra). lra.
  - apply (Rmult_lt_reg_r PI); [exact HPI |].
    replace (- a * 180 / PI * PI) with (- a * 180) by (field; lra). lra.
Qed.

Lemma points_distinct (a c b d : Z) :
  IZR a - IZR b <> 0 \/ IZR c - IZR d <> 0 -> (a, c) <> (b, d).
Proof. intros H E. injection E as -> ->. lra. Qed.

(** C1 (as the code has it): for a target and a reference point with pixel
    coordinates (integers of magnitude at most [2^52], which [1. * int]
    converts exactly), with [dx = target.x - reference.x] and
    [dy = target.y - reference.y], the heading of two distinct points is
    [-atan2(dx, -dy)] in degrees; [dx = 0, dy < 0] gives 0; [dx < 0, dy < 0]
    gives a positive heading and [dx > 0, dy < 0] a negative one; [dy = 0]
    gives +90 for [dx < 0] and -90 for [dx > 0]; coincident points
    ([dx = dy = 0]) give -180. *)
Theorem heading_formula (target reference : Z * Z) :
  pixel_coordinate (fst target) -> pixel_coordinate (snd target) ->
  pixel_coordinate (fst reference) -> pixel_coordinate (snd reference) ->
  let dx := IZR (fst target) - IZR (fst reference) in
  let dy := IZR (snd target) - IZR (snd reference) in
  let heading := value (model_to_heading target reference) in
  (target <> reference -> heading = - spec_atan2 dx (- dy) * 180 / PI) /\
  (dx = 0 -> dy < 0 -> heading = 0) /\
  (dx < 0 -> dy < 0 -> 0 < heading) /\
  (0 < dx -> dy < 0 -> heading < 0) /\
  (dy = 0 -> dx < 0 -> heading = 90) /\
  (dy = 0 -> 0 < dx -> heading = -90) /\
  (dx = 0 -> dy = 0 -> heading = -180).
Proof.
  intros _ _ _ _.
  destruct target as [a c], reference as [b d]; cbn [fst snd]; cbv zeta.
  assert (HPI := PI_RGT_0).
  split; [apply heading_distinct |].
  split; [| split; [| split; [| split; [| split]]]].
  - intros Hdx Hdy. rewrite heading_distinct by (apply points_distinct; lra).
    rewrite spec_atan2_pos_x by lra. rewrite Hdx.
    unfold Rdiv at 2. rewrite Rmult_0_l, atan_0. field. lra.
  - intros Hdx Hdy. rewrite heading_distinct by (apply points_distinct; lra).
    rewrite spec_atan2_pos_x by lra.
    assert (Hq : (IZR a - IZR b) / - (IZR c - IZR d) < 0).
    { assert (Hinv : 0 < / - (IZR c - IZR d)) by (apply Rinv_0_lt_compat; lra).
      unfold Rdiv. nra. }
    assert (Hat := atan_neg _ Hq).
    apply degrees_pos. lra.
  - intros Hdx Hdy. rewrite heading_distinct by (apply points_distinct; lra).
    rewrite spec_atan2_pos_x by lra.
    assert (Hq : 0 < (IZR a - IZR b) / - (IZR c - IZR d)).
    { unfold Rdiv. apply Rmult_lt_0_compat; [lra | apply Rinv_0_lt_compat; lra]. }
    assert (Hat := atan_pos _ Hq).
    apply Ropp_lt_cancel. rewrite Ropp_0.
    replace (- (- atan ((IZR a - IZR b) / - (IZR c - IZR d)) * 180 / PI))
      with (atan ((IZR a - IZR b) / - (IZR c - IZR d)) * 180 / PI) by (field; lra).
    apply degrees_pos. exact Hat.
  - intros Hdy Hdx. rewrite heading_distinct by (apply points_distinct; lra).
    rewrite Hdy, Ropp_0, spec_atan2_zero_x, is_neg_true by lra. field. lra.
  - intros Hdy Hdx. rewrite heading_distinct by (apply points_distinct; lra).
    rewrite Hdy, Ropp_0, spec_atan2_zero_x, is_neg_false by lra. field. lra.
  - intros Hdx Hdy.
    assert (a = b) by (apply eq_IZR; lra). assert (c = d) by (apply eq_IZR; lra).
    subst b d. apply heading_coincident.
Qed.

Lemma small_is_pixel (z : Z) : (Z.abs z <= 1000)%Z -> pixel_coordinate z.
Proof.
  intros Hz. unfold pixel_coordinate.
  assert ((1000 <= 2 ^ 52)%Z) by (vm_compute; discriminate). lia.
Qed.

(** The theorem at concrete points around the reference (3, 5). *)
Lemma heading_formula_witness :
  value (model_to_heading (3, 2)%Z (3, 5)%Z) = 0 /\
  0 < value (model_to_heading (1, 2)%Z (3, 5)%Z) /\
  value (model_to_heading (4, 2)%Z (3, 5)%Z) < 0 /\
  value (model_to_heading (1, 5)%Z (3, 5)%Z) = 90 /\
  value (model_to_heading (4, 5)%Z (3, 5)%Z) = -90 /\
  value (model_to_heading (3, 5)%Z (3, 5)%Z) = -180.
Proof.
  split; [| split; [| split; [| split; [| split]]]].
  - destruct (heading_formula (3, 2)%Z (3, 5)%Z) as (_ & H & _);
      try (apply small_is_pixel; cbn; lia).
    apply H; cbn [fst snd]; lra.
  - destruct (heading_formula (1, 2)%Z (3, 5)%Z) as (_ & _ & H & _);
      try (apply small_is_pixel; cbn; lia).
    apply H; cbn [fst snd]; lra.
  - destruct (heading_formula (4, 2)%Z (3, 5)%Z) as (_ & _ & _ & H & _);
      try (apply small_is_pixel; cbn; lia).
    apply H; cbn [fst snd]; lra.
  - destruct (heading_formula (1, 5)%Z (3, 5)%Z) as (_ & _ & _ & _ & H & _);
      try (apply small_is_pixel; cbn; lia).
    apply H; cbn [fst snd]; lra.
  - destruct (heading_formula (4, 5)%Z (3, 5)%Z) as (_ & _ & _ & _ & _ & H & _);
      try (apply small_is_pixel; cbn; lia).
    apply H; cbn [fst snd]; lra.
  - destruct (heading_formula (3, 5)%Z (3, 5)%Z) as (_ & _ & _ & _ & _ & _ & H);
      try (apply small_is_pixel; cbn; lia).
    apply H; cbn [fst snd]; lra.
Defined.

(** C1 as stated fails at coincident points: the specification's formula
    gives 0 there, the code gives -180. *)
Lemma heading_coincident_not_zero :
  spec_heading (0, 0)%Z (0, 0)%Z = 0 /\
  value (model_to_heading (0, 0)%Z (0, 0)%Z) = -180 /\
  value (model_to_heading (0, 0)%Z (0, 0)%Z) <> spec_heading (0, 0)%Z (0, 0)%Z.
Proof.
  assert (Hs : spec_heading (0, 0)%Z (0, 0)%Z = 0).
  { unfold spec_heading, spec_atan2; cbn [fst snd].
    rewrite Rminus_diag, Ropp_0, (is_zero_true 0) by reflexivity.
    assert (HPI := PI_neq0). field. exact HPI. }
  split; [exact Hs |]. split; [apply heading_coincident |].
  rewrite Hs, heading_coincident. lra.
Qed.

Lemma float_zero_difference (a b : float) :
  mag a = 0 -> mag b = 0 ->
  fsub (fmul fone a) b = {| sign := sign a && negb (sign b); mag := 0 |}.
Proof.
  intros Ha Hb. unfold fsub.
  assert (Hv : value (fmul fone a) - value b = 0).
  { unfold value, fmul, fone; cbn [sign mag xorb]. rewrite Ha, Hb.
    destruct (sign a), (sign b); ring. }
  rewrite Hv, (is_zero_true 0) by reflexivity. reflexivity.
Qed.

(** Why the points are integer points: on Python ints the function is the
    function on their float values, and a float coordinate can be the
    negative zero, with which coincident points ([dx = dy = 0]) get the
    heading 0 or +180 instead of -180. *)
Lemma coincident_float_points :
  let pz := {| sign := false; mag := 0 |} in
  let nz := {| sign := true; mag := 0 |} in
  (forall p q : Z * Z,
     model_to_heading p q
     = model_to_heading_floats (of_int (fst p), of_int (snd p))
                               (of_int (fst q), of_int (snd q))) /\
  value (model_to_heading_floats (pz, pz) (pz, pz)) = -180 /\
  value (model_to_heading_floats (pz, nz) (pz, pz)) = 0 /\
  value (model_to_heading_floats (nz, pz) (pz, pz)) = 180.
Proof.
  cbv zeta. assert (HPI := PI_neq0).
  split; [reflexivity |].
  unfold model_to_heading_floats; cbn [fst snd].
  rewrite !value_degrees, !float_zero_difference by reflexivity.
  unfold arctan2, fopp, value; cbn [sign mag negb andb].
  rewrite (is_zero_true 0) by reflexivity.
  repeat split; field; exact HPI.
Qed.

End HeadingFacts.

Module DetectFacts.

Import Sampling Heading SamplingFacts HeadingFacts.

(** On a mask of shape [(h, w)], [detect] samples row [3 h / 5] from column
    [w / 2] and measures the heading from the car centre [(w / 2, h)]. *)
Lemma detect_2d (mask : ndarray) (h w : nat) :
  shape mask = [h; w] ->
  exists cx : Z,
    find_center mask (Z.of_nat w / 2) (3 * Z.of_nat h / 5)
      = Ok (cx, (3 * Z.of_nat h / 5)%Z) /\
    detect mask
      = Ok [("heading",
             model_to_heading (cx, (3 * Z.of_nat h / 5)%Z)
                              ((Z.of_nat w / 2)%Z, Z.of_nat h))].
Proof.
  intros Hs.
  destruct (find_center_row mask h w (Z.of_nat w / 2) (3 * Z.of_nat h / 5) Hs)
    as [cx Hcx].
  exists cx. split; [exact Hcx |].
  unfold detect. rewrite Hs. cbn [unpack2 bind].
  rewrite int_of_half, int_of_six_tenths by lia.
  rewrite Hcx. reflexivity.
Qed.

(** C9: on a mask of shape [(h, w)] with [h > 0] and [w > 0], [detect]
    returns a heading strictly between -90 and 90 degrees: the sampled row
    [int(h * .6)] is above the car-centre row [h]. *)
Theorem heading_within_quarter_turn (mask : ndarray) (h w : nat) :
  shape mask = [h; w] -> (0 < h)%nat -> (0 < w)%nat ->
  (int_of (inject_Z (Z.of_nat h) * (6 # 10)) < Z.of_nat h)%Z /\
  exists hd : float,
    detect mask = Ok [("heading", hd)] /\ (-90 < value hd < 90)%R.
Proof.
  intros Hs Hh Hw.
  assert (Hrow : (3 * Z.of_nat h / 5 < Z.of_nat h)%Z).
  { apply Z.div_lt_upper_bound; lia. }
  split; [rewrite int_of_six_tenths by lia; exact Hrow |].
  destruct (detect_2d mask h w Hs) as (cx & _ & Hd).
  eexists. split; [exact Hd |].
  rewrite heading_distinct.
  - apply degrees_quarter.
    assert (Hdy : (IZR (3 * Z.of_nat h / 5) - IZR (Z.of_nat h) < 0)%R).
    { apply Rlt_minus, IZR_lt, Hrow. }
    rewrite spec_atan2_pos_x by lra.
    pose proof (atan_bound ((IZR cx - IZR (Z.of_nat w / 2))
                            / - (IZR (3 * Z.of_nat h / 5) - IZR (Z.of_nat h)))) as Hb.
    lra.
  - intros E. apply (f_equal snd) in E. cbn [snd] in E. lia.
Qed.

(** The theorem at the example mask. *)
Lemma heading_within_quarter_turn_witness :
  exists hd : float,
    detect example_mask = Ok [("heading", hd)] /\ (-90 < value hd < 90)%R.
Proof.
  destruct (heading_within_quarter_turn example_mask 100 100 eq_refl) as [_ H].
  - lia.
  - lia.
  - exact H.
Defined.

(** C8: when the mask's shape does not have exactly two axes, [detect]
    raises the [ValueError] of the shape unpacking on its first line; no
    dictionary is returned and [find_center] is not reached (a failure
    inside the sampling would be a [RuntimeError]). *)
Theorem detect_rejects_wrong_rank (mask : ndarray) :
  length (shape mask) <> 2%nat -> detect mask = Raise ValueError.
Proof.
  intros Hrank. unfold detect.
  destruct (shape mask) as [| h [| w [| d rest]]]; cbn [unpack2 bind];
    try reflexivity.
  exfalso. apply Hrank. reflexivity.
Qed.

(** The theorem at a 2 x 2 x 3 colour image and at a 1-D array. *)
Lemma detect_rejects_wrong_rank_witness :
  detect {| shape := [2; 2; 3]%nat; item := fun _ => 0%Z |} = Raise ValueError /\
  detect {| shape := [7]%nat; item := fun _ => 1%Z |} = Raise ValueError.
Proof.
  split; apply detect_rejects_wrong_rank; cbn [shape length]; lia.
Defined.

(** ** The end-to-end example *)

Lemma example_locals :
  exists l : locals,
    find_center_locals example_mask 50 60 = Ok l /\
    (sample_width l = 50%Z /\ length (l_val l) = 40%nat /\ length (r_val l) = 40%nat) /\
    nonzero (l_val l) = [] /\ nonzero (r_val l) = [] /\
    contact_l l = of_ints (-50, 60)%Z /\
    contact_r l = of_ints (80, 60)%Z.
Proof.
  eexists. split; [vm_compute; reflexivity |].
  repeat split; vm_compute; reflexivity.
Qed.

Lemma example_center : find_center example_mask 50 60 = Ok (15%Z, 60%Z).
Proof. vm_compute. reflexivity. Qed.

Lemma example_detect :
  detect example_mask
  = Ok [("heading", model_to_heading (15, 60)%Z (50, 100)%Z)].
Proof.
  destruct (detect_2d example_mask 100 100 eq_refl) as (cx & Hc & Hd).
  change (Z.of_nat 100 / 2)%Z with 50%Z in *.
  change (3 * Z.of_nat 100 / 5)%Z with 60%Z in *.
  change (Z.of_nat 100) with 100%Z in *.
  rewrite example_center in Hc. injection Hc as Hc. subst cx. exact Hd.
Qed.

Lemma example_heading :
  (value (model_to_heading (15, 60)%Z (50, 100)%Z) = atan (35 / 40) * 180 / PI /\
   30 < value (model_to_heading (15, 60)%Z (50, 100)%Z) < 45)%R.
Proof.
  assert (HPI := PI_RGT_0).
  assert (Hv : (value (model_to_heading (15, 60)%Z (50, 100)%Z)
                = atan (35 / 40) * 180 / PI)%R).
  { rewrite heading_distinct by discriminate.
    rewrite spec_atan2_pos_x by lra.
    replace ((15 - 50) / - (60 - 100))%R with (- (35 / 40))%R by field.
    rewrite atan_opp. field. lra. }
  split; [exact Hv |]. rewrite Hv.
  assert (Hlo : (PI / 6 < atan (35 / 40))%R).
  { rewrite <- (atan_tan (PI / 6)) at 1.
    - apply atan_increasing. rewrite tan_PI6.
      assert (H3 := sqrt_sqrt 3). assert (Hs := Rlt_sqrt3_0).
      apply (Rmult_lt_reg_r (sqrt 3)); [exact Hs |].
      replace (1 / sqrt 3 * sqrt 3)%R with 1%R by (field; lra).
      nra.
    - split; [| apply PI6_RLT_PI2]. assert (H6 := PI6_RGT_0). lra. }
  assert (Hhi : (atan (35 / 40) < PI / 4)%R).
  { rewrite <- atan_1. apply atan_increasing. lra. }
  split.
  - apply (Rmult_lt_reg_r PI); [exact HPI |].
    replace (atan (35 / 40) * 180 / PI * PI)%R with (atan (35 / 40) * 180)%R
      by (field; lra).
    lra.
  - apply (Rmult_lt_reg_r PI); [exact HPI |].
    replace (atan (35 / 40) * 180 / PI * PI)%R with (atan (35 / 40) * 180)%R
      by (field; lra).
    lra.
Qed.

(** C2 (as the code has it): on the 100 x 100 mask lit at (30,60) and
    (70,60) only, [detect] uses [x0 = 50] and [y0 = 60]; none of the 40
    samples of either scan reads a lit pixel, so the left contact is the
    fallback (-50,60), the right contact the fallback (80,60), the road
    centre (15,60), and the heading [atan(35/40)] in degrees, between 30
    and 45. *)
Theorem example_mask_result :
  int_of (inject_Z 100 / 2) = 50%Z /\
  int_of (inject_Z 100 * (6 # 10)) = 60%Z /\
  (exists l : locals,
     find_center_locals example_mask 50 60 = Ok l /\
     (sample_width l = 50%Z /\ length (l_val l) = 40%nat /\ length (r_val l) = 40%nat) /\
     nonzero (l_val l) = [] /\ nonzero (r_val l) = [] /\
     contact_l l = of_ints (-50, 60)%Z /\
     contact_r l = of_ints (80, 60)%Z) /\
  find_center example_mask 50 60 = Ok (15%Z, 60%Z) /\
  exists hd : float,
    detect example_mask = Ok [("heading", hd)] /\
    (value hd = atan (35 / 40) * 180 / PI /\ 30 < value hd < 45)%R.
Proof.
  split; [reflexivity |]. split; [reflexivity |].
  split; [exact example_locals |]. split; [exact example_center |].
  eexists. split; [exact example_detect | exact example_heading].
Qed.

(** C2 as stated fails: the contacts are not (30,60) and (70,60), the road
    centre is not (50,60), and the heading is above 30 degrees. *)
Lemma example_mask_not_as_expected :
  exists (l : locals) (c : Z * Z) (hd : float),
    find_center_locals example_mask 50 60 = Ok l /\
    find_center example_mask 50 60 = Ok c /\
    detect example_mask = Ok [("heading", hd)] /\
    ~ (fst (contact_l l) == 30)%Q /\
    ~ (fst (contact_r l) == 70)%Q /\
    c <> (50, 60)%Z /\
    (30 < value hd)%R.
Proof.
  destruct example_locals as (l & Hl & _ & _ & _ & Hcl & Hcr).
  exists l, (15, 60)%Z, (model_to_heading (15, 60)%Z (50, 100)%Z).
  split; [exact Hl |]. split; [exact example_center |].
  split; [exact example_detect |].
  split; [rewrite Hcl; intros H; vm_compute in H; discriminate H |].
  split; [rewrite Hcr; intros H; vm_compute in H; discriminate H |].
  split; [discriminate | apply example_heading].
Qed.

End DetectFacts.

(** * Further properties of the path detector *)

Module PathFacts.

Import Sampling Heading SamplingFacts HeadingFacts DetectFacts.
Local Open Scope Q_scope.

(** ** The two scans, sample by sample *)

(** What [find_center] has in its locals on a 2-D mask: 40 samples per side,
    all on the row [y], going left (right) from [x] in steps of
    [sample_width / 39], and the contacts chosen from them. *)
Lemma locals_inv (mask : ndarray) (h w : nat) (x y : Z) (l : locals) :
  shape mask = [h; w] ->
  find_center_locals mask x y = Ok l ->
  (sample_width l = (Z.of_nat w / 2)%Z /\
   length (l_val l) = 40%nat /\ length (r_val l) = 40%nat) /\
  (forall i : nat, (i < 40)%nat ->
     nth i (l_val l) 0%Z
       = sample_at mask (Z.of_nat h) (Z.of_nat w) (nth i (yl l) 0) (nth i (xl l) 0) /\
     nth i (yl l) 0 == inject_Z y /\
     nth i (xl l) 0
       == inject_Z x - inject_Z (Z.of_nat i) / 39 * inject_Z (sample_width l)) /\
  (forall i : nat, (i < 40)%nat ->
     nth i (r_val l) 0%Z
       = sample_at mask (Z.of_nat h) (Z.of_nat w) (nth i (yr l) 0) (nth i (xr l) 0) /\
     nth i (yr l) 0 == inject_Z y /\
     nth i (xr l) 0
       == inject_Z x + inject_Z (Z.of_nat i) / 39 * inject_Z (sample_width l)) /\
  contact_l l = match nonzero (l_val l) with
                | [] => (inject_Z (x - 100), inject_Z y)
                | i :: _ => (nth i (xl l) 0, nth i (yl l) 0)
                end /\
  contact_r l = match nonzero (r_val l) with
                | [] => (inject_Z (x + 30), inject_Z y)
                | i :: _ => (nth i (xr l) 0, nth i (yr l) 0)
                end /\
  center l = midpoint (contact_l l) (contact_r l).
Proof.
  intros Hs Hl.
  destruct (find_center_locals_2d mask h w x y Hs)
    as (l' & Hl' & Hsw & _ & _ & _ & (Hxl & Hyl & Hlv) & (Hxr & Hyr & Hrv)
        & Hcl & Hcr & Hce).
  rewrite Hl in Hl'. injection Hl' as Hl'. subst l'.
  destruct (locals_lengths mask (Z.of_nat h) (Z.of_nat w) _ _ _ _ _ _ Hxl Hyl)
    as (Hll & Hlxl & Hlenl).
  destruct (locals_lengths mask (Z.of_nat h) (Z.of_nat w) _ _ _ _ _ _ Hxr Hyr)
    as (Hlr & Hlxr & Hlenr).
  split; [| split; [| split; [| split; [| split]]]].
  - rewrite Hsw, int_of_half by lia.
    split; [reflexivity |]. rewrite Hlv, Hrv. split; assumption.
  - intros i Hi. split; [| split].
    + rewrite Hlv at 1. apply sampled_nth; [exact Hll | lia].
    + rewrite Hyl. apply linspace_const. exact Hi.
    + rewrite Hxl, linspace_nth_param by lia.
      change (inject_Z (Z.of_nat (40 - 1))) with 39.
      unfold Z.sub. rewrite inject_Z_plus, inject_Z_opp. field.
  - intros i Hi. split; [| split].
    + rewrite Hrv at 1. apply sampled_nth; [exact Hlr | lia].
    + rewrite Hyr. apply linspace_const. exact Hi.
    + rewrite Hxr, linspace_nth_param by lia.
      change (inject_Z (Z.of_nat (40 - 1))) with 39.
      rewrite inject_Z_plus. field.
  - rewrite Hcl. destruct (nonzero (l_val l)); [| reflexivity].
    unfold of_ints; cbn [fst snd]. rewrite Z.add_0_r. reflexivity.
  - rewrite Hcr. destruct (nonzero (r_val l)); [| reflexivity].
    unfold of_ints; cbn [fst snd]. rewrite Z.add_0_r. reflexivity.
  - exact Hce.
Qed.

Lemma sample_width_nonneg (w : nat) : 0 <= inject_Z (Z.of_nat w / 2).
Proof.
  change 0 with (inject_Z 0). rewrite <- Zle_Qle. apply Z.div_pos; lia.
Qed.

Lemma index_fraction (i : nat) :
  (i < 40)%nat -> 0 <= inject_Z (Z.of_nat i) / 39 <= 1.
Proof.
  intros Hi. change 39 with (inject_Z (Z.of_nat (40 - 1))).
  apply param_in_unit; lia.
Qed.

Lemma index_fraction_mono (i k : nat) :
  (i <= k)%nat -> inject_Z (Z.of_nat i) / 39 <= inject_Z (Z.of_nat k) / 39.
Proof.
  intros Hik. unfold Qdiv. apply Qmult_le_compat_r; [| discriminate].
  rewrite <- Zle_Qle. lia.
Qed.

Lemma nonzero_cons_of_sample (vals : list Z) (k : nat) :
  (k < length vals)%nat -> nth k vals 0%Z <> 0%Z ->
  exists (i : nat) (rest : list nat),
    nonzero vals = i :: rest /\ (i <= k)%nat /\ nth i vals 0%Z <> 0%Z.
Proof.
  intros Hk Hnz. destruct (nonzero vals) as [| i rest] eqn:E.
  - exfalso. apply Hnz. apply (proj1 (nonzero_nil vals) E). apply nth_In, Hk.
  - exists i, rest. split; [reflexivity |].
    destruct (nonzero_head i vals rest E) as (_ & Hi & Hbefore).
    split; [| exact Hi].
    destruct (Nat.le_gt_cases i k) as [Hle | Hgt]; [exact Hle |].
    exfalso. apply Hnz, Hbefore, Hgt.
Qed.

(** X1: whenever some sample of a scan is non-zero, the contact of that side
    is a non-zero sample of the scan, and no non-zero sample of the scan lies
    nearer to the reference column [x] than the contact. *)
Theorem contact_is_nearest_nonzero (mask : ndarray) (h w : nat) (x y : Z) (l : locals) :
  shape mask = [h; w] ->
  find_center_locals mask x y = Ok l ->
  (forall k : nat, (k < 40)%nat -> nth k (l_val l) 0%Z <> 0%Z ->
     (exists i : nat, (i <= k)%nat /\ nth i (l_val l) 0%Z <> 0%Z /\
        contact_l l = (nth i (xl l) 0, nth i (yl l) 0)) /\
     nth k (xl l) 0 <= fst (contact_l l) <= inject_Z x) /\
  (forall k : nat, (k < 40)%nat -> nth k (r_val l) 0%Z <> 0%Z ->
     (exists i : nat, (i <= k)%nat /\ nth i (r_val l) 0%Z <> 0%Z /\
        contact_r l = (nth i (xr l) 0, nth i (yr l) 0)) /\
     inject_Z x <= fst (contact_r l) <= nth k (xr l) 0).
Proof.
  intros Hs Hl.
  destruct (locals_inv mask h w x y l Hs Hl)
    as ((Hsw & Hlenl & Hlenr) & Hleft & Hright & Hcl & Hcr & _).
  assert (Hw := sample_width_nonneg w). rewrite <- Hsw in Hw.
  split; intros k Hk Hnz.
  - destruct (nonzero_cons_of_sample (l_val l) k) as (i & rest & E & Hik & Hi);
      [lia | exact Hnz |].
    rewrite E in Hcl. split; [exists i; auto |].
    rewrite Hcl; cbn [fst].
    destruct (Hleft i) as (_ & _ & Hxi); [lia |].
    destruct (Hleft k) as (_ & _ & Hxk); [lia |].
    rewrite Hxi, Hxk.
    assert (Hf := index_fraction i ltac:(lia)).
    assert (Hm := Qmult_le_compat_r _ _ _ (index_fraction_mono i k Hik) Hw).
    assert (H0 := Qmult_le_0_compat _ _ (proj1 Hf) Hw).
    lra.
  - destruct (nonzero_cons_of_sample (r_val l) k) as (i & rest & E & Hik & Hi);
      [lia | exact Hnz |].
    rewrite E in Hcr. split; [exists i; auto |].
    rewrite Hcr; cbn [fst].
    destruct (Hright i) as (_ & _ & Hxi); [lia |].
    destruct (Hright k) as (_ & _ & Hxk); [lia |].
    rewrite Hxi, Hxk.
    assert (Hf := index_fraction i ltac:(lia)).
    assert (Hm := Qmult_le_compat_r _ _ _ (index_fraction_mono i k Hik) Hw).
    assert (H0 := Qmult_le_0_compat _ _ (proj1 Hf) Hw).
    lra.
Qed.

(** The theorem on a mask lit at columns 31 and 40 of row 60: the left
    contact is a sample at or right of sample 15, which reads column 31. *)
Lemma contact_is_nearest_nonzero_witness :
  exists l : locals,
    find_center_locals (mask_of 100 100 [(31, 60); (40, 60)]%Z) 50 60 = Ok l /\
    nth 15 (xl l) 0 <= fst (contact_l l) <= inject_Z 50.
Proof.
  destruct (find_center_locals_2d (mask_of 100 100 [(31, 60); (40, 60)]%Z)
              100 100 50 60 eq_refl) as (l & Hl & _).
  exists l. split; [exact Hl |].
  destruct (contact_is_nearest_nonzero (mask_of 100 100 [(31, 60); (40, 60)]%Z)
              100 100 50 60 l eq_refl Hl) as [HL _].
  apply (HL 15%nat); [lia |].
  pose proof Hl as Hc. vm_compute in Hc. injection Hc as Hc. subst l.
  vm_compute. discriminate.
Defined.

(** X2: for a reference point and an image width of ordinary size (at most
    [2^20], far from the wrap-around of the int64 arrays), the left contact
    is never right of the reference column and the right contact never left
    of it; the left contact is at most [max(100, sample_width)] columns
    away, the right one at most [max(30, sample_width)], and the midpoint
    lies between the two. *)
Theorem contacts_straddle_reference (mask : ndarray) (h w : nat) (x y : Z) (l : locals) :
  shape mask = [h; w] ->
  frame_coordinate x -> frame_coordinate y -> frame_coordinate (Z.of_nat w) ->
  find_center_locals mask x y = Ok l ->
  inject_Z x - inject_Z (Z.max 100 (sample_width l)) <= fst (contact_l l)
    /\ fst (contact_l l) <= inject_Z x
    /\ inject_Z x <= fst (contact_r l)
    /\ fst (contact_r l) <= inject_Z x + inject_Z (Z.max 30 (sample_width l))
    /\ fst (contact_l l) <= fst (center l) <= fst (contact_r l).
Proof.
  intros Hs _ _ _ Hl.
  destruct (locals_inv mask h w x y l Hs Hl)
    as ((Hsw & Hlenl & Hlenr) & Hleft & Hright & Hcl & Hcr & Hce).
  assert (Hw := sample_width_nonneg w). rewrite <- Hsw in Hw.
  assert (Hm1 : 100 <= inject_Z (Z.max 100 (sample_width l))).
  { change 100 with (inject_Z 100). rewrite <- Zle_Qle. apply Z.le_max_l. }
  assert (Hm2 : inject_Z (sample_width l) <= inject_Z (Z.max 100 (sample_width l))).
  { rewrite <- Zle_Qle. apply Z.le_max_r. }
  assert (Hm3 : 30 <= inject_Z (Z.max 30 (sample_width l))).
  { change 30 with (inject_Z 30). rewrite <- Zle_Qle. apply Z.le_max_l. }
  assert (Hm4 : inject_Z (sample_width l) <= inject_Z (Z.max 30 (sample_width l))).
  { rewrite <- Zle_Qle. apply Z.le_max_r. }
  assert (HL : inject_Z x - inject_Z (Z.max 100 (sample_width l)) <= fst (contact_l l)
               /\ fst (contact_l l) <= inject_Z x).
  { rewrite Hcl. destruct (nonzero (l_val l)) as [| i rest] eqn:E; cbn [fst].
    - unfold Z.sub. rewrite inject_Z_plus.
      change (inject_Z (- (100))) with (- (100)). lra.
    - apply nonzero_head in E. destruct E as (Hi & _).
      destruct (Hleft i) as (_ & _ & Hxi); [lia |]. rewrite Hxi.
      assert (Hf := index_fraction i ltac:(lia)).
      assert (H0 := Qmult_le_0_compat _ _ (proj1 Hf) Hw).
      assert (H1 := Qmult_le_compat_r _ _ _ (proj2 Hf) Hw).
      lra. }
  assert (HR : inject_Z x <= fst (contact_r l)
               /\ fst (contact_r l) <= inject_Z x + inject_Z (Z.max 30 (sample_width l))).
  { rewrite Hcr. destruct (nonzero (r_val l)) as [| i rest] eqn:E; cbn [fst].
    - rewrite inject_Z_plus. change (inject_Z 30) with 30. lra.
    - apply nonzero_head in E. destruct E as (Hi & _).
      destruct (Hright i) as (_ & _ & Hxi); [lia |]. rewrite Hxi.
      assert (Hf := index_fraction i ltac:(lia)).
      assert (H0 := Qmult_le_0_compat _ _ (proj1 Hf) Hw).
      assert (H1 := Qmult_le_compat_r _ _ _ (proj2 Hf) Hw).
      lra. }
  destruct HL as [HL1 HL2]. destruct HR as [HR1 HR2].
  repeat (split; [assumption |]).
  rewrite Hce. unfold midpoint; cbn [fst].
  split.
  - apply Qle_shift_div_l; [reflexivity | lra].
  - apply Qle_shift_div_r; [reflexivity | lra].
Qed.

(** The theorem at the example mask. *)
Lemma contacts_straddle_reference_witness :
  exists l : locals,
    find_center_locals example_mask 50 60 = Ok l /\
    fst (contact_l l) <= inject_Z 50 <= fst (contact_r l).
Proof.
  destruct (find_center_locals_2d example_mask 100 100 50 60 eq_refl) as (l & Hl & _).
  exists l. split; [exact Hl |].
  destruct (contacts_straddle_reference example_mask 100 100 50 60 l eq_refl)
    as (_ & H1 & H2 & _).
  - unfold frame_coordinate. cbn. lia.
  - unfold frame_coordinate. cbn. lia.
  - unfold frame_coordinate. cbn. lia.
  - exact Hl.
  - split; assumption.
Defined.

Lemma half_sum (a b c : Z) :
  (a + b = 2 * c)%Z -> (inject_Z a + inject_Z b) / 2 == inject_Z c.
Proof.
  intros H. rewrite <- inject_Z_plus, H, inject_Z_mult.
  change (inject_Z 2) with 2. field.
Qed.

Lemma find_center_blank (mask : ndarray) (h w : nat) (x y : Z) (l : locals) :
  shape mask = [h; w] ->
  find_center_locals mask x y = Ok l ->
  (forall v, In v (l_val l) -> v = 0%Z) ->
  (forall v, In v (r_val l) -> v = 0%Z) ->
  find_center mask x y = Ok ((x - 35)%Z, y).
Proof.
  intros Hs Hl HzL HzR.
  destruct (locals_inv mask h w x y l Hs Hl) as (_ & _ & _ & Hcl & Hcr & _).
  apply nonzero_nil in HzL, HzR. rewrite HzL in Hcl. rewrite HzR in Hcr.
  rewrite (find_center_is_road_center mask h w x y l Hs Hl), Hcl, Hcr.
  unfold road_center, midpoint, to_pixel; cbn [fst snd].
  do 2 f_equal.
  - rewrite <- (int_of_inject_Z (x - 35)). apply int_of_comp, half_sum. lia.
  - rewrite <- (int_of_inject_Z y) at 3. apply int_of_comp, half_sum. lia.
Qed.

(** ** Reading the sampled row *)

Lemma sample_at_comp (mask : ndarray) (h w : Z) (r r' c c' : Q) :
  r == r' -> c == c' -> sample_at mask h w r c = sample_at mask h w r' c'.
Proof.
  intros Hr Hc. unfold sample_at, in_range.
  rewrite (nearest_comp _ _ Hr), (nearest_comp _ _ Hc).
  rewrite Hr, Hc. reflexivity.
Qed.

(** A sample taken on the row [y] is 0 or a cell of that row. *)
Lemma sample_on_row (mask : ndarray) (h w : nat) (y : Z) (r c : Q) :
  r == inject_Z y ->
  sample_at mask (Z.of_nat h) (Z.of_nat w) r c = 0%Z \/
  (in_bounds [y; nearest c] [h; w] /\
   sample_at mask (Z.of_nat h) (Z.of_nat w) r c = item mask [y; nearest c]).
Proof.
  intros Hr. rewrite (sample_at_comp mask _ _ r (inject_Z y) c c Hr (Qeq_refl c)).
  unfold sample_at.
  destruct (in_range (inject_Z y) (Z.of_nat h) && in_range c (Z.of_nat w)) eqn:E;
    [right | left; reflexivity].
  unfold in_range in E. rewrite !andb_true_iff, !Qle_bool_iff in E.
  destruct E as [Ey Ec]. rewrite nearest_inject_Z. split; [| reflexivity].
  constructor.
  - rewrite <- (nearest_inject_Z y). apply nearest_in_bounds. exact Ey.
  - constructor; [apply nearest_in_bounds; exact Ec | constructor].
Qed.

Lemma sample_at_cell (mask : ndarray) (h w : nat) (x y : Z) (r c : Q) :
  r == inject_Z y -> c == inject_Z x ->
  (0 <= y < Z.of_nat h)%Z -> (0 <= x < Z.of_nat w)%Z ->
  sample_at mask (Z.of_nat h) (Z.of_nat w) r c = item mask [y; x].
Proof.
  intros Hr Hc Hy Hx.
  rewrite (sample_at_comp mask _ _ r (inject_Z y) c (inject_Z x) Hr Hc).
  unfold sample_at, in_range.
  assert (E : forall (z len : Z), (0 <= z < len)%Z ->
            Qle_bool 0 (inject_Z z) && Qle_bool (inject_Z z) (inject_Z (len - 1)) = true).
  { intros z len Hz. apply andb_true_iff. rewrite !Qle_bool_iff.
    change 0 with (inject_Z 0). rewrite <- !Zle_Qle. lia. }
  rewrite (E y _ Hy), (E x _ Hx), !nearest_inject_Z. reflexivity.
Qed.

(** Every value of both scans is 0 or a cell of the row [y]. *)
Lemma scans_read_row (mask : ndarray) (h w : nat) (x y : Z) (l : locals) :
  shape mask = [h; w] ->
  find_center_locals mask x y = Ok l ->
  forall v : Z, In v (l_val l) \/ In v (r_val l) ->
    v = 0%Z \/ exists c : Z, in_bounds [y; c] [h; w] /\ v = item mask [y; c].
Proof.
  intros Hs Hl v Hin.
  destruct (locals_inv mask h w x y l Hs Hl)
    as ((_ & Hlenl & Hlenr) & Hleft & Hright & _).
  destruct Hin as [Hin | Hin]; apply (In_nth _ _ 0%Z) in Hin;
    destruct Hin as (i & Hi & Hv); subst v.
  - destruct (Hleft i) as (Hval & Hy & _); [lia |]. rewrite Hval.
    destruct (sample_on_row mask h w y _ (nth i (xl l) 0) Hy) as [H0 | [Hb Hitem]];
      [left; exact H0 | right; eexists; split; [exact Hb | exact Hitem]].
  - destruct (Hright i) as (Hval & Hy & _); [lia |]. rewrite Hval.
    destruct (sample_on_row mask h w y _ (nth i (xr l) 0) Hy) as [H0 | [Hb Hitem]];
      [left; exact H0 | right; eexists; split; [exact Hb | exact Hitem]].
Qed.

Lemma in_bounds_row (h w : nat) (y c : Z) :
  in_bounds [y; c] [h; w] -> (0 <= y < Z.of_nat h)%Z /\ (0 <= c < Z.of_nat w)%Z.
Proof.
  intros Hb. inversion Hb as [| ? ? ? ? Hy Hb1]; subst.
  inversion Hb1 as [| ? ? ? ? Hc _]; subst. split; assumption.
Qed.

(** ** A frame whose sampled row is blank *)

(** X4: on a mask of shape [(h, w)] with [h > 0] and [w > 0] whose row
    [3 h / 5] holds only zeros, [detect] steers left: the heading is
    [atan(35 / (h - 3 h / 5))] in degrees, strictly between 0 and 90,
    whatever the rest of the mask holds. *)
Theorem blank_row_heading (mask : ndarray) (h w : nat) :
  shape mask = [h; w] -> (0 < h)%nat -> (0 < w)%nat ->
  (forall c : Z, (0 <= c < Z.of_nat w)%Z ->
     item mask [(3 * Z.of_nat h / 5)%Z; c] = 0%Z) ->
  exists hd : float,
    detect mask = Ok [("heading", hd)] /\
    (value hd = atan (35 / (IZR (Z.of_nat h) - IZR (3 * Z.of_nat h / 5))) * 180 / PI
     /\ 0 < value hd < 90)%R.
Proof.
  intros Hs Hh _ Hrow.
  assert (Hy0 : (3 * Z.of_nat h / 5 < Z.of_nat h)%Z).
  { apply Z.div_lt_upper_bound; lia. }
  destruct (detect_2d mask h w Hs) as (cx & Hc & Hd).
  destruct (find_center_locals_2d mask h w (Z.of_nat w / 2) (3 * Z.of_nat h / 5) Hs)
    as (l & Hl & _).
  assert (Hzero : forall v, In v (l_val l) \/ In v (r_val l) -> v = 0%Z).
  { intros v Hin.
    destruct (scans_read_row mask h w _ _ l Hs Hl v Hin) as [H0 | (c & Hb & Hv)];
      [exact H0 |].
    rewrite Hv. apply Hrow. apply in_bounds_row in Hb. tauto. }
  rewrite (find_center_blank mask h w _ _ l Hs Hl) in Hc by (intros; apply Hzero; tauto).
  injection Hc as Hc. subst cx.
  eexists. split; [exact Hd |].
  assert (Hdy : (0 < IZR (Z.of_nat h) - IZR (3 * Z.of_nat h / 5))%R).
  { apply Rlt_0_minus, IZR_lt, Hy0. }
  assert (Hv : (value (model_to_heading ((Z.of_nat w / 2 - 35)%Z, (3 * Z.of_nat h / 5)%Z)
                                        ((Z.of_nat w / 2)%Z, Z.of_nat h))
                = atan (35 / (IZR (Z.of_nat h) - IZR (3 * Z.of_nat h / 5))) * 180 / PI)%R).
  { rewrite heading_distinct
      by (intros E; apply (f_equal snd) in E; cbn [snd] in E; lia).
    rewrite spec_atan2_pos_x by lra.
    rewrite minus_IZR.
    replace ((IZR (Z.of_nat w / 2) - 35 - IZR (Z.of_nat w / 2))
             / - (IZR (3 * Z.of_nat h / 5) - IZR (Z.of_nat h)))%R
      with (- (35 / (IZR (Z.of_nat h) - IZR (3 * Z.of_nat h / 5))))%R
      by (field; lra).
    rewrite atan_opp. assert (HPI := PI_neq0). field. exact HPI. }
  split; [exact Hv |]. rewrite Hv.
  assert (Hq : (0 < 35 / (IZR (Z.of_nat h) - IZR (3 * Z.of_nat h / 5)))%R).
  { apply Rdiv_lt_0_compat; lra. }
  assert (Hat := atan_pos _ Hq).
  assert (Hb := atan_bound (35 / (IZR (Z.of_nat h) - IZR (3 * Z.of_nat h / 5)))).
  split; [apply degrees_pos; exact Hat |].
  assert (Hdeg := degrees_quarter
                    (- atan (35 / (IZR (Z.of_nat h) - IZR (3 * Z.of_nat h / 5))))).
  rewrite Ropp_involutive in Hdeg. apply Hdeg. lra.
Qed.

(** The theorem on a 100 x 100 frame lit only away from row 60. *)
Lemma blank_row_heading_witness :
  exists hd : float,
    detect (mask_of 100 100 [(10, 20); (50, 61)]%Z) = Ok [("heading", hd)] /\
    (0 < value hd < 90)%R.
Proof.
  destruct (blank_row_heading (mask_of 100 100 [(10, 20); (50, 61)]%Z) 100 100 eq_refl)
    as (hd & Hd & _ & Hr).
  - lia.
  - lia.
  - intros c _. change (3 * Z.of_nat 100 / 5)%Z with 60%Z.
    cbn [mask_of item existsb fst snd Z.eqb Pos.eqb andb orb].
    rewrite !andb_false_r. reflexivity.
  - exists hd. split; assumption.
Defined.

(** ** A lit reference pixel *)

Lemma find_center_lit (mask : ndarray) (h w : nat) (x y : Z) :
  shape mask = [h; w] ->
  (0 <= x < Z.of_nat w)%Z -> (0 <= y < Z.of_nat h)%Z ->
  item mask [y; x] <> 0%Z ->
  find_center mask x y = Ok (x, y).
Proof.
  intros Hs Hx Hy Hlit.
  destruct (find_center_locals_2d mask h w x y Hs) as (l & Hl & _).
  destruct (locals_inv mask h w x y l Hs Hl)
    as ((_ & Hlenl & Hlenr) & Hleft & Hright & Hcl & Hcr & _).
  destruct (Hleft 0%nat) as (HvL & HyL & HxL); [lia |].
  destruct (Hright 0%nat) as (HvR & HyR & HxR); [lia |].
  assert (HxL' : nth 0 (xl l) 0 == inject_Z x).
  { rewrite HxL. cbn [Z.of_nat]. unfold Qdiv. rewrite !Qmult_0_l. ring. }
  assert (HxR' : nth 0 (xr l) 0 == inject_Z x).
  { rewrite HxR. cbn [Z.of_nat]. unfold Qdiv. rewrite !Qmult_0_l. ring. }
  rewrite (sample_at_cell mask h w x y _ _ HyL HxL' Hy Hx) in HvL.
  rewrite (sample_at_cell mask h w x y _ _ HyR HxR' Hy Hx) in HvR.
  destruct (nonzero_first 0 (l_val l)) as [restL EL];
    [lia | rewrite HvL; exact Hlit | intros j Hj; lia |].
  destruct (nonzero_first 0 (r_val l)) as [restR ER];
    [lia | rewrite HvR; exact Hlit | intros j Hj; lia |].
  rewrite EL in Hcl. rewrite ER in Hcr.
  rewrite (find_center_is_road_center mask h w x y l Hs Hl), Hcl, Hcr.
  unfold road_center, midpoint, to_pixel; cbn [fst snd].
  do 2 f_equal.
  - transitivity (int_of (inject_Z x)); [| apply int_of_inject_Z].
    apply int_of_comp. rewrite HxL', HxR'. field.
  - transitivity (int_of (inject_Z y)); [| apply int_of_inject_Z].
    apply int_of_comp. rewrite HyL, HyR. field.
Qed.

(** X5: when the cell of the mask at the reference point [(x, y)] is
    non-zero, the first sample of both scans reads it, both contacts are the
    reference point, and [find_center] returns [(x, y)]. *)
Theorem lit_reference_is_center (mask : ndarray) (h w : nat) (x y : Z) :
  shape mask = [h; w] ->
  (0 <= x < Z.of_nat w)%Z -> (0 <= y < Z.of_nat h)%Z ->
  item mask [y; x] <> 0%Z ->
  find_center mask x y = Ok (x, y).
Proof. exact (find_center_lit mask h w x y). Qed.

(** The theorem on a 100 x 100 frame lit at (50, 60). *)
Lemma lit_reference_is_center_witness :
  find_center (mask_of 100 100 [(50, 60)]%Z) 50 60 = Ok (50%Z, 60%Z).
Proof.
  apply (lit_reference_is_center (mask_of 100 100 [(50, 60)]%Z) 100 100 50 60 eq_refl).
  - lia.
  - lia.
  - vm_compute. discriminate.
Defined.

(** X6: on a mask of shape [(h, w)] with [h > 0] and [w > 0] whose cell at
    column [w / 2] of row [3 h / 5] is non-zero, the heading returned by
    [detect] is 0. *)
Theorem lit_centre_heading_zero (mask : ndarray) (h w : nat) :
  shape mask = [h; w] -> (0 < h)%nat -> (0 < w)%nat ->
  item mask [(3 * Z.of_nat h / 5)%Z; (Z.of_nat w / 2)%Z] <> 0%Z ->
  exists hd : float,
    detect mask = Ok [("heading", hd)] /\ value hd = 0%R.
Proof.
  intros Hs Hh Hw Hlit.
  assert (Hy0 : (0 <= 3 * Z.of_nat h / 5 < Z.of_nat h)%Z).
  { split; [apply Z.div_pos; lia | apply Z.div_lt_upper_bound; lia]. }
  assert (Hx0 : (0 <= Z.of_nat w / 2 < Z.of_nat w)%Z).
  { split; [apply Z.div_pos; lia | apply Z.div_lt_upper_bound; lia]. }
  destruct (detect_2d mask h w Hs) as (cx & Hc & Hd).
  rewrite (find_center_lit mask h w _ _ Hs Hx0 Hy0 Hlit) in Hc.
  injection Hc as Hc. subst cx.
  eexists. split; [exact Hd |].
  rewrite heading_distinct
    by (intros E; apply (f_equal snd) in E; cbn [snd] in E; lia).
  assert (Hdy : (IZR (3 * Z.of_nat h / 5) - IZR (Z.of_nat h) < 0)%R).
  { apply Rlt_minus, IZR_lt. lia. }
  rewrite spec_atan2_pos_x by lra.
  rewrite Rminus_diag. unfold Rdiv at 2. rewrite Rmult_0_l, atan_0.
  assert (HPI := PI_neq0). field. exact HPI.
Qed.

(** The theorem on a 100 x 100 frame lit at (50, 60). *)
Lemma lit_centre_heading_zero_witness :
  exists hd : float,
    detect (mask_of 100 100 [(50, 60)]%Z) = Ok [("heading", hd)] /\ value hd = 0%R.
Proof.
  apply (lit_centre_heading_zero (mask_of 100 100 [(50, 60)]%Z) 100 100 eq_refl).
  - lia.
  - lia.
  - vm_compute. discriminate.
Defined.

(** ** Only the zero pattern of the sampled row matters *)

Lemma nonzero_from_map_ext (A : Type) (f g : A -> Z) (l : list A) (s : nat) :
  (forall x : A, In x l -> (f x = 0%Z <-> g x = 0%Z)) ->
  nonzero_from s (map f l) = nonzero_from s (map g l).
Proof.
  revert s. induction l as [| x rest IH]; intros s Hfg; cbn [map nonzero_from];
    [reflexivity |].
  assert (Hx := Hfg x (or_introl eq_refl)).
  assert (Hrest : forall x0 : A, In x0 rest -> (f x0 = 0%Z <-> g x0 = 0%Z)).
  { intros x0 Hin. apply Hfg. right. exact Hin. }
  destruct (Z.eqb_spec (f x) 0) as [Ef | Ef], (Z.eqb_spec (g x) 0) as [Eg | Eg].
  - apply IH, Hrest.
  - exfalso. apply Eg, Hx, Ef.
  - exfalso. apply Ef, Hx, Eg.
  - f_equal. apply IH, Hrest.
Qed.

Lemma In_linspace_const (c q : Q) (num : nat) :
  In q (linspace c c num) -> q == c.
Proof.
  intros Hin. apply (In_nth _ _ 0) in Hin. destruct Hin as (i & Hi & Hq).
  rewrite linspace_length in Hi. rewrite <- Hq. apply linspace_const, Hi.
Qed.

Lemma sample_pattern (a b : ndarray) (h w : nat) (y : Z) (r c : Q) :
  shape a = [h; w] -> same_row_pattern a b y -> r == inject_Z y ->
  sample_at a (Z.of_nat h) (Z.of_nat w) r c = 0%Z
  <-> sample_at b (Z.of_nat h) (Z.of_nat w) r c = 0%Z.
Proof.
  intros Hs [_ Hpat] Hr. rewrite Hs in Hpat.
  rewrite !(sample_at_comp _ _ _ r (inject_Z y) c c Hr (Qeq_refl c)).
  unfold sample_at.
  destruct (in_range (inject_Z y) (Z.of_nat h) && in_range c (Z.of_nat w)) eqn:E;
    [| tauto].
  unfold in_range in E. rewrite !andb_true_iff, !Qle_bool_iff in E.
  destruct E as [Ey Ec]. rewrite nearest_inject_Z. apply Hpat.
  constructor.
  - rewrite <- (nearest_inject_Z y). apply nearest_in_bounds. exact Ey.
  - constructor; [apply nearest_in_bounds; exact Ec | constructor].
Qed.

Lemma find_center_row_pattern (a b : ndarray) (h w : nat) (x y : Z) :
  shape a = [h; w] -> same_row_pattern a b y ->
  find_center a x y = find_center b x y.
Proof.
  intros Hsa Hsame. pose proof Hsame as [Hshape _].
  assert (Hsb : shape b = [h; w]) by (rewrite <- Hshape; exact Hsa).
  destruct (find_center_locals_2d a h w x y Hsa)
    as (la & Hla & Hswa & _ & _ & _ & (Hxla & Hyla & Hlva) & (Hxra & Hyra & Hrva)
        & Hcla & Hcra & Hcea).
  destruct (find_center_locals_2d b h w x y Hsb)
    as (lb & Hlb & Hswb & _ & _ & _ & (Hxlb & Hylb & Hlvb) & (Hxrb & Hyrb & Hrvb)
        & Hclb & Hcrb & Hceb).
  assert (Hsw : sample_width la = sample_width lb) by congruence.
  assert (Exl : xl la = xl lb) by congruence.
  assert (Eyl : yl la = yl lb) by congruence.
  assert (Exr : xr la = xr lb) by congruence.
  assert (Eyr : yr la = yr lb) by congruence.
  assert (EnzL : nonzero (l_val la) = nonzero (l_val lb)).
  { rewrite Hlva, Hlvb, <- Exl, <- Eyl. apply nonzero_from_map_ext.
    intros rc Hin. apply sample_pattern with (y := y); [exact Hsa | exact Hsame |].
    destruct rc as [r c]. apply in_combine_l in Hin. rewrite Hyla in Hin.
    apply In_linspace_const in Hin. exact Hin. }
  assert (EnzR : nonzero (r_val la) = nonzero (r_val lb)).
  { rewrite Hrva, Hrvb, <- Exr, <- Eyr. apply nonzero_from_map_ext.
    intros rc Hin. apply sample_pattern with (y := y); [exact Hsa | exact Hsame |].
    destruct rc as [r c]. apply in_combine_l in Hin. rewrite Hyra in Hin.
    apply In_linspace_const in Hin. exact Hin. }
  assert (Ecl : contact_l la = contact_l lb).
  { rewrite Hcla, Hclb, EnzL, Exl, Eyl. reflexivity. }
  assert (Ecr : contact_r la = contact_r lb).
  { rewrite Hcra, Hcrb, EnzR, Exr, Eyr. reflexivity. }
  unfold find_center. rewrite Hla, Hlb. cbn [bind].
  rewrite Hcea, Hceb, Ecl, Ecr. reflexivity.
Qed.

(** X7: the result of [detect] depends only on the shape of the mask and on
    which cells of the row [3 h / 5] are zero: two masks that agree on that
    give the same dictionary, whatever their other rows hold and whatever
    the non-zero values are. *)
Theorem detect_reads_one_row (a b : ndarray) (h w : nat) :
  shape a = [h; w] ->
  same_row_pattern a b (3 * Z.of_nat h / 5) ->
  detect a = detect b.
Proof.
  intros Hsa Hsame. pose proof Hsame as [Hshape _].
  unfold detect. rewrite <- Hshape, Hsa. cbn [unpack2 bind].
  rewrite int_of_six_tenths by lia.
  rewrite (find_center_row_pattern a b h w _ _ Hsa Hsame). reflexivity.
Qed.

(** The theorem on two 100 x 100 frames that differ off row 60. *)
Lemma detect_reads_one_row_witness :
  detect (mask_of 100 100 [(31, 60); (5, 7); (80, 59)]%Z)
  = detect (mask_of 100 100 [(31, 60)]%Z).
Proof.
  apply (detect_reads_one_row (mask_of 100 100 [(31, 60); (5, 7); (80, 59)]%Z)
           (mask_of 100 100 [(31, 60)]%Z) 100 100 eq_refl).
  split; [reflexivity |].
  intros c _. change (3 * Z.of_nat 100 / 5)%Z with 60%Z.
  cbn [mask_of item existsb fst snd Z.eqb Pos.eqb andb orb].
  rewrite !andb_false_r, !orb_false_r. reflexivity.
Defined.

End PathFacts.

(** * Further properties of the heading *)

Module HeadingMoreFacts.

Import Heading HeadingFacts.
Local Open Scope R_scope.

Lemma spec_atan2_neg_x (y x : R) :
  x < 0 ->
  spec_atan2 y x = if is_neg y then atan (y / x) - PI else atan (y / x) + PI.
Proof.
  intros Hx. unfold spec_atan2.
  rewrite (is_zero_false x), (is_neg_true x) by lra. reflexivity.
Qed.

(** Away from the negative x half-axis the two-argument arctangent is odd in
    its first argument. *)
Lemma spec_atan2_odd (y x : R) :
  y <> 0 \/ 0 < x -> spec_atan2 (- y) x = - spec_atan2 y x.
Proof.
  intros H.
  destruct (Rtotal_order x 0) as [Hx | [Hx | Hx]].
  - assert (Hy : y <> 0) by (destruct H; [assumption | lra]).
    rewrite !spec_atan2_neg_x by exact Hx.
    replace (- y / x) with (- (y / x)) by (field; lra). rewrite atan_opp.
    destruct (Rtotal_order y 0) as [Hy' | [Hy' | Hy']]; [| contradiction |].
    + rewrite (is_neg_true y), (is_neg_false (- y)) by lra. ring.
    + rewrite (is_neg_false y), (is_neg_true (- y)) by lra. ring.
  - subst x. assert (Hy : y <> 0) by (destruct H; [assumption | lra]).
    rewrite !spec_atan2_zero_x by lra.
    destruct (Rtotal_order y 0) as [Hy' | [Hy' | Hy']]; [| contradiction |].
    + rewrite (is_neg_true y), (is_neg_false (- y)) by lra. ring.
    + rewrite (is_neg_false y), (is_neg_true (- y)) by lra. reflexivity.
  - rewrite !spec_atan2_pos_x by exact Hx.
    replace (- y / x) with (- (y / x)) by (field; lra). apply atan_opp.
Qed.

Lemma spec_atan2_bounds (y x : R) : - PI < spec_atan2 y x <= PI.
Proof.
  assert (HPI := PI_RGT_0).
  destruct (Rtotal_order x 0) as [Hx | [Hx | Hx]].
  - rewrite spec_atan2_neg_x by exact Hx.
    assert (Hb := atan_bound (y / x)).
    destruct (Rlt_le_dec y 0) as [Hy | Hy].
    + rewrite (is_neg_true y) by exact Hy.
      assert (Hq : 0 < y / x).
      { assert (Hinv : / x < 0) by (apply Rinv_lt_0_compat; exact Hx).
        unfold Rdiv. nra. }
      assert (Hat := atan_pos _ Hq). lra.
    + rewrite (is_neg_false y) by exact Hy.
      assert (Hq : y / x <= 0).
      { assert (Hinv : / x < 0) by (apply Rinv_lt_0_compat; exact Hx).
        unfold Rdiv. nra. }
      assert (Hat : atan (y / x) <= 0).
      { destruct Hq as [Hq | Hq]; [left; apply atan_neg, Hq | rewrite Hq, atan_0; lra]. }
      lra.
  - subst x. unfold spec_atan2. rewrite (is_zero_true 0) by reflexivity.
    destruct (is_zero y); [lra |]. destruct (is_neg y); lra.
  - rewrite spec_atan2_pos_x by exact Hx.
    assert (Hb := atan_bound (y / x)). lra.
Qed.

Lemma degrees_scale (a b : R) : a < b -> - b * 180 / PI < - a * 180 / PI.
Proof.
  intros Hab. assert (HPI := PI_RGT_0).
  apply (Rmult_lt_reg_r PI); [exact HPI |].
  replace (- b * 180 / PI * PI) with (- b * 180) by (field; lra).
  replace (- a * 180 / PI * PI) with (- a * 180) by (field; lra).
  lra.
Qed.

Lemma heading_range_aux (y x : R) :
  -180 <= - spec_atan2 y x * 180 / PI < 180.
Proof.
  assert (HPI := PI_RGT_0). destruct (spec_atan2_bounds y x) as [Hlo Hhi].
  split.
  - apply (Rmult_le_reg_r PI); [exact HPI |].
    replace (- spec_atan2 y x * 180 / PI * PI) with (- spec_atan2 y x * 180)
      by (field; lra).
    lra.
  - apply (Rmult_lt_reg_r PI); [exact HPI |].
    replace (- spec_atan2 y x * 180 / PI * PI) with (- spec_atan2 y x * 180)
      by (field; lra).
    lra.
Qed.

(** X8: for pixel coordinates (at most [2^52] in magnitude), two targets
    placed symmetrically about the column of the reference point, on the
    same row, get opposite headings, unless they coincide on that column at
    or below the reference row. *)
Theorem heading_mirror (b c d k : Z) :
  pixel_coordinate (b + k) -> pixel_coordinate (b - k) ->
  pixel_coordinate b -> pixel_coordinate c -> pixel_coordinate d ->
  (k <> 0 \/ c < d)%Z ->
  value (model_to_heading ((b + k)%Z, c) (b, d))
  = - value (model_to_heading ((b - k)%Z, c) (b, d)).
Proof.
  intros _ _ _ _ _ H.
  rewrite !heading_distinct
    by (intros E; injection E as E1 E2; lia).
  rewrite plus_IZR, minus_IZR.
  replace (IZR b + IZR k - IZR b) with (IZR k) by ring.
  replace (IZR b - IZR k - IZR b) with (- IZR k) by ring.
  rewrite spec_atan2_odd.
  - assert (HPI := PI_neq0). field. exact HPI.
  - destruct H as [Hk | Hcd].
    + left. intros E. apply eq_IZR in E. contradiction.
    + right. apply IZR_lt in Hcd. lra.
Qed.

(** The theorem for the targets 4 columns either side of column 50. *)
Lemma heading_mirror_witness :
  value (model_to_heading (54, 60)%Z (50, 100)%Z)
  = - value (model_to_heading (46, 60)%Z (50, 100)%Z).
Proof.
  apply (heading_mirror 50 60 100 4);
    try (apply small_is_pixel; cbn; lia).
  left. discriminate.
Defined.

(** X9: for coordinates of an image of ordinary size (at most [2^20] in
    magnitude) and targets on a row above the reference point, the heading
    strictly decreases as the target moves right. *)
Theorem heading_decreasing (a1 a2 b c d : Z) :
  frame_coordinate a1 -> frame_coordinate a2 ->
  frame_coordinate b -> frame_coordinate c -> frame_coordinate d ->
  (c < d)%Z -> (a1 < a2)%Z ->
  value (model_to_heading (a2, c) (b, d)) < value (model_to_heading (a1, c) (b, d)).
Proof.
  intros _ _ _ _ _ Hcd Ha.
  rewrite !heading_distinct
    by (intros E; injection E as E1 E2; lia).
  apply IZR_lt in Hcd, Ha.
  rewrite !spec_atan2_pos_x by lra.
  apply degrees_scale, atan_increasing.
  assert (Hinv : 0 < / - (IZR c - IZR d)) by (apply Rinv_0_lt_compat; lra).
  unfold Rdiv. nra.
Qed.

(** The theorem for two road centres on row 60 seen from (50, 100). *)
Lemma heading_decreasing_witness :
  value (model_to_heading (55, 60)%Z (50, 100)%Z)
  < value (model_to_heading (15, 60)%Z (50, 100)%Z).
Proof.
  apply heading_decreasing; try (unfold frame_coordinate; cbn; lia); lia.
Defined.

(** X10: for two points with coordinates of an image of ordinary size (at
    most [2^20] in magnitude) the heading is at least -180 and strictly
    below 180 degrees. *)
Theorem heading_range (target reference : Z * Z) :
  frame_coordinate (fst target) -> frame_coordinate (snd target) ->
  frame_coordinate (fst reference) -> frame_coordinate (snd reference) ->
  -180 <= value (model_to_heading target reference) < 180.
Proof.
  intros _ _ _ _.
  destruct target as [a c], reference as [b d].
  destruct (Z.eq_dec a b) as [Eab | Nab], (Z.eq_dec c d) as [Ecd | Ncd].
  - subst b d. rewrite heading_coincident. lra.
  - rewrite heading_distinct by (intros E; injection E as E1 E2; contradiction).
    apply (heading_range_aux _ _).
  - rewrite heading_distinct by (intros E; injection E as E1 E2; contradiction).
    apply (heading_range_aux _ _).
  - rewrite heading_distinct by (intros E; injection E as E1 E2; contradiction).
    apply (heading_range_aux _ _).
Qed.

(** The theorem for a target below and left of the reference point. *)
Lemma heading_range_witness :
  -180 <= value (model_to_heading (40, 120)%Z (50, 100)%Z) < 180.
Proof.
  apply (heading_range (40, 120)%Z (50, 100)%Z);
    unfold frame_coordinate; cbn; lia.
Defined.

End HeadingMoreFacts.

(** * Properties of the sign detector *)

Module SignDetectorFacts.

Import SignDetector.
Local Open Scope Z_scope.

(** ** [range] *)

Lemma In_range (start stop step i : Z) :
  0 < step ->
  In i (range start stop step)
  <-> exists k : Z, 0 <= k /\ i = start + step * k /\ i < stop.
Proof.
  intros Hstep. unfold range. rewrite in_map_iff.
  set (q := (stop - start + step - 1) / step).
  assert (Hq : step * q <= stop - start + step - 1 < step * q + step).
  { unfold q.
    pose proof (Z.div_mod (stop - start + step - 1) step ltac:(lia)) as Hdm.
    pose proof (Z.mod_pos_bound (stop - start + step - 1) step Hstep) as Hmod.
    lia. }
  split.
  - intros (k & Hk & Hin). apply in_seq in Hin.
    exists (Z.of_nat k). split; [lia |]. split; [lia |]. nia.
  - intros (k & Hk0 & Hi & Hlt). exists (Z.to_nat k).
    rewrite Z2Nat.id by exact Hk0. split; [lia |].
    apply in_seq. split; [lia |]. cbn [Nat.add]. nia.
Qed.

Lemma range_bounds (start stop step i : Z) :
  0 < step -> In i (range start stop step) -> start <= i < stop.
Proof.
  intros Hstep Hin. apply In_range in Hin; [| exact Hstep].
  destruct Hin as (k & Hk & Hi & Hlt). nia.
Qed.

Lemma range_empty (start stop step : Z) :
  0 < step -> stop <= start -> range start stop step = [].
Proof.
  intros Hstep Hle. destruct (range start stop step) as [| i rest] eqn:E;
    [reflexivity |].
  assert (Hin : In i (range start stop step)) by (rewrite E; left; reflexivity).
  apply range_bounds in Hin; [lia | exact Hstep].
Qed.

Lemma range_first (start stop step : Z) :
  0 < step -> start < stop -> In start (range start stop step).
Proof.
  intros Hstep Hlt. apply In_range; [exact Hstep |].
  exists 0. split; [lia |]. split; lia.
Qed.

(** ** Indexing *)

Lemma index_in (i len : Z) : 0 <= i < len -> index i len = Got i.
Proof.
  intros Hi. unfold index.
  destruct (Z.leb_spec 0 i), (Z.ltb_spec i len); try lia. reflexivity.
Qed.

Lemma index_out (i len : Z) : 0 <= i -> len <= i -> index i len = IndexError.
Proof.
  intros H0 Hi. unfold index.
  destruct (Z.leb_spec 0 i), (Z.ltb_spec i len), (Z.ltb_spec i 0); try lia;
    cbn [andb]; rewrite ?andb_false_r; reflexivity.
Qed.

Lemma getpix_in (sign : image) (r c : Z) :
  0 <= r < Z.of_nat (rows sign) -> 0 <= c < Z.of_nat (cols sign) ->
  getpix sign r c = Got (pixel sign r c).
Proof.
  intros Hr Hc. unfold getpix. rewrite (index_in r), (index_in c) by assumption.
  reflexivity.
Qed.

Lemma getpix_out (sign : image) (r c : Z) :
  (0 <= r /\ Z.of_nat (rows sign) <= r) \/ (0 <= c /\ Z.of_nat (cols sign) <= c) ->
  getpix sign r c = IndexError.
Proof.
  intros [[H0 Hr] | [H0 Hc]]; unfold getpix.
  - rewrite (index_out r) by assumption. reflexivity.
  - rewrite (index_out c) by assumption.
    destruct (index r (Z.of_nat (rows sign))); reflexivity.
Qed.

(** ** Loops *)

Lemma mapM_Got (A B : Type) (f : A -> outcome B) (g : A -> B) (l : list A) :
  (forall x : A, In x l -> f x = Got (g x)) -> mapM f l = Got (map g l).
Proof.
  induction l as [| x rest IH]; intros Hf; cbn [mapM map]; [reflexivity |].
  rewrite (Hf x (or_introl eq_refl)). cbn [and_then].
  rewrite IH by (intros y Hy; apply Hf; right; exact Hy). reflexivity.
Qed.

Lemma mapM_fail (A B : Type) (f : A -> outcome B) (l : list A) (x : A) :
  In x l -> f x = IndexError -> mapM f l = IndexError.
Proof.
  induction l as [| y rest IH]; intros Hin Hx; [contradiction |].
  cbn [mapM]. destruct Hin as [-> | Hin].
  - rewrite Hx. reflexivity.
  - destruct (f y); [| reflexivity]. cbn [and_then]. rewrite (IH Hin Hx). reflexivity.
Qed.

Lemma mapM_ext (A B : Type) (f f' : A -> outcome B) (l : list A) :
  (forall x : A, In x l -> f x = f' x) -> mapM f l = mapM f' l.
Proof.
  induction l as [| x rest IH]; intros Hf; cbn [mapM]; [reflexivity |].
  rewrite (Hf x (or_introl eq_refl)).
  rewrite IH by (intros y Hy; apply Hf; right; exact Hy). reflexivity.
Qed.

(** A loop whose every step succeeds and keeps [P] ends in a state with [P]. *)
Lemma foldM_inv (S A : Type) (P : S -> Prop) (f : S -> A -> outcome S) (l : list A) (s : S) :
  P s ->
  (forall (s0 : S) (x : A), In x l -> P s0 -> exists s1 : S, f s0 x = Got s1 /\ P s1) ->
  exists s' : S, foldM f l s = Got s' /\ P s'.
Proof.
  revert s. induction l as [| x rest IH]; intros s Hs Hstep; cbn [foldM].
  - exists s. split; [reflexivity | exact Hs].
  - destruct (Hstep s x (or_introl eq_refl) Hs) as (s1 & Hf & Hs1).
    rewrite Hf. cbn [and_then]. apply IH; [exact Hs1 |].
    intros s0 y Hy. apply Hstep. right. exact Hy.
Qed.

Lemma foldM_ext (S A : Type) (f f' : S -> A -> outcome S) (l : list A) (s : S) :
  (forall (s0 : S) (x : A), In x l -> f s0 x = f' s0 x) ->
  foldM f l s = foldM f' l s.
Proof.
  revert s. induction l as [| x rest IH]; intros s Hf; cbn [foldM]; [reflexivity |].
  rewrite (Hf s x (or_introl eq_refl)).
  destruct (f' s x); cbn [and_then]; [| reflexivity].
  apply IH. intros s0 y Hy. apply Hf. right. exact Hy.
Qed.

(** ** The colour counters *)

Lemma colours_from (P : colour -> Prop) (dr db : Z) (l : list colour) (cr cb : Z) :
  (forall j : colour, P j ->
     (if ch0 j <? ch2 j then (1, 0) else if ch2 j <? ch0 j then (0, 1) else (0, 0))
     = (dr, db)) ->
  Forall P l ->
  fold_left
    (fun (st : Z * Z) (j : colour) =>
       let '(cr, cb) := st in
       if ch0 j <? ch2 j then (cr + 1, cb)
       else if ch2 j <? ch0 j then (cr, cb + 1)
       else (cr, cb))
    l (cr, cb)
  = (cr + dr * Z.of_nat (length l), cb + db * Z.of_nat (length l)).
Proof.
  intros HP Hl. revert cr cb. induction Hl as [| j rest Hj _ IH]; intros cr cb.
  - cbn [fold_left length Z.of_nat]. f_equal; lia.
  - cbn [fold_left]. specialize (HP j Hj).
    destruct (ch0 j <? ch2 j); [| destruct (ch2 j <? ch0 j)];
      injection HP as <- <-; rewrite IH; cbn [length]; f_equal; lia.
Qed.

Lemma count_colours_red (l : list colour) :
  Forall (fun j => ch0 j < ch2 j) l -> count_colours l = (Z.of_nat (length l), 0).
Proof.
  intros Hl. unfold count_colours.
  rewrite (colours_from (fun j => ch0 j < ch2 j) 1 0 l 0 0); [f_equal; lia | | exact Hl].
  intros j Hj. destruct (Z.ltb_spec (ch0 j) (ch2 j)); [reflexivity | lia].
Qed.

Lemma count_colours_grey (l : list colour) :
  Forall (fun j => ch0 j = ch2 j) l -> count_colours l = (0, 0).
Proof.
  intros Hl. unfold count_colours.
  rewrite (colours_from (fun j => ch0 j = ch2 j) 0 0 l 0 0); [reflexivity | | exact Hl].
  intros j Hj.
  destruct (Z.ltb_spec (ch0 j) (ch2 j)), (Z.ltb_spec (ch2 j) (ch0 j)); try lia.
  reflexivity.
Qed.

(** ** The analysed line and the white counters inside the image *)

Lemma analysed_line (sign : image) (w h : Z) :
  w <= Z.of_nat (cols sign) -> 0 <= h / 3 < Z.of_nat (rows sign) ->
  mapM (fun i => getpix sign (h / 3) i) (range 1 w 3)
  = Got (map (fun i => pixel sign (h / 3) i) (range 1 w 3)).
Proof.
  intros Hw Hrow. apply mapM_Got. intros i Hin.
  apply range_bounds in Hin; [| lia]. apply getpix_in; lia.
Qed.

Lemma third_in_rows (h len : Z) : 1 <= h <= len -> 0 <= h / 3 < len.
Proof.
  intros Hh. split; [apply Z.div_pos; lia |].
  apply Z.le_lt_trans with (m := h - 1); [| lia].
  apply Z.lt_succ_r. replace (Z.succ (h - 1)) with h by lia.
  apply Z.div_lt_upper_bound; lia.
Qed.

(** Inside the image the nested loops end normally, and any property kept
    by each update of the two counters holds of the result. *)
Lemma count_whites_inv (sign : image) (w h : Z) (P : Z * Z -> Prop) :
  h <= Z.of_nat (rows sign) -> w <= Z.of_nat (cols sign) ->
  P (0, 0) ->
  (forall d g i j : Z, 1 <= i < h -> 1 <= j < w / 2 -> P (d, g) ->
     P (if is_white (pixel sign i j) then (d, g + 1) else (d, g))) ->
  (forall d g i k : Z, 1 <= i < h -> w / 2 <= k < w -> P (d, g) ->
     P (if is_white (pixel sign i k) then (d + 1, g) else (d, g))) ->
  exists s : Z * Z, count_whites sign w h = Got s /\ P s.
Proof.
  intros Hh Hw H0 Hleft Hright. unfold count_whites.
  apply foldM_inv; [exact H0 |].
  intros st i Hi Hst. apply range_bounds in Hi; [| lia].
  destruct (foldM_inv (Z * Z) Z P
              (fun (st1 : Z * Z) (j : Z) =>
                 let '(blanc_droite, blanc_gauche) := st1 in
                 p <~ getpix sign i j ;;
                 Got (if is_white p then (blanc_droite, blanc_gauche + 1)
                      else (blanc_droite, blanc_gauche)))
              (range 1 (w / 2) 1) st Hst) as (st' & Hst' & HP').
  { intros [d g] j Hj Hdg. apply range_bounds in Hj; [| lia].
    assert (Hw2 : w / 2 <= w).
    { assert (0 <= w) by (destruct (Z.le_gt_cases 0 w) as [H | H]; [exact H |];
                           assert (w / 2 < 0) by (apply Z.div_lt_upper_bound; lia); lia).
      apply Z.div_le_upper_bound; lia. }
    rewrite getpix_in by lia. cbn [and_then].
    eexists. split; [reflexivity |]. apply Hleft; [lia | lia | exact Hdg]. }
  rewrite Hst'. cbn [and_then].
  apply foldM_inv; [exact HP' |].
  intros [d g] k Hk Hdg. apply range_bounds in Hk; [| lia].
  assert (Hk0 : 0 <= k).
  { assert (0 <= w / 2); [| lia].
    apply Z.div_pos; [| lia].
    destruct (Z.le_gt_cases 0 w) as [H | H]; [exact H |].
    assert (w <= w / 2) by (apply Z.div_le_lower_bound; lia). lia. }
  rewrite getpix_in by lia. cbn [and_then].
  eexists. split; [reflexivity |]. apply Hright; [lia | lia | exact Hdg].
Qed.

(** ** [detect] *)

(** X11: whenever [detect] returns, the dictionary holds, in this order, the
    keys [sign], [x0], [y0], [w], [h]; the last four carry the bounding box
    unchanged and the label is one of the four strings of the source. *)
Theorem detect_returns_box_and_label
    (x0 y0 w h : Z) (sign : image) (d : list (string * pyval)) :
  detect (x0, y0, w, h) sign = Got d ->
  exists logo : string,
    d = [("sign", PStr logo); ("x0", PInt x0); ("y0", PInt y0);
         ("w", PInt w); ("h", PInt h)] /\
    (logo = "STOP" \/ logo = "NONE" \/ logo = "TOURNER A DROITE"
     \/ logo = "TOURNER A GAUCHE").
Proof.
  unfold detect.
  destruct (mapM (fun i => getpix sign (h / 3) i) (range 1 w 3)) as [ligne |];
    cbn [and_then]; [| discriminate].
  destruct (count_colours ligne) as [cr cb].
  destruct (cr <? cb).
  - destruct (count_whites sign w h) as [[bd bg] |]; cbn [and_then]; [| discriminate].
    destruct (bg <? bd); intros H; injection H as <-; eexists; split;
      try reflexivity; tauto.
  - destruct (cb <? cr); cbn [and_then]; intros H; injection H as <-;
      eexists; split; try reflexivity; tauto.
Qed.

(** The theorem on a uniform red 9 x 10 image. *)
Lemma detect_returns_box_and_label_witness :
  exists logo : string,
    [("sign", PStr "STOP"); ("x0", PInt 5); ("y0", PInt 6); ("w", PInt 10);
     ("h", PInt 9)]
    = [("sign", PStr logo); ("x0", PInt 5); ("y0", PInt 6); ("w", PInt 10);
       ("h", PInt 9)] /\
    (logo = "STOP" \/ logo = "NONE" \/ logo = "TOURNER A DROITE"
     \/ logo = "TOURNER A GAUCHE").
Proof.
  apply (detect_returns_box_and_label 5 6 10 9 (uniform 9 10 (10, 20, 200))).
  vm_compute. reflexivity.
Defined.

(** X12: a bounding box of width at most 1 analyses no pixel: [detect]
    returns the label [NONE] without reading the image, whatever the image
    and the height of the box. *)
Theorem narrow_box_is_none (x0 y0 w h : Z) (sign : image) :
  w <= 1 ->
  detect (x0, y0, w, h) sign
  = Got [("sign", PStr "NONE"); ("x0", PInt x0); ("y0", PInt y0);
         ("w", PInt w); ("h", PInt h)].
Proof.
  intros Hw. unfold detect. rewrite range_empty by lia. reflexivity.
Qed.

(** The theorem for a box of width 1 and height 900 on an empty image. *)
Lemma narrow_box_is_none_witness :
  detect (5, 6, 1, 900) (uniform 0 0 (0, 0, 0))
  = Got [("sign", PStr "NONE"); ("x0", PInt 5); ("y0", PInt 6);
         ("w", PInt 1); ("h", PInt 900)].
Proof. apply narrow_box_is_none. lia. Defined.

(** X13: when the box is no larger than the image ([1 <= h <= rows] and
    [w <= cols]) no index leaves the array and [detect] returns a
    dictionary. *)
Theorem box_inside_image_returns (x0 y0 w h : Z) (sign : image) :
  1 <= h <= Z.of_nat (rows sign) -> w <= Z.of_nat (cols sign) ->
  exists d : list (string * pyval), detect (x0, y0, w, h) sign = Got d.
Proof.
  intros Hh Hw. unfold detect.
  rewrite analysed_line by (try apply third_in_rows; lia). cbn [and_then].
  destruct (count_colours _) as [cr cb].
  destruct (cr <? cb).
  - destruct (count_whites_inv sign w h (fun _ => True)) as ([bd bg] & Hc & _);
      [lia | lia | exact I | intros; exact I | intros; exact I |].
    rewrite Hc. cbn [and_then]. eexists. reflexivity.
  - destruct (cb <? cr); cbn [and_then]; eexists; reflexivity.
Qed.

(** The theorem for a 10 x 9 box on a uniform blue 9 x 10 image. *)
Lemma box_inside_image_returns_witness :
  exists d : list (string * pyval),
    detect (5, 6, 10, 9) (uniform 9 10 (200, 20, 10)) = Got d.
Proof.
  apply box_inside_image_returns; cbn [rows cols uniform]; lia.
Defined.

(** X14: when one of the analysed columns [1, 4, 7, ...] below [w] is not a
    column of the image, or when [w >= 2] and the analysed row [h // 3] is
    not a row of the image, [detect] raises [IndexError]. *)
Theorem box_outside_image_raises (x0 y0 w h : Z) (sign : image) :
  (exists k : Z, 0 <= k /\ 1 + 3 * k < w /\ Z.of_nat (cols sign) <= 1 + 3 * k)
  \/ (2 <= w /\ Z.of_nat (rows sign) <= h / 3) ->
  detect (x0, y0, w, h) sign = IndexError.
Proof.
  intros H. unfold detect.
  assert (Hfail : mapM (fun i => getpix sign (h / 3) i) (range 1 w 3) = IndexError).
  { destruct H as [(k & Hk & Hlt & Hout) | [Hw Hrow]].
    - apply (mapM_fail _ _ _ _ (1 + 3 * k)).
      + apply In_range; [lia |]. exists k. repeat split; lia.
      + apply getpix_out. right. lia.
    - apply (mapM_fail _ _ _ _ 1).
      + apply range_first; lia.
      + apply getpix_out. left. lia. }
  rewrite Hfail. reflexivity.
Qed.

(** The theorem for a box 12 wide on an image 10 wide: column 10 is
    analysed. *)
Lemma box_outside_image_raises_witness :
  detect (5, 6, 12, 9) (uniform 9 10 (200, 220, 210)) = IndexError.
Proof.
  apply box_outside_image_raises. left. exists 3.
  cbn [cols uniform]. lia.
Defined.

(** X15: when the box lies inside the image, is at least 2 wide, and every
    analysed pixel (row [h // 3], columns 1, 4, 7, ... below [w]) has
    channel 0 below channel 2, the label is [STOP]. *)
Theorem red_line_is_stop (x0 y0 w h : Z) (sign : image) :
  2 <= w <= Z.of_nat (cols sign) ->
  0 <= h / 3 < Z.of_nat (rows sign) ->
  (forall i : Z, In i (range 1 w 3) ->
     ch0 (pixel sign (h / 3) i) < ch2 (pixel sign (h / 3) i)) ->
  detect (x0, y0, w, h) sign
  = Got [("sign", PStr "STOP"); ("x0", PInt x0); ("y0", PInt y0);
         ("w", PInt w); ("h", PInt h)].
Proof.
  intros Hw Hrow Hred. unfold detect.
  rewrite analysed_line by lia. cbn [and_then].
  rewrite count_colours_red.
  - rewrite length_map.
    assert (Hlen : 0 < Z.of_nat (length (range 1 w 3))).
    { assert (Hin : In 1 (range 1 w 3)) by (apply range_first; lia).
      destruct (range 1 w 3); [contradiction | cbn [length]; lia]. }
    destruct (Z.ltb_spec (Z.of_nat (length (range 1 w 3))) 0); [lia |].
    destruct (Z.ltb_spec 0 (Z.of_nat (length (range 1 w 3)))); [| lia].
    reflexivity.
  - apply Forall_forall. intros j Hj. apply in_map_iff in Hj.
    destruct Hj as (i & <- & Hi). apply Hred, Hi.
Qed.

(** The theorem on a uniform image with channels (10, 20, 200). *)
Lemma red_line_is_stop_witness :
  detect (5, 6, 10, 9) (uniform 9 10 (10, 20, 200))
  = Got [("sign", PStr "STOP"); ("x0", PInt 5); ("y0", PInt 6);
         ("w", PInt 10); ("h", PInt 9)].
Proof.
  apply red_line_is_stop.
  - cbn [cols uniform]. lia.
  - cbn [rows uniform]. change (9 / 3) with 3. lia.
  - intros i _. cbn [uniform pixel ch0 ch2 fst snd]. lia.
Defined.

(** X16: when the box lies inside the image and every analysed pixel has
    equal channels 0 and 2 (a grey line), the label is [NONE]. *)
Theorem grey_line_is_none (x0 y0 w h : Z) (sign : image) :
  w <= Z.of_nat (cols sign) ->
  0 <= h / 3 < Z.of_nat (rows sign) ->
  (forall i : Z, In i (range 1 w 3) ->
     ch0 (pixel sign (h / 3) i) = ch2 (pixel sign (h / 3) i)) ->
  detect (x0, y0, w, h) sign
  = Got [("sign", PStr "NONE"); ("x0", PInt x0); ("y0", PInt y0);
         ("w", PInt w); ("h", PInt h)].
Proof.
  intros Hw Hrow Hgrey. unfold detect.
  rewrite analysed_line by lia. cbn [and_then].
  rewrite count_colours_grey; [reflexivity |].
  apply Forall_forall. intros j Hj. apply in_map_iff in Hj.
  destruct Hj as (i & <- & Hi). apply Hgrey, Hi.
Qed.

(** The theorem on a uniform white image. *)
Lemma grey_line_is_none_witness :
  detect (5, 6, 10, 9) (uniform 9 10 (255, 255, 255))
  = Got [("sign", PStr "NONE"); ("x0", PInt 5); ("y0", PInt 6);
         ("w", PInt 10); ("h", PInt 9)].
Proof.
  apply grey_line_is_none.
  - cbn [cols uniform]. lia.
  - cbn [rows uniform]. change (9 / 3) with 3. lia.
  - intros i _. reflexivity.
Defined.

(** X17: when the box lies inside the image and no pixel of rows 1 to
    [h - 1], columns [w // 2] to [w - 1] has all three channels above 150,
    the label is never [TOURNER A DROITE]. *)
Theorem no_white_on_the_right (x0 y0 w h : Z) (sign : image) :
  1 <= h <= Z.of_nat (rows sign) -> w <= Z.of_nat (cols sign) ->
  (forall r c : Z, 1 <= r < h -> w / 2 <= c < w -> is_white (pixel sign r c) = false) ->
  exists logo : string,
    detect (x0, y0, w, h) sign
    = Got [("sign", PStr logo); ("x0", PInt x0); ("y0", PInt y0);
           ("w", PInt w); ("h", PInt h)] /\
    logo <> "TOURNER A DROITE".
Proof.
  intros Hh Hw Hdark. unfold detect.
  rewrite analysed_line by (try apply third_in_rows; lia). cbn [and_then].
  destruct (count_colours _) as [cr cb].
  destruct (cr <? cb).
  - destruct (count_whites_inv sign w h (fun s => fst s = 0 /\ 0 <= snd s))
      as ([bd bg] & Hc & Hbd & Hbg).
    + lia.
    + lia.
    + cbn [fst snd]. lia.
    + intros d g i j _ _ [Hd Hg]. cbn [fst snd] in *.
      destruct (is_white (pixel sign i j)); cbn [fst snd]; lia.
    + intros d g i k Hi Hk [Hd Hg]. cbn [fst snd] in *.
      rewrite (Hdark i k Hi Hk). cbn [fst snd]. lia.
    + cbn [fst snd] in Hbd, Hbg. subst bd. rewrite Hc. cbn [and_then].
      destruct (Z.ltb_spec bg 0); [lia |].
      eexists. split; [reflexivity | discriminate].
  - destruct (cb <? cr); cbn [and_then]; eexists; (split; [reflexivity | discriminate]).
Qed.

(** The theorem on a uniform dark blue image. *)
Lemma no_white_on_the_right_witness :
  exists logo : string,
    detect (5, 6, 10, 9) (uniform 9 10 (200, 20, 10))
    = Got [("sign", PStr logo); ("x0", PInt 5); ("y0", PInt 6);
           ("w", PInt 10); ("h", PInt 9)] /\
    logo <> "TOURNER A DROITE".
Proof.
  apply no_white_on_the_right.
  - cbn [rows uniform]. lia.
  - cbn [cols uniform]. lia.
  - intros r c _ _. reflexivity.
Defined.

(** ** Column 0 is never read *)

Lemma getpix_beyond_first_column (a b : image) (r c : Z) :
  same_beyond_first_column a b -> 1 <= c -> getpix a r c = getpix b r c.
Proof.
  intros (Hrows & Hcols & Hpix) Hc. unfold getpix. rewrite Hrows, Hcols.
  destruct (index r (Z.of_nat (rows b))) as [r' |]; cbn [and_then]; [| reflexivity].
  unfold index.
  destruct ((0 <=? c) && (c <? Z.of_nat (cols b))).
  - cbn [and_then]. rewrite Hpix by exact Hc. reflexivity.
  - destruct (Z.ltb_spec c 0); [lia |]. rewrite andb_false_r. reflexivity.
Qed.

(** X18: [detect] never reads column 0 of the image: two images of the same
    size that agree on every other column get the same result, dictionary
    or [IndexError].  (The white count starts at column [w // 2], which is
    at least 1 whenever a pixel was analysed.) *)
Theorem first_column_is_ignored (bb : Z * Z * Z * Z) (a b : image) :
  same_beyond_first_column a b -> detect bb a = detect bb b.
Proof.
  intros Hsame. destruct bb as [[[x0 y0] w] h]. unfold detect.
  destruct (Z.le_gt_cases w 1) as [Hnarrow | Hwide];
    [rewrite range_empty by lia; reflexivity |].
  assert (Hline : mapM (fun i => getpix a (h / 3) i) (range 1 w 3)
                  = mapM (fun i => getpix b (h / 3) i) (range 1 w 3)).
  { apply mapM_ext. intros i Hi. apply range_bounds in Hi; [| lia].
    apply getpix_beyond_first_column; [exact Hsame | lia]. }
  assert (Hwhite : count_whites a w h = count_whites b w h).
  { unfold count_whites. apply foldM_ext. intros st i _.
    assert (Hl : forall s0 : Z * Z,
              foldM (fun (st1 : Z * Z) (j : Z) =>
                       let '(blanc_droite, blanc_gauche) := st1 in
                       p <~ getpix a i j ;;
                       Got (if is_white p then (blanc_droite, blanc_gauche + 1)
                            else (blanc_droite, blanc_gauche)))
                    (range 1 (w / 2) 1) s0
              = foldM (fun (st1 : Z * Z) (j : Z) =>
                         let '(blanc_droite, blanc_gauche) := st1 in
                         p <~ getpix b i j ;;
                         Got (if is_white p then (blanc_droite, blanc_gauche + 1)
                              else (blanc_droite, blanc_gauche)))
                      (range 1 (w / 2) 1) s0).
    { intros s0. apply foldM_ext. intros [d g] j Hj.
      apply range_bounds in Hj; [| lia].
      rewrite (getpix_beyond_first_column a b i j Hsame) by lia. reflexivity. }
    rewrite Hl.
    destruct (foldM _ (range 1 (w / 2) 1) st) as [st' |]; cbn [and_then];
      [| reflexivity].
    apply foldM_ext. intros [d g] k Hk. apply range_bounds in Hk; [| lia].
    assert (Hk1 : 1 <= k).
    { assert (1 <= w / 2) by (apply Z.div_le_lower_bound; lia). lia. }
    rewrite (getpix_beyond_first_column a b i k Hsame) by exact Hk1. reflexivity. }
  rewrite Hline, Hwhite. reflexivity.
Qed.

(** The theorem on a blue image and the same image with a white first
    column. *)
Lemma first_column_is_ignored_witness :
  detect (5, 6, 10, 9)
    {| rows := 9; cols := 10;
       pixel := fun _ c => if c =? 0 then (255, 255, 255) else (200, 20, 10) |}
  = detect (5, 6, 10, 9) (uniform 9 10 (200, 20, 10)).
Proof.
  apply first_column_is_ignored.
  split; [reflexivity |]. split; [reflexivity |].
  intros r c Hc. cbn [pixel uniform].
  destruct (Z.eqb_spec c 0); [lia | reflexivity].
Defined.

(** ** The white counters are exact *)

Lemma filter_map_length (A B : Type) (f : B -> bool) (g : A -> B) (l : list A) :
  length (filter f (map g l)) = length (filter (fun x => f (g x)) l).
Proof.
  induction l as [| x rest IH]; cbn [map filter]; [reflexivity |].
  destruct (f (g x)); cbn [length]; rewrite IH; reflexivity.
Qed.

Lemma whites_of_row (sign : image) (i : Z) (cs : list Z) (rest : list Z) :
  length (filter (fun rc => is_white (pixel sign (fst rc) (snd rc)))
                 (list_prod (i :: rest) cs))
  = (length (filter (fun j => is_white (pixel sign i j)) cs)
     + length (filter (fun rc => is_white (pixel sign (fst rc) (snd rc)))
                      (list_prod rest cs)))%nat.
Proof.
  cbn [list_prod]. rewrite filter_app, length_app, filter_map_length.
  reflexivity.
Qed.

Lemma left_loop_exact (sign : image) (i : Z) (l : list Z) (d g : Z) :
  (forall j : Z, In j l -> getpix sign i j = Got (pixel sign i j)) ->
  foldM (fun (st1 : Z * Z) (j : Z) =>
           let '(blanc_droite, blanc_gauche) := st1 in
           p <~ getpix sign i j ;;
           Got (if is_white p then (blanc_droite, blanc_gauche + 1)
                else (blanc_droite, blanc_gauche)))
        l (d, g)
  = Got (d, g + Z.of_nat (length (filter (fun j => is_white (pixel sign i j)) l))).
Proof.
  revert d g. induction l as [| j rest IH]; intros d g Hok; cbn [foldM filter].
  - cbn [length Z.of_nat]. rewrite Z.add_0_r. reflexivity.
  - rewrite (Hok j (or_introl eq_refl)). cbn [and_then].
    assert (Hrest : forall j0 : Z, In j0 rest -> getpix sign i j0 = Got (pixel sign i j0))
      by (intros j0 Hj0; apply Hok; right; exact Hj0).
    destruct (is_white (pixel sign i j)); rewrite IH by exact Hrest; cbn [length];
      do 2 f_equal; lia.
Qed.

Lemma right_loop_exact (sign : image) (i : Z) (l : list Z) (d g : Z) :
  (forall k : Z, In k l -> getpix sign i k = Got (pixel sign i k)) ->
  foldM (fun (st1 : Z * Z) (k : Z) =>
           let '(blanc_droite, blanc_gauche) := st1 in
           p <~ getpix sign i k ;;
           Got (if is_white p then (blanc_droite + 1, blanc_gauche)
                else (blanc_droite, blanc_gauche)))
        l (d, g)
  = Got (d + Z.of_nat (length (filter (fun k => is_white (pixel sign i k)) l)), g).
Proof.
  revert d g. induction l as [| k rest IH]; intros d g Hok; cbn [foldM filter].
  - cbn [length Z.of_nat]. rewrite Z.add_0_r. reflexivity.
  - rewrite (Hok k (or_introl eq_refl)). cbn [and_then].
    assert (Hrest : forall k0 : Z, In k0 rest -> getpix sign i k0 = Got (pixel sign i k0))
      by (intros k0 Hk0; apply Hok; right; exact Hk0).
    destruct (is_white (pixel sign i k)); rewrite IH by exact Hrest; cbn [length];
      do 2 f_equal; lia.
Qed.

Lemma rows_loop_exact (sign : image) (ls rs : list Z) (is_ : list Z) (d g : Z) :
  (forall i j : Z, In i is_ -> In j ls \/ In j rs ->
     getpix sign i j = Got (pixel sign i j)) ->
  foldM
    (fun (st : Z * Z) (i : Z) =>
       st' <~ foldM (fun (st1 : Z * Z) (j : Z) =>
                       let '(blanc_droite, blanc_gauche) := st1 in
                       p <~ getpix sign i j ;;
                       Got (if is_white p then (blanc_droite, blanc_gauche + 1)
                            else (blanc_droite, blanc_gauche)))
                    ls st ;;
       foldM (fun (st1 : Z * Z) (k : Z) =>
                let '(blanc_droite, blanc_gauche) := st1 in
                p <~ getpix sign i k ;;
                Got (if is_white p then (blanc_droite + 1, blanc_gauche)
                     else (blanc_droite, blanc_gauche)))
             rs st')
    is_ (d, g)
  = Got (d + Z.of_nat (length (filter (fun rc => is_white (pixel sign (fst rc) (snd rc)))
                                      (list_prod is_ rs))),
         g + Z.of_nat (length (filter (fun rc => is_white (pixel sign (fst rc) (snd rc)))
                                      (list_prod is_ ls)))).
Proof.
  revert d g. induction is_ as [| i rest IH]; intros d g Hok.
  - cbn [foldM list_prod filter length Z.of_nat]. rewrite !Z.add_0_r. reflexivity.
  - cbn [foldM].
    rewrite left_loop_exact by (intros j Hj; apply Hok; [left; reflexivity | left; exact Hj]).
    cbn [and_then].
    rewrite right_loop_exact
      by (intros k Hk; apply Hok; [left; reflexivity | right; exact Hk]).
    cbn [and_then].
    rewrite IH by (intros i0 j Hi0 Hj; apply Hok; [right; exact Hi0 | exact Hj]).
    rewrite !whites_of_row. f_equal; f_equal; lia.
Qed.

Lemma count_colours_blue (l : list colour) :
  Forall (fun j => ch2 j < ch0 j) l -> count_colours l = (0, Z.of_nat (length l)).
Proof.
  intros Hl. unfold count_colours.
  rewrite (colours_from (fun j => ch2 j < ch0 j) 0 1 l 0 0); [f_equal; lia | | exact Hl].
  intros j Hj.
  destruct (Z.ltb_spec (ch0 j) (ch2 j)), (Z.ltb_spec (ch2 j) (ch0 j)); try lia.
  reflexivity.
Qed.

(** X19: when the box lies inside the image, is at least 2 wide, and every
    analysed pixel has channel 0 above channel 2 (a blue line), the label
    is [TOURNER A DROITE] exactly when rows 1 to [h - 1] hold strictly more
    white pixels (all channels above 150) in columns [w // 2] to [w - 1]
    than in columns 1 to [w // 2 - 1]; otherwise, ties included, it is
    [TOURNER A GAUCHE]. *)
Theorem blue_line_turn_direction (x0 y0 w h : Z) (sign : image) :
  2 <= w <= Z.of_nat (cols sign) ->
  1 <= h <= Z.of_nat (rows sign) ->
  (forall i : Z, In i (range 1 w 3) ->
     ch2 (pixel sign (h / 3) i) < ch0 (pixel sign (h / 3) i)) ->
  let white := fun rc : Z * Z => is_white (pixel sign (fst rc) (snd rc)) in
  let droite := length (filter white (list_prod (range 1 h 1) (range (w / 2) w 1))) in
  let gauche := length (filter white (list_prod (range 1 h 1) (range 1 (w / 2) 1))) in
  detect (x0, y0, w, h) sign
  = Got [("sign", PStr (if (gauche <? droite)%nat then "TOURNER A DROITE"
                        else "TOURNER A GAUCHE"));
         ("x0", PInt x0); ("y0", PInt y0); ("w", PInt w); ("h", PInt h)].
Proof.
  intros Hw Hh Hblue white droite gauche. unfold detect.
  rewrite analysed_line by (try apply third_in_rows; lia). cbn [and_then].
  rewrite count_colours_blue.
  - rewrite length_map.
    assert (Hlen : 0 < Z.of_nat (length (range 1 w 3))).
    { assert (Hin : In 1 (range 1 w 3)) by (apply range_first; lia).
      destruct (range 1 w 3); [contradiction | cbn [length]; lia]. }
    destruct (Z.ltb_spec 0 (Z.of_nat (length (range 1 w 3)))); [| lia].
    assert (Hw2 : 1 <= w / 2 <= w).
    { split; [apply Z.div_le_lower_bound; lia | apply Z.div_le_upper_bound; lia]. }
    unfold count_whites. rewrite rows_loop_exact.
    + cbn [and_then]. fold white. fold droite. fold gauche.
      rewrite !Z.add_0_l.
      destruct (Z.ltb_spec (Z.of_nat gauche) (Z.of_nat droite)),
               (Nat.ltb_spec gauche droite); try lia; reflexivity.
    + intros i j Hi Hj. apply range_bounds in Hi; [| lia].
      apply getpix_in; [lia |].
      destruct Hj as [Hj | Hj]; apply range_bounds in Hj; lia.
  - apply Forall_forall. intros j Hj. apply in_map_iff in Hj.
    destruct Hj as (i & <- & Hi). apply Hblue, Hi.
Qed.

(** The theorem on a blue 9 x 10 image whose columns 7 to 9 are white: the
    sign points right. *)
Lemma blue_line_turn_direction_witness :
  detect (5, 6, 10, 9)
    {| rows := 9; cols := 10;
       pixel := fun _ c => if 7 <=? c then (255, 200, 180) else (200, 20, 10) |}
  = Got [("sign", PStr "TOURNER A DROITE");
         ("x0", PInt 5); ("y0", PInt 6); ("w", PInt 10); ("h", PInt 9)].
Proof.
  rewrite blue_line_turn_direction.
  - vm_compute. reflexivity.
  - cbn [cols]. lia.
  - cbn [rows]. lia.
  - intros i _. cbn [pixel]. destruct (7 <=? i); cbn [ch0 ch2 fst snd]; lia.
Defined.

End SignDetectorFacts.

(** * Properties of the sampling in binary64 *)

Module Float64Facts.

Import Sampling SamplingFacts Float64.
Local Open Scope Q_scope.

(** ** Rounding *)

Lemma round64_comp (p q : Q) : p == q -> round64 p = round64 q.
Proof. intros H. unfold round64. rewrite (Qred_complete p q H). reflexivity. Qed.

Lemma round64_zero (q : Q) : q == 0 -> round64 q = 0.
Proof. intros H. rewrite (round64_comp q 0 H). reflexivity. Qed.

Lemma round_half_even_int (x : Q) (t : Z) : x == inject_Z t -> round_half_even x = t.
Proof.
  intros Hx. unfold round_half_even.
  rewrite (Qfloor_comp x (inject_Z t) Hx), Qfloor_Z.
  assert (Hlt : Qcompare (x - inject_Z t) (1 # 2) = Lt).
  { apply (proj1 (Qlt_alt _ _)). rewrite Hx. lra. }
  rewrite Hlt. reflexivity.
Qed.

Lemma pow2_nonpos (p : Z) :
  (p <= 0)%Z -> pow2 p * inject_Z (2 ^ (- p)) == 1.
Proof.
  intros Hp. unfold pow2.
  assert (Hpos : (0 < 2 ^ (- p))%Z) by (apply Z.pow_pos_nonneg; lia).
  assert (Hne : ~ inject_Z (2 ^ (- p)) == 0).
  { change 0 with (inject_Z 0). rewrite inject_Z_injective. lia. }
  destruct (Z.leb_spec 0 p) as [H0 | H0].
  - assert (p = 0%Z) by lia. subst p. reflexivity.
  - field. exact Hne.
Qed.

(** Integers below [2^53] in magnitude are binary64 numbers. *)
Lemma round64_int_lt (z : Z) :
  (Z.abs z < 2 ^ 53)%Z -> round64 (inject_Z z) == inject_Z z.
Proof.
  intros Hz. destruct (Z.eq_dec z 0) as [-> | Hnz]; [reflexivity |].
  unfold round64.
  assert (Hred : Qred (inject_Z z) = inject_Z z).
  { apply Qcanon.Qred_identity. cbn [inject_Z Qnum Qden]. apply Z.gcd_1_r. }
  rewrite Hred. cbn [inject_Z Qnum].
  destruct (Z.eqb_spec z 0) as [E | _]; [contradiction |].
  assert (Habs : Qabs (inject_Z z) = inject_Z (Z.abs z)) by reflexivity.
  rewrite Habs.
  set (k := Z.log2 (Z.abs z)).
  assert (Hk : (0 <= k < 53)%Z).
  { split; [apply Z.log2_nonneg |]. apply Z.log2_lt_pow2; lia. }
  assert (Hspec : (2 ^ k <= Z.abs z < 2 ^ Z.succ k)%Z)
    by (apply Z.log2_spec; lia).
  assert (Hlog : ilog2 (inject_Z (Z.abs z)) = k).
  { unfold ilog2. cbn [inject_Z Qnum Qden]. change (Z.log2 1) with 0%Z.
    rewrite Z.sub_0_r. fold k.
    assert (Hle : Qle_bool (pow2 k) (inject_Z (Z.abs z)) = true).
    { apply Qle_bool_iff. unfold pow2.
      destruct (Z.leb_spec 0 k); [| lia].
      rewrite <- Zle_Qle. lia. }
    rewrite Hle. reflexivity. }
  rewrite Hlog.
  rewrite Z.max_l by lia.
  assert (Hp := pow2_nonpos (k - 52) ltac:(lia)).
  replace (- (k - 52))%Z with (52 - k)%Z in Hp by lia.
  assert (Hpos : (0 < 2 ^ (52 - k))%Z) by (apply Z.pow_pos_nonneg; lia).
  assert (Hne : ~ inject_Z (2 ^ (52 - k)) == 0).
  { change 0 with (inject_Z 0). rewrite inject_Z_injective. lia. }
  assert (Hpne : ~ pow2 (k - 52) == 0).
  { intros E. rewrite E in Hp. lra. }
  assert (Hm : round_half_even (inject_Z (Z.abs z) / pow2 (k - 52))
               = (Z.abs z * 2 ^ (52 - k))%Z).
  { apply round_half_even_int. rewrite inject_Z_mult.
    apply (Qmult_inj_r _ _ (pow2 (k - 52)) Hpne).
    transitivity (inject_Z (Z.abs z)); [field; exact Hpne |].
    rewrite <- Qmult_assoc, (Qmult_comm (inject_Z (2 ^ (52 - k)))), Hp. ring. }
  rewrite Hm.
  assert (Hv : inject_Z (Z.abs z * 2 ^ (52 - k)) * pow2 (k - 52) == inject_Z (Z.abs z)).
  { rewrite inject_Z_mult, <- Qmult_assoc, (Qmult_comm (inject_Z (2 ^ (52 - k)))), Hp.
    ring. }
  destruct (Z.ltb_spec z 0) as [Hneg | Hpos'].
  - rewrite Hv, Z.abs_neq by lia. rewrite inject_Z_opp. ring.
  - rewrite Hv, Z.abs_eq by lia. reflexivity.
Qed.

Lemma round64_int (z : Z) :
  (Z.abs z <= 2 ^ 53)%Z -> round64 (inject_Z z) == inject_Z z.
Proof.
  intros Hz. destruct (Z.eq_dec (Z.abs z) (2 ^ 53)) as [E | N].
  - destruct (Z.abs_eq_or_opp z) as [H | H]; rewrite H in E.
    + subst z. vm_compute. reflexivity.
    + assert (z = (- 2 ^ 53)%Z) by lia. subst z. vm_compute. reflexivity.
  - apply round64_int_lt. lia.
Qed.

Lemma of_int_pixel (z : Z) : pixel_coordinate z -> of_int z == inject_Z z.
Proof.
  unfold pixel_coordinate. intros Hz. apply round64_int.
  assert ((2 ^ 52 < 2 ^ 53)%Z) by reflexivity. lia.
Qed.

Lemma float_zero_times (a b : Q) : a == 0 -> fmul a b = 0.
Proof. intros Ha. apply round64_zero. rewrite Ha. ring. Qed.

Lemma float_times_zero (a b : Q) : b == 0 -> fmul a b = 0.
Proof. intros Hb. apply round64_zero. rewrite Hb. ring. Qed.

Lemma float_zero_plus (a : Q) : round64 a == a -> fadd 0 a == a.
Proof.
  intros Ha. unfold fadd. rewrite (round64_comp (0 + a) a) by ring. exact Ha.
Qed.

(** ** [np.linspace] in binary64 *)

Lemma linspace64_length (start stop : Q) (num : nat) :
  length (linspace64 start stop num) = num.
Proof. unfold linspace64. rewrite length_map, length_seq. reflexivity. Qed.

Lemma linspace64_nth (start stop : Q) (num i : nat) :
  (i < num)%nat ->
  nth i (linspace64 start stop num) 0 =
    if (1 <? num)%nat && (i =? num - 1)%nat then stop
    else if Qeq_bool (fdiv (fsub stop start) (inject_Z (Z.of_nat (num - 1)))) 0
         then fadd (fmul (fdiv (inject_Z (Z.of_nat i)) (inject_Z (Z.of_nat (num - 1))))
                         (fsub stop start)) start
         else fadd (fmul (inject_Z (Z.of_nat i))
                         (fdiv (fsub stop start) (inject_Z (Z.of_nat (num - 1)))))
                   start.
Proof.
  intros Hi. unfold linspace64.
  set (f := fun i0 : nat => _).
  rewrite (nth_indep _ 0 (f 0%nat)) by (rewrite length_map, length_seq; exact Hi).
  rewrite map_nth, seq_nth by exact Hi.
  reflexivity.
Qed.

Lemma linspace64_first (start stop : Q) (num : nat) :
  (2 <= num)%nat -> round64 start == start ->
  nth 0 (linspace64 start stop num) 0 == start.
Proof.
  intros Hnum Hstart. rewrite linspace64_nth by lia.
  assert (E : ((1 <? num)%nat && (0 =? num - 1)%nat) = false).
  { apply andb_false_iff. right. apply Nat.eqb_neq. lia. }
  rewrite E. cbn [Z.of_nat].
  destruct (Qeq_bool _ 0).
  - rewrite (float_zero_times (fdiv (inject_Z 0) _)).
    + apply float_zero_plus, Hstart.
    + unfold fdiv. rewrite (round64_zero (inject_Z 0 / _)); [reflexivity |].
      unfold Qdiv. ring.
  - rewrite (float_zero_times (inject_Z 0)) by reflexivity.
    apply float_zero_plus, Hstart.
Qed.

Lemma linspace64_last (start stop : Q) (num : nat) :
  (2 <= num)%nat -> nth (num - 1) (linspace64 start stop num) 0 = stop.
Proof.
  intros Hnum. rewrite linspace64_nth by lia.
  assert (E : ((1 <? num)%nat && (num - 1 =? num - 1)%nat) = true).
  { apply andb_true_iff. split; [apply Nat.ltb_lt; lia | apply Nat.eqb_refl]. }
  rewrite E. reflexivity.
Qed.

(** A degenerate segment between two equal floats: every sample is that
    float. *)
Lemma linspace64_const (start stop : Q) (num i : nat) :
  start == stop -> round64 start == start -> (i < num)%nat ->
  nth i (linspace64 start stop num) 0 == start.
Proof.
  intros Heq Hstart Hi. rewrite linspace64_nth by exact Hi.
  destruct ((1 <? num)%nat && (i =? num - 1)%nat); [symmetry; exact Heq |].
  assert (Hdelta : fsub stop start = 0).
  { apply round64_zero. rewrite Heq. ring. }
  rewrite Hdelta.
  assert (Hstep : fdiv 0 (inject_Z (Z.of_nat (num - 1))) = 0).
  { apply round64_zero. unfold Qdiv. ring. }
  rewrite Hstep. cbn [Qeq_bool Qnum Qden Z.mul Z.eqb].
  rewrite float_times_zero by reflexivity.
  apply float_zero_plus, Hstart.
Qed.

(** ** [profile] and [find_center] in binary64 on a 2-D mask *)

Lemma profile64_2d (mask : ndarray) (h w : nat) (p0 p1 : Q * Q) (num : nat) :
  shape mask = [h; w] ->
  profile64 mask p0 p1 num =
    Ok (linspace64 (fst p0) (fst p1) num,
        linspace64 (snd p0) (snd p1) num,
        map (fun rc => sample_at64 mask (Z.of_nat h) (Z.of_nat w) (fst rc) (snd rc))
            (combine (linspace64 (snd p0) (snd p1) num)
                     (linspace64 (fst p0) (fst p1) num))).
Proof. intros Hs. unfold profile64, map_coordinates64. rewrite Hs. reflexivity. Qed.

Lemma sampled64_length (mask : ndarray) (h w : Z) (m n : list Q) :
  length m = length n ->
  length (map (fun rc => sample_at64 mask h w (fst rc) (snd rc)) (combine m n))
  = length n.
Proof. intros H. rewrite length_map, length_combine, H. apply Nat.min_id. Qed.

Lemma sampled64_nth (mask : ndarray) (h w : Z) (m n : list Q) (i : nat) :
  length m = length n -> (i < length n)%nat ->
  nth i (map (fun rc => sample_at64 mask h w (fst rc) (snd rc)) (combine m n)) 0%Z
  = sample_at64 mask h w (nth i m 0) (nth i n 0).
Proof.
  intros Hlen Hi.
  set (f := fun rc : Q * Q => _).
  rewrite (nth_indep _ 0%Z (f (0, 0))).
  - rewrite map_nth, combine_nth by exact Hlen. reflexivity.
  - rewrite length_map, length_combine, Hlen, Nat.min_id. exact Hi.
Qed.

Lemma sample_at64_nonzero (input : ndarray) (h w : Z) (r c : Q) :
  sample_at64 input h w r c <> 0%Z ->
  item input [nearest64 r; nearest64 c] = sample_at64 input h w r c.
Proof.
  unfold sample_at64.
  destruct (in_range r h && in_range c w); [reflexivity | congruence].
Qed.

Lemma find_center_locals64_2d (mask : ndarray) (h w : nat) (x y : Z) :
  shape mask = [h; w] ->
  exists l : locals64,
    find_center_locals64 mask x y = Ok l /\
    sample_width64 l = int_of (fdiv (of_int (Z.of_nat w)) 2) /\
    (xl64 l = linspace64 (of_int x) (of_int (x - sample_width64 l)) 40 /\
     yl64 l = linspace64 (of_int y) (of_int y) 40 /\
     l_val64 l = map (fun rc => sample_at64 mask (Z.of_nat h) (Z.of_nat w) (fst rc) (snd rc))
                     (combine (yl64 l) (xl64 l))) /\
    (xr64 l = linspace64 (of_int x) (of_int (x + sample_width64 l)) 40 /\
     yr64 l = linspace64 (of_int y) (of_int y) 40 /\
     r_val64 l = map (fun rc => sample_at64 mask (Z.of_nat h) (Z.of_nat w) (fst rc) (snd rc))
                     (combine (yr64 l) (xr64 l))) /\
    contact_l64 l = match nonzero (l_val64 l) with
                    | [] => IntPt (wrap64 (x + -100)) (wrap64 (y + 0))
                    | i :: _ => FloatPt (nth i (xl64 l) 0) (nth i (yl64 l) 0)
                    end /\
    contact_r64 l = match nonzero (r_val64 l) with
                    | [] => IntPt (wrap64 (x + 30)) (wrap64 (y + 0))
                    | i :: _ => FloatPt (nth i (xr64 l) 0) (nth i (yr64 l) 0)
                    end /\
    center64 l = halve (add_coords (contact_l64 l) (contact_r64 l)).
Proof.
  intros Hs. unfold find_center_locals64. rewrite Hs. cbn [unpack2 bind].
  rewrite !(profile64_2d mask h w _ _ _ Hs). cbn [bind].
  eexists. split; [reflexivity |].
  cbn [sample_width64 xl64 yl64 l_val64 xr64 yr64 r_val64 contact_l64 contact_r64
       center64 of_int_point fst snd].
  repeat split; reflexivity.
Qed.

(** ** The rounding error *)

Lemma inject_pow2_pos (a : Z) : (0 <= a)%Z -> 0 < inject_Z (2 ^ a).
Proof.
  intros Ha. change 0 with (inject_Z 0). rewrite <- Zlt_Qlt.
  apply Z.pow_pos_nonneg; lia.
Qed.

Lemma pow2_sub (a b : Z) :
  (0 <= a)%Z -> (0 <= b)%Z -> pow2 (a - b) == inject_Z (2 ^ a) / inject_Z (2 ^ b).
Proof.
  intros Ha Hb. unfold pow2.
  assert (Hpa := inject_pow2_pos a Ha). assert (Hpb := inject_pow2_pos b Hb).
  destruct (Z.leb_spec 0 (a - b)) as [H | H].
  - replace a with ((a - b) + b)%Z at 2 by lia.
    rewrite Z.pow_add_r by lia. rewrite inject_Z_mult. field. lra.
  - assert (Hpc := inject_pow2_pos (- (a - b)) ltac:(lia)).
    replace b with (- (a - b) + a)%Z at 2 by lia.
    rewrite Z.pow_add_r by lia. rewrite inject_Z_mult. field. split; lra.
Qed.

Lemma pow2_split (p : Z) :
  exists a b : Z, (0 <= a)%Z /\ (0 <= b)%Z /\ p = (a - b)%Z.
Proof. exists (Z.max p 0), (Z.max (- p) 0). lia. Qed.

Lemma pow2_pos (p : Z) : 0 < pow2 p.
Proof.
  destruct (pow2_split p) as (a & b & Ha & Hb & ->).
  rewrite pow2_sub by assumption.
  assert (Hpa := inject_pow2_pos a Ha). assert (Hpb := inject_pow2_pos b Hb).
  apply Qlt_shift_div_l; [exact Hpb | lra].
Qed.

Lemma pow2_shift (p c : Z) :
  (0 <= c)%Z -> pow2 (p + c) == pow2 p * inject_Z (2 ^ c).
Proof.
  intros Hc. destruct (pow2_split p) as (a & b & Ha & Hb & ->).
  replace (a - b + c)%Z with ((a + c) - b)%Z by lia.
  rewrite !pow2_sub by lia. rewrite Z.pow_add_r by lia. rewrite inject_Z_mult.
  assert (Hpb := inject_pow2_pos b Hb). field. lra.
Qed.

(** [2^ilog2(a) <= a] for a positive [a]. *)
Lemma ilog2_le (a : Q) : 0 < a -> pow2 (ilog2 a) <= a.
Proof.
  intros Ha. unfold ilog2.
  set (ln := Z.log2 (Qnum a)). set (ld := Z.log2 (Z.pos (Qden a))).
  destruct (Qle_bool (pow2 (ln - ld)) a) eqn:E.
  - apply Qle_bool_iff. exact E.
  - assert (Hn : (0 < Qnum a)%Z).
    { unfold Qlt in Ha. cbn in Ha. lia. }
    assert (Hln : (0 <= ln)%Z) by apply Z.log2_nonneg.
    assert (Hld : (0 <= ld)%Z) by apply Z.log2_nonneg.
    assert (Sn : (2 ^ ln <= Qnum a)%Z) by (apply Z.log2_spec; exact Hn).
    assert (Sd : (Z.pos (Qden a) < 2 ^ Z.succ ld)%Z) by (apply Z.log2_spec; lia).
    replace (ln - ld - 1)%Z with (ln - (ld + 1))%Z by lia.
    rewrite pow2_sub by lia.
    assert (Hpb := inject_pow2_pos (ld + 1) ltac:(lia)).
    apply Qle_shift_div_r; [exact Hpb |].
    unfold Qle. cbn [Qnum Qden inject_Z Qmult].
    replace (ld + 1)%Z with (Z.succ ld) by lia.
    assert (P : (0 < 2 ^ ln)%Z) by (apply Z.pow_pos_nonneg; lia).
    rewrite Pos.mul_1_r. nia.
Qed.

Lemma round_half_even_error (x : Q) :
  Qabs (inject_Z (round_half_even x) - x) <= 1 # 2.
Proof.
  unfold round_half_even.
  assert (Hlo := Qfloor_le x). assert (Hhi := Qlt_floor x).
  rewrite inject_Z_plus in Hhi. change (inject_Z 1) with 1 in Hhi.
  set (f := Qfloor x) in *.
  apply Qabs_Qle_condition.
  destruct (Qcompare (x - inject_Z f) (1 # 2)) eqn:E.
  - apply Qeq_alt in E. destruct (Z.even f).
    + split; lra.
    + rewrite inject_Z_plus. change (inject_Z 1) with 1. split; lra.
  - apply Qlt_alt in E. split; lra.
  - apply Qgt_alt in E. rewrite inject_Z_plus. change (inject_Z 1) with 1. split; lra.
Qed.

Lemma round64_abs_error (a : Q) :
  0 < a ->
  let p := Z.max (ilog2 a - 52) (-1074) in
  Qabs (inject_Z (round_half_even (a / pow2 p)) * pow2 p - a)
  <= a * unit_roundoff + tiny.
Proof.
  intros Ha p.
  assert (Hp := pow2_pos p).
  assert (Herr := round_half_even_error (a / pow2 p)).
  set (m := inject_Z (round_half_even (a / pow2 p))) in *.
  assert (Hhalf : Qabs (m * pow2 p - a) <= pow2 p * (1 # 2)).
  { apply Qabs_Qle_condition in Herr. destruct Herr as [H1 H2].
    assert (E : m * pow2 p - a == (m - a / pow2 p) * pow2 p) by (field; lra).
    rewrite E. apply Qabs_Qle_condition.
    split.
    - apply Qle_trans with (y := - (1 # 2) * pow2 p); [lra |].
      apply Qmult_le_compat_r; lra.
    - apply Qle_trans with (y := (1 # 2) * pow2 p); [| lra].
      apply Qmult_le_compat_r; lra. }
  apply Qle_trans with (y := pow2 p * (1 # 2)); [exact Hhalf |].
  assert (Hu : 0 < unit_roundoff) by (vm_compute; reflexivity).
  assert (Ht : 0 < tiny) by (vm_compute; reflexivity).
  destruct (Z.max_spec (ilog2 a - 52) (-1074)) as [[Hlt Hmax] | [Hge Hmax]].
  - (* p = -1074 *)
    subst p. rewrite Hmax.
    assert (E : pow2 (-1074) * (1 # 2) == tiny) by (vm_compute; reflexivity).
    rewrite E. assert (0 <= a * unit_roundoff) by (apply Qmult_le_0_compat; lra). lra.
  - subst p. rewrite Hmax.
    assert (Hk := ilog2_le a Ha).
    assert (Es : pow2 (ilog2 a) == pow2 (ilog2 a - 52) * inject_Z (2 ^ 52)).
    { rewrite <- pow2_shift by lia. replace (ilog2 a - 52 + 52)%Z with (ilog2 a) by lia.
      reflexivity. }
    rewrite Es in Hk.
    assert (Eu : unit_roundoff * inject_Z (2 ^ 52) == 1 # 2) by (vm_compute; reflexivity).
    assert (H52 : 0 < inject_Z (2 ^ 52)) by (vm_compute; reflexivity).
    set (t := pow2 (ilog2 a - 52)) in *.
    apply Qle_trans with (y := a * unit_roundoff); [| lra].
    apply Qle_trans with (y := t * inject_Z (2 ^ 52) * unit_roundoff).
    + rewrite <- Qmult_assoc, (Qmult_comm (inject_Z (2 ^ 52))), Eu. lra.
    + apply Qmult_le_compat_r; lra.
Qed.

Lemma round64_error (q : Q) :
  Qabs (round64 q - q) <= Qabs q * unit_roundoff + tiny.
Proof.
  assert (Hu : 0 < unit_roundoff) by (vm_compute; reflexivity).
  assert (Ht : 0 < tiny) by (vm_compute; reflexivity).
  assert (Hq : Qred q == q) by apply Qred_correct.
  unfold round64. set (r := Qred q) in *.
  rewrite <- Hq.
  destruct (Z.eqb_spec (Qnum r) 0) as [E0 | N0].
  - assert (Hr : r == 0).
    { unfold Qeq. cbn. rewrite E0. reflexivity. }
    rewrite Hr. cbn [Qabs]. vm_compute. discriminate.
  - destruct (Z.ltb_spec (Qnum r) 0) as [Hneg | Hpos].
    + assert (Hr : r < 0) by (unfold Qlt; cbn; lia).
      assert (Ea : Qabs r == - r) by (apply Qabs_neg; lra).
      assert (Ha : 0 < Qabs r) by lra.
      assert (H := round64_abs_error (Qabs r) Ha). cbv zeta in H.
      set (v := inject_Z _ * pow2 _) in *.
      apply Qabs_Qle_condition in H. apply Qabs_Qle_condition.
      destruct H as [H1 H2]. split; lra.
    + assert (Hr : 0 < r) by (unfold Qlt; cbn; lia).
      assert (Ea : Qabs r == r) by (apply Qabs_pos; lra).
      assert (Ha : 0 < Qabs r) by lra.
      assert (H := round64_abs_error (Qabs r) Ha). cbv zeta in H.
      set (v := inject_Z _ * pow2 _) in *.
      apply Qabs_Qle_condition in H. apply Qabs_Qle_condition.
      destruct H as [H1 H2]. split; lra.
Qed.

Lemma Qabs_scale01 (r x : Q) : 0 <= r -> r <= 1 -> Qabs (r * x) <= Qabs x.
Proof.
  intros H0 H1. rewrite Qabs_Qmult, (Qabs_pos r H0).
  assert (Hx := Qabs_nonneg x).
  apply Qle_trans with (y := 1 * Qabs x); [| lra].
  apply Qmult_le_compat_r; assumption.
Qed.

Lemma Qabs_sum (a b : Q) : Qabs (a + b) <= Qabs a + Qabs b.
Proof. apply Qabs_triangle. Qed.

Lemma Qabs_diff (a b : Q) : Qabs (a - b) <= Qabs a + Qabs b.
Proof.
  unfold Qminus. eapply Qle_trans; [apply Qabs_triangle |].
  rewrite Qabs_opp. lra.
Qed.

Lemma unit_roundoff_value : unit_roundoff == 1 # 9007199254740992.
Proof. vm_compute. reflexivity. Qed.

Lemma tiny_pos : 0 < tiny.
Proof. vm_compute. reflexivity. Qed.

(** The error of one interior sample of [np.linspace]. *)
Lemma interpolation_error (x0 x1 I D : Q) :
  1 <= D -> 0 <= I -> I <= D ->
  Qabs (fadd (fmul I (fdiv (fsub x1 x0) D)) x0 - (x0 + I / D * (x1 - x0)))
  <= (Qabs x0 + Qabs x1) * (1 # 1125899906842624) + (I + 4) * (2 * tiny).
Proof.
  intros HD HI0 HID.
  unfold fadd, fmul, fdiv, fsub.
  assert (Ht := tiny_pos).
  set (d := x1 - x0).
  set (d' := round64 d).
  set (w := d' / D).
  set (s := round64 w).
  set (t := round64 (I * s)).
  set (r := round64 (t + x0)).
  assert (H1 := round64_error d). fold d' in H1.
  assert (H2 := round64_error w). fold s in H2.
  assert (H3 := round64_error (I * s)). fold t in H3.
  assert (H4 := round64_error (t + x0)). fold r in H4.
  rewrite unit_roundoff_value in H1, H2, H3, H4.
  assert (Hd : Qabs d <= Qabs x0 + Qabs x1).
  { unfold d. assert (H := Qabs_diff x1 x0). lra. }
  assert (Hd' : Qabs d' <= Qabs d + Qabs (d' - d)).
  { setoid_replace d' with (d + (d' - d)) at 1 by ring. apply Qabs_sum. }
  assert (Hrho0 : 0 <= I / D) by (apply Qle_shift_div_l; lra).
  assert (Hrho1 : I / D <= 1) by (apply Qle_shift_div_r; lra).
  assert (Hw : D * Qabs w == Qabs d').
  { unfold w. unfold Qdiv. rewrite Qabs_Qmult, (Qabs_pos (/ D)).
    - field. lra.
    - apply Qlt_le_weak, Qinv_lt_0_compat. lra. }
  assert (HIw : I * Qabs w <= Qabs d').
  { rewrite <- Hw. apply Qmult_le_compat_r; [exact HID | apply Qabs_nonneg]. }
  assert (HIe2 : Qabs (I * (s - w)) <= (1 # 9007199254740992) * Qabs d' + I * tiny).
  { rewrite Qabs_Qmult, (Qabs_pos I HI0).
    apply Qle_trans with (y := I * (Qabs w * (1 # 9007199254740992) + tiny)).
    - rewrite !(Qmult_comm I). apply Qmult_le_compat_r; assumption.
    - lra. }
  assert (Hre1 : Qabs (I / D * (d' - d)) <= Qabs (d' - d))
    by (apply Qabs_scale01; assumption).
  assert (Hrd : Qabs (I / D * d) <= Qabs d) by (apply Qabs_scale01; assumption).
  assert (E3 : Qabs (I * s - I / D * d)
               <= Qabs (d' - d) + ((1 # 9007199254740992) * Qabs d' + I * tiny)).
  { setoid_replace (I * s - I / D * d) with (I / D * (d' - d) + I * (s - w)).
    - eapply Qle_trans; [apply Qabs_sum |]. lra.
    - unfold w. field. lra. }
  assert (HIs : Qabs (I * s) <= Qabs d + Qabs (I * s - I / D * d)).
  { setoid_replace (I * s) with (I / D * d + (I * s - I / D * d)) at 1 by ring.
    eapply Qle_trans; [apply Qabs_sum |]. lra. }
  assert (He : Qabs (x0 + I / D * d) <= Qabs x0 + Qabs x1).
  { setoid_replace (x0 + I / D * d) with ((1 - I / D) * x0 + I / D * x1)
      by (unfold d; ring).
    eapply Qle_trans; [apply Qabs_sum |].
    assert (Ha := Qabs_scale01 (1 - I / D) x0 ltac:(lra) ltac:(lra)).
    assert (Hb := Qabs_scale01 (I / D) x1 Hrho0 Hrho1). lra. }
  assert (E5 : Qabs (t + x0 - (x0 + I / D * d))
               <= Qabs (t - I * s) + Qabs (I * s - I / D * d)).
  { setoid_replace (t + x0 - (x0 + I / D * d))
      with ((t - I * s) + (I * s - I / D * d)) by ring.
    apply Qabs_sum. }
  assert (Htx : Qabs (t + x0)
                <= Qabs (x0 + I / D * d) + Qabs (t + x0 - (x0 + I / D * d))).
  { setoid_replace (t + x0)
      with ((x0 + I / D * d) + (t + x0 - (x0 + I / D * d))) at 1 by ring.
    apply Qabs_sum. }
  assert (Hfin : Qabs (r - (x0 + I / D * d))
                 <= Qabs (r - (t + x0)) + Qabs (t + x0 - (x0 + I / D * d))).
  { setoid_replace (r - (x0 + I / D * d))
      with ((r - (t + x0)) + (t + x0 - (x0 + I / D * d))) by ring.
    apply Qabs_sum. }
  assert (N0 := Qabs_nonneg x0). assert (N1 := Qabs_nonneg x1).
  assert (HIt : 0 <= I * tiny) by (apply Qmult_le_0_compat; lra).
  setoid_replace ((I + 4) * (2 * tiny)) with (2 * (I * tiny) + 8 * tiny) by ring.
  set (J := I * tiny) in *.
  lra.
Qed.

Lemma tiny_small : tiny <= 1 # 4.
Proof. vm_compute. discriminate. Qed.

(** The same when the step underflows to zero. *)
Lemma interpolation_error_zero_step (x0 x1 I D : Q) :
  1 <= D -> 0 <= I -> I <= D ->
  fdiv (fsub x1 x0) D == 0 ->
  Qabs (fadd (fmul (fdiv I D) (fsub x1 x0)) x0 - (x0 + I / D * (x1 - x0)))
  <= (Qabs x0 + Qabs x1) * (1 # 1125899906842624) + (D + 1) * (16 * tiny).
Proof.
  intros HD HI0 HID Hstep.
  unfold fadd, fmul, fdiv, fsub in *.
  assert (Ht := tiny_pos). assert (Ht4 := tiny_small).
  set (d := x1 - x0) in *.
  set (d' := round64 d) in *.
  set (w := d' / D) in *.
  set (rho := round64 (I / D)).
  set (t := round64 (rho * d')).
  set (r := round64 (t + x0)).
  assert (H1 := round64_error d). fold d' in H1.
  assert (H2 := round64_error w). rewrite Hstep in H2.
  assert (Hrho := round64_error (I / D)). fold rho in Hrho.
  assert (H3 := round64_error (rho * d')). fold t in H3.
  assert (H4 := round64_error (t + x0)). fold r in H4.
  rewrite unit_roundoff_value in H1, H2, Hrho, H3, H4.
  assert (E0 : Qabs (0 - w) == Qabs w).
  { setoid_replace (0 - w) with (- w) by ring. apply Qabs_opp. }
  rewrite E0 in H2.
  assert (Nw := Qabs_nonneg w).
  assert (Hw2 : Qabs w <= 2 * tiny) by lra.
  assert (Hrho0 : 0 <= I / D) by (apply Qle_shift_div_l; lra).
  assert (Hrho1 : I / D <= 1) by (apply Qle_shift_div_r; lra).
  assert (Hw : D * Qabs w == Qabs d').
  { unfold w. unfold Qdiv. rewrite Qabs_Qmult, (Qabs_pos (/ D)).
    - field. lra.
    - apply Qlt_le_weak, Qinv_lt_0_compat. lra. }
  assert (Hd'2 : Qabs d' <= 2 * (D * tiny)).
  { rewrite <- Hw. apply Qle_trans with (y := D * (2 * tiny)); [| lra].
    rewrite !(Qmult_comm D). apply Qmult_le_compat_r; lra. }
  assert (Hd : Qabs d <= Qabs d' + Qabs (d' - d)).
  { setoid_replace d with (d' + - (d' - d)) at 1 by ring.
    eapply Qle_trans; [apply Qabs_sum |]. rewrite Qabs_opp. lra. }
  assert (Nd := Qabs_nonneg d).
  assert (Hrd : Qabs (I / D * d) <= Qabs d) by (apply Qabs_scale01; assumption).
  assert (Hrho2 : Qabs rho <= 2).
  { assert (E : Qabs (I / D) == I / D) by (apply Qabs_pos; exact Hrho0).
    rewrite E in Hrho.
    assert (H : Qabs rho <= Qabs (I / D) + Qabs (rho - I / D)).
    { setoid_replace rho with (I / D + (rho - I / D)) at 1 by ring. apply Qabs_sum. }
    rewrite E in H. lra. }
  assert (Hrd' : Qabs (rho * d') <= 2 * Qabs d').
  { rewrite Qabs_Qmult. apply Qmult_le_compat_r; [exact Hrho2 | apply Qabs_nonneg]. }
  assert (Htt : Qabs t <= Qabs (rho * d') + Qabs (t - rho * d')).
  { setoid_replace t with (rho * d' + (t - rho * d')) at 1 by ring. apply Qabs_sum. }
  assert (Htx : Qabs (t + x0) <= Qabs t + Qabs x0) by apply Qabs_sum.
  assert (Hfin : Qabs (r - (x0 + I / D * d))
                 <= Qabs (r - (t + x0)) + (Qabs t + Qabs (I / D * d))).
  { setoid_replace (r - (x0 + I / D * d))
      with ((r - (t + x0)) + (t + - (I / D * d))) by ring.
    eapply Qle_trans; [apply Qabs_sum |].
    assert (H := Qabs_sum t (- (I / D * d))). rewrite Qabs_opp in H. lra. }
  assert (N0 := Qabs_nonneg x0). assert (N1 := Qabs_nonneg x1).
  assert (HDt : 0 <= D * tiny) by (apply Qmult_le_0_compat; lra).
  setoid_replace ((D + 1) * (16 * tiny)) with (16 * (D * tiny) + 16 * tiny) by ring.
  set (K := D * tiny) in *.
  assert (Nrd := Qabs_nonneg (rho * d')).
  lra.
Qed.

(** Every sample of [np.linspace] is within float64 rounding of the
    evenly spaced point of the segment. *)
Lemma linspace64_close (start stop : Q) (num i : nat) :
  (2 <= num)%nat -> (i < num)%nat ->
  Qabs (nth i (linspace64 start stop num) 0 - even_point start stop num i)
  <= rounding_allowance start stop num.
Proof.
  intros Hnum Hi. unfold even_point, rounding_allowance.
  rewrite linspace64_nth by exact Hi.
  assert (Ht := tiny_pos).
  assert (N0 := Qabs_nonneg start). assert (N1 := Qabs_nonneg stop).
  set (D := inject_Z (Z.of_nat (num - 1))).
  set (I := inject_Z (Z.of_nat i)).
  assert (HD : 1 <= D).
  { unfold D. change 1 with (inject_Z 1). rewrite <- Zle_Qle. lia. }
  assert (HI0 : 0 <= I).
  { unfold I. change 0 with (inject_Z 0). rewrite <- Zle_Qle. lia. }
  assert (HID : I <= D).
  { unfold I, D. rewrite <- Zle_Qle. lia. }
  assert (HN : inject_Z (Z.of_nat num) == D + 1).
  { unfold D. change 1 with (inject_Z 1). rewrite <- inject_Z_plus.
    apply inject_Z_injective. lia. }
  rewrite HN.
  assert (HDt : 0 <= D * tiny) by (apply Qmult_le_0_compat; lra).
  assert (HIt : I * tiny <= D * tiny) by (apply Qmult_le_compat_r; lra).
  destruct ((1 <? num)%nat && (i =? num - 1)%nat) eqn:Elast.
  - apply andb_true_iff in Elast. destruct Elast as [_ Elast].
    apply Nat.eqb_eq in Elast.
    assert (EI : I == D) by (unfold I, D; rewrite Elast; reflexivity).
    setoid_replace (stop - (start + I / D * (stop - start))) with 0
      by (rewrite EI; field; lra).
    cbn [Qabs Qnum Z.abs].
    setoid_replace ((D + 1) * (16 * tiny)) with (16 * (D * tiny) + 16 * tiny) by ring.
    set (K := D * tiny) in *. change (0 # 1) with 0. lra.
  - destruct (Qeq_bool (fdiv (fsub stop start) D) 0) eqn:Ez.
    + apply Qeq_bool_iff in Ez.
      apply (interpolation_error_zero_step start stop I D HD HI0 HID Ez).
    + eapply Qle_trans; [apply (interpolation_error start stop I D HD HI0 HID) |].
      setoid_replace ((I + 4) * (2 * tiny)) with (2 * (I * tiny) + 8 * tiny) by ring.
      setoid_replace ((D + 1) * (16 * tiny)) with (16 * (D * tiny) + 16 * tiny) by ring.
      set (K := D * tiny) in *. set (J := I * tiny) in *. lra.
Qed.

(** ** The line sampler *)

(** C4 (as the code has it): on a 2-D mask, for two points with float64
    coordinates and [num >= 2], [profile] returns [num] x-coordinates, [num]
    y-coordinates and [num] values; the first sample is [p0] and the last
    one is [p1], exactly; sample [i] in between is the float64 value of
    [i * step + start] with [step = (stop - start) / (num - 1)], each
    operation rounded; along an axis on which the two points agree every
    sample has that coordinate; and every sample is within the rounding
    allowance [(|start| + |stop|) * 2^-50 + num * 2^-1071] of the evenly
    spaced point [start + i / (num - 1) * (stop - start)] of the segment,
    in each coordinate. *)
Theorem profile64_samples (mask : ndarray) (h w : nat) (p0 p1 : Q * Q) (num : nat) :
  shape mask = [h; w] -> (2 <= num)%nat ->
  float64 (fst p0) -> float64 (snd p0) -> float64 (fst p1) -> float64 (snd p1) ->
  exists (n m : list Q) (vals : list Z),
    profile64 mask p0 p1 num = Ok (n, m, vals) /\
    (length n = num /\ length m = num /\ length vals = num) /\
    (nth 0 n 0 == fst p0 /\ nth 0 m 0 == snd p0) /\
    (nth (num - 1) n 0 = fst p1 /\ nth (num - 1) m 0 = snd p1) /\
    (forall i : nat, (i < num - 1)%nat ->
       let div := inject_Z (Z.of_nat (num - 1)) in
       (~ fdiv (fsub (fst p1) (fst p0)) div == 0 ->
        nth i n 0
        = fadd (fmul (inject_Z (Z.of_nat i)) (fdiv (fsub (fst p1) (fst p0)) div))
               (fst p0)) /\
       (~ fdiv (fsub (snd p1) (snd p0)) div == 0 ->
        nth i m 0
        = fadd (fmul (inject_Z (Z.of_nat i)) (fdiv (fsub (snd p1) (snd p0)) div))
               (snd p0))) /\
    (fst p0 == fst p1 -> forall i : nat, (i < num)%nat -> nth i n 0 == fst p0) /\
    (snd p0 == snd p1 -> forall i : nat, (i < num)%nat -> nth i m 0 == snd p0) /\
    (forall i : nat, (i < num)%nat ->
       Qabs (nth i n 0 - even_point (fst p0) (fst p1) num i)
         <= rounding_allowance (fst p0) (fst p1) num /\
       Qabs (nth i m 0 - even_point (snd p0) (snd p1) num i)
         <= rounding_allowance (snd p0) (snd p1) num).
Proof.
  intros Hs Hnum [Hx0 _] [Hy0 _] _ _.
  do 3 eexists. split; [apply (profile64_2d mask h w p0 p1 num Hs) |].
  split; [| split; [| split; [| split; [| split; [| split]]]]].
  - rewrite sampled64_length; rewrite !linspace64_length; auto.
  - split; apply linspace64_first; assumption.
  - split; apply linspace64_last; assumption.
  - intros i Hi div.
    assert (E : ((1 <? num)%nat && (i =? num - 1)%nat) = false).
    { apply andb_false_iff. right. apply Nat.eqb_neq. lia. }
    split; intros Hstep; rewrite linspace64_nth by lia; rewrite E;
      (destruct (Qeq_bool _ 0) eqn:Ez;
       [apply Qeq_bool_iff in Ez; contradiction | reflexivity]).
  - intros Heq i Hi. apply linspace64_const; assumption.
  - intros Heq i Hi. apply linspace64_const; assumption.
  - intros i Hi. split; apply linspace64_close; assumption.
Qed.

Lemma float64_of_small_int (z : Z) : pixel_coordinate z -> float64 (inject_Z z).
Proof.
  intros Hz. split.
  - apply round64_int. unfold pixel_coordinate in Hz.
    assert ((2 ^ 52 < 2 ^ 53)%Z) by reflexivity. lia.
  - change (Qabs (inject_Z z)) with (inject_Z (Z.abs z)).
    apply Qle_trans with (y := inject_Z (2 ^ 52)).
    + rewrite <- Zle_Qle. exact Hz.
    + vm_compute. discriminate.
Qed.

(** The theorem at the left scan of a 100 x 100 mask. *)
Lemma profile64_samples_witness :
  exists (n m : list Q) (vals : list Z),
    profile64 example_mask (50, 60) (0, 60) 40 = Ok (n, m, vals) /\
    length n = 40%nat /\ nth 0 n 0 == 50 /\ nth 39 n 0 = 0 /\
    (forall i : nat, (i < 40)%nat -> nth i m 0 == 60) /\
    Qabs (nth 26 n 0 - even_point 50 0 40 26) <= rounding_allowance 50 0 40.
Proof.
  destruct (profile64_samples example_mask 100 100 (50, 60) (0, 60) 40)
    as (n & m & vals & Hp & (Hn & _) & (H0 & _) & (Hlast & _) & _ & _ & Hrow & Hnear).
  - reflexivity.
  - lia.
  - apply (float64_of_small_int 50). unfold pixel_coordinate. cbn. lia.
  - apply (float64_of_small_int 60). unfold pixel_coordinate. cbn. lia.
  - apply (float64_of_small_int 0). unfold pixel_coordinate. cbn. lia.
  - apply (float64_of_small_int 60). unfold pixel_coordinate. cbn. lia.
  - exists n, m, vals.
    split; [exact Hp |]. split; [exact Hn |]. split; [exact H0 |].
    split; [exact Hlast |]. split; [apply Hrow; reflexivity |].
    apply (Hnear 26%nat). lia.
Defined.

(** C4 as stated fails: the 40 x-coordinates of the scan from (50,60) to
    (0,60) are not evenly spaced (the first two steps differ), and on the
    scan from (45,60) to (0,60) sample 26, whose place on the segment is
    column 15, is not at column 15. *)
Lemma profile64_not_evenly_spaced :
  exists (n m : list Q) (vals : list Z) (n' m' : list Q) (vals' : list Z),
    profile64 example_mask (50, 60) (0, 60) 40 = Ok (n, m, vals) /\
    ~ nth 1 n 0 - nth 0 n 0 == nth 2 n 0 - nth 1 n 0 /\
    profile64 example_mask (45, 60) (0, 60) 40 = Ok (n', m', vals') /\
    45 + (26 # 39) * (0 - 45) == 15 /\
    ~ nth 26 n' 0 == 15.
Proof.
  do 6 eexists. split; [vm_compute; reflexivity |].
  split; [intros H; vm_compute in H; discriminate H |].
  split; [vm_compute; reflexivity |].
  split; [vm_compute; reflexivity |].
  intros H. vm_compute in H. discriminate H.
Qed.

(** ** The road centre *)

Lemma float_double_half (row : Z) :
  pixel_coordinate row ->
  fdiv (fadd (inject_Z row) (inject_Z row)) 2 == inject_Z row.
Proof.
  intros Hrow. unfold pixel_coordinate in Hrow.
  assert (H52 : (2 * 2 ^ 52 = 2 ^ 53)%Z) by reflexivity.
  assert (Hsum : fadd (inject_Z row) (inject_Z row) == inject_Z (2 * row)).
  { unfold fadd.
    rewrite (round64_comp (inject_Z row + inject_Z row) (inject_Z (2 * row))).
    - apply round64_int. lia.
    - rewrite inject_Z_mult. change (inject_Z 2) with 2. ring. }
  unfold fdiv.
  rewrite (round64_comp (fadd (inject_Z row) (inject_Z row) / 2) (inject_Z row)).
  - apply round64_int. lia.
  - rewrite Hsum, inject_Z_mult. change (inject_Z 2) with 2. field.
Qed.

Lemma wrap64_small (z : Z) : (- 2 ^ 63 <= z < 2 ^ 63)%Z -> wrap64 z = z.
Proof.
  intros Hz. unfold wrap64.
  assert (H64 : (2 ^ 64 = 2 * 2 ^ 63)%Z) by reflexivity.
  rewrite Z.mod_small by lia. lia.
Qed.

Lemma row_of_float_sum (a b : Q) (row : Z) :
  pixel_coordinate row -> a == inject_Z row -> b == inject_Z row ->
  int_of (fdiv (fadd a b) 2) = row.
Proof.
  intros Hrow Ha Hb.
  transitivity (int_of (inject_Z row)); [| apply int_of_inject_Z].
  apply int_of_comp.
  rewrite <- (float_double_half row Hrow). unfold fdiv, fadd.
  rewrite (round64_comp (a + b) (inject_Z row + inject_Z row))
    by (rewrite Ha, Hb; reflexivity).
  reflexivity.
Qed.

(** The float64 midpoint is within rounding of the arithmetic midpoint. *)
Lemma midpoint64_close (x1 x2 : Q) :
  Qabs (fdiv (fadd x1 x2) 2 - (x1 + x2) / 2)
  <= (Qabs x1 + Qabs x2) * (1 # 4503599627370496) + 2 * tiny.
Proof.
  unfold fdiv, fadd.
  assert (Ht := tiny_pos).
  set (s := round64 (x1 + x2)).
  set (m := round64 (s / 2)).
  assert (H1 := round64_error (x1 + x2)). fold s in H1.
  assert (H2 := round64_error (s / 2)). fold m in H2.
  rewrite unit_roundoff_value in H1, H2.
  assert (Hsum := Qabs_sum x1 x2).
  assert (Hs : Qabs s <= Qabs (x1 + x2) + Qabs (s - (x1 + x2))).
  { setoid_replace s with ((x1 + x2) + (s - (x1 + x2))) at 1 by ring. apply Qabs_sum. }
  assert (Hh : Qabs (s / 2) == (1 # 2) * Qabs s).
  { setoid_replace (s / 2) with ((1 # 2) * s) by field.
    rewrite Qabs_Qmult. reflexivity. }
  assert (Hd : Qabs ((1 # 2) * (s - (x1 + x2))) == (1 # 2) * Qabs (s - (x1 + x2))).
  { rewrite Qabs_Qmult. reflexivity. }
  assert (Ns := Qabs_nonneg s). assert (Nd := Qabs_nonneg (s - (x1 + x2))).
  assert (Hfin : Qabs (m - (x1 + x2) / 2)
                 <= Qabs (m - s / 2) + Qabs ((1 # 2) * (s - (x1 + x2)))).
  { setoid_replace (m - (x1 + x2) / 2)
      with ((m - s / 2) + (1 # 2) * (s - (x1 + x2))) by field.
    apply Qabs_sum. }
  assert (N1 := Qabs_nonneg x1). assert (N2 := Qabs_nonneg x2).
  lra.
Qed.

(** C5 (as the code has it): for two contacts on an integer row [y], float64
    samples [(x1, y)], [(x2, y)] or int64 fallbacks [(a, y)], [(b, y)], the
    road centre is [(int(m), y)] where [m] is the float64 midpoint (the sum
    of the two x-coordinates as numpy forms it, halved) and [int] truncates
    toward zero (sign times floor of the absolute value); the float64
    midpoint is within [(|x1| + |x2|) * 2^-52 + 2^-1074] of the arithmetic
    midpoint [(x1 + x2) / 2].  The function is total. *)
Theorem road_center64_truncates (x1 x2 : Q) (a b row : Z) :
  float64 x1 -> float64 x2 ->
  pixel_coordinate a -> pixel_coordinate b -> pixel_coordinate row ->
  road_center64 (FloatPt x1 (inject_Z row)) (FloatPt x2 (inject_Z row))
    = (int_of (fdiv (fadd x1 x2) 2), row) /\
  road_center64 (FloatPt x1 (inject_Z row)) (IntPt b row)
    = (int_of (fdiv (fadd x1 (of_int b)) 2), row) /\
  road_center64 (IntPt a row) (FloatPt x2 (inject_Z row))
    = (int_of (fdiv (fadd (of_int a) x2) 2), row) /\
  road_center64 (IntPt a row) (IntPt b row)
    = (int_of (fdiv (of_int (a + b)) 2), row) /\
  (forall m : Q, int_of m = (Z.sgn (Qnum m) * Qfloor (Qabs m))%Z) /\
  Qabs (fdiv (fadd x1 x2) 2 - (x1 + x2) / 2)
    <= (Qabs x1 + Qabs x2) * (1 # 4503599627370496) + 2 * tiny.
Proof.
  intros _ _ Ha Hb Hrow.
  assert (Hof := of_int_pixel row Hrow).
  unfold road_center64, add_coords, halve, to_pixel; cbn [fst snd].
  split; [| split; [| split; [| split; [| split]]]].
  - f_equal. apply row_of_float_sum; [exact Hrow | reflexivity | reflexivity].
  - f_equal. apply row_of_float_sum; [exact Hrow | reflexivity | exact Hof].
  - f_equal. apply row_of_float_sum; [exact Hrow | exact Hof | reflexivity].
  - unfold pixel_coordinate in Ha, Hb, Hrow.
    assert (H52 : (2 * 2 ^ 52 = 2 ^ 53)%Z) by reflexivity.
    assert (H63 : (2 ^ 53 < 2 ^ 63)%Z) by reflexivity.
    rewrite !wrap64_small by lia. f_equal.
    transitivity (int_of (inject_Z row)); [| apply int_of_inject_Z].
    apply int_of_comp.
    unfold fdiv, of_int.
    rewrite (round64_comp (round64 (inject_Z (row + row)) / 2) (inject_Z row)).
    + apply round64_int. lia.
    + rewrite (round64_int (row + row)) by lia.
      rewrite inject_Z_plus. field.
  - apply int_of_trunc.
  - apply midpoint64_close.
Qed.

(** The theorem at the contacts 21.923076923076927 and 68.07692307692307 on
    row 60: their float64 sum is 90 and the centre is (45, 60). *)
Lemma road_center64_truncates_witness :
  road_center64 (FloatPt (3085398783174499 # 140737488355328) (inject_Z 60))
                (FloatPt (2395243792201255 # 35184372088832) (inject_Z 60))
  = (45%Z, 60%Z).
Proof.
  destruct (road_center64_truncates (3085398783174499 # 140737488355328)
              (2395243792201255 # 35184372088832) 0 0 60) as [H _].
  - split; [vm_compute; reflexivity | vm_compute; discriminate].
  - split; [vm_compute; reflexivity | vm_compute; discriminate].
  - unfold pixel_coordinate. cbn. lia.
  - unfold pixel_coordinate. cbn. lia.
  - unfold pixel_coordinate. cbn. lia.
  - rewrite H. vm_compute. reflexivity.
Defined.

(** C5 as stated fails: on the 100 x 100 mask lit at (47, 60) only, the left
    contact is sample 2 of the left scan and the right contact the fallback
    (80, 60); the midpoint is 63.71..., the code returns 63, which is more
    than one half below the midpoint. *)
Lemma road_center64_not_nearest :
  exists l : locals64,
    find_center_locals64 (mask_of 100 100 [(47, 60)%Z]) 50 60 = Ok l /\
    contact_l64 l = FloatPt (nth 2 (xl64 l) 0) (nth 2 (yl64 l) 0) /\
    contact_r64 l = IntPt 80 60 /\
    road_center64 (contact_l64 l) (contact_r64 l) = (63%Z, 60%Z) /\
    find_center64 (mask_of 100 100 [(47, 60)%Z]) 50 60 = Ok (63%Z, 60%Z) /\
    (1 # 2) < fst (center64 l) - inject_Z 63.
Proof.
  eexists. split; [vm_compute; reflexivity |].
  split; [vm_compute; reflexivity |].
  split; [vm_compute; reflexivity |].
  split; [vm_compute; reflexivity |].
  split; vm_compute; reflexivity.
Qed.

(** ** The left contact *)

Lemma even_point_comp (a a' b b' : Q) (num i : nat) :
  a == a' -> b == b' -> even_point a b num i == even_point a' b' num i.
Proof. intros Ha Hb. unfold even_point. rewrite Ha, Hb. reflexivity. Qed.

Lemma rounding_allowance_comp (a a' b b' : Q) (num : nat) :
  a == a' -> b == b' -> rounding_allowance a b num == rounding_allowance a' b' num.
Proof. intros Ha Hb. unfold rounding_allowance. rewrite Ha, Hb. reflexivity. Qed.

Lemma int_of_between (q : Q) (n : Z) :
  - (1) < q -> q <= inject_Z n -> (0 <= int_of q <= n)%Z.
Proof.
  intros Hlo Hhi. destruct (Qlt_le_dec q 0) as [Hq | Hq].
  - rewrite (int_of_neg q Hq).
    assert (Hc : Qceiling q = 0%Z).
    { apply Z.le_antisymm.
      - assert (H := Qceiling_resp_le q 0 (Qlt_le_weak _ _ Hq)).
        change (Qceiling 0) with 0%Z in H. exact H.
      - assert (H := Qle_ceiling q).
        assert (H1 : inject_Z (- (1)) < inject_Z (Qceiling q)).
        { change (inject_Z (- (1))) with (- (1)). lra. }
        rewrite <- Zlt_Qlt in H1. lia. }
    rewrite Hc. split; [lia |].
    assert (H1 : inject_Z (- (1)) < inject_Z n).
    { change (inject_Z (- (1))) with (- (1)). lra. }
    rewrite <- Zlt_Qlt in H1. lia.
  - rewrite (int_of_nonneg q Hq). split.
    + change 0%Z with (Qfloor 0). apply Qfloor_resp_le. exact Hq.
    + rewrite <- (Qfloor_Z n). apply Qfloor_resp_le. exact Hhi.
Qed.

(** [int(W / 2)] in binary64 lies between 0 and [W]. *)
Lemma sample_width64_range (w : nat) :
  pixel_coordinate (Z.of_nat w) ->
  (0 <= int_of (fdiv (of_int (Z.of_nat w)) 2) <= Z.of_nat w)%Z.
Proof.
  intros Hw. assert (Hof := of_int_pixel _ Hw).
  unfold fdiv. rewrite (round64_comp (of_int (Z.of_nat w) / 2) (inject_Z (Z.of_nat w) / 2))
    by (rewrite Hof; reflexivity).
  set (q := inject_Z (Z.of_nat w) / 2).
  assert (Hw0 : 0 <= inject_Z (Z.of_nat w)).
  { change 0 with (inject_Z 0). rewrite <- Zle_Qle. lia. }
  assert (Hq0 : 0 <= q) by (unfold q; apply Qle_shift_div_l; lra).
  assert (Herr := round64_error q).
  rewrite unit_roundoff_value, (Qabs_pos q Hq0) in Herr.
  apply Qabs_Qle_condition in Herr. destruct Herr as [H1 H2].
  assert (Ht := tiny_pos). assert (Ht4 := tiny_small).
  assert (Eq : q * 2 == inject_Z (Z.of_nat w)) by (unfold q; field).
  destruct (Z.eq_dec (Z.of_nat w) 0) as [E0 | N0].
  - assert (Ez : round64 q = 0).
    { apply round64_zero. unfold q. rewrite E0. reflexivity. }
    rewrite Ez, E0. cbn. lia.
  - assert (H1w : 1 <= inject_Z (Z.of_nat w)).
    { change 1 with (inject_Z 1). rewrite <- Zle_Qle. lia. }
    apply int_of_between; lra.
Qed.

(** C6 (as the code has it): when sample [i] is the only non-zero sample of
    the left scan, the left contact is the float64 coordinate of that
    sample, [(xl[i], yl[i])] with [xl = np.linspace(x, x - sample_width, 40)]
    and [yl[i] = y]; the non-zero cell that was read is the one at
    [floor(c + 0.5)] of each coordinate [c]; and [xl[i]] is within the
    rounding allowance [(|x| + |x - sample_width|) * 2^-50 + 40 * 2^-1071]
    of the sub-pixel position [x - i * sample_width / 39]. *)
Theorem first_contact_left64
    (mask : ndarray) (h w : nat) (x y : Z) (i : nat) (l : locals64) :
  shape mask = [h; w] ->
  pixel_coordinate x -> pixel_coordinate y -> pixel_coordinate (Z.of_nat w) ->
  find_center_locals64 mask x y = Ok l ->
  (i < 40)%nat ->
  nth i (l_val64 l) 0%Z <> 0%Z ->
  (forall j : nat, (j < 40)%nat -> j <> i -> nth j (l_val64 l) 0%Z = 0%Z) ->
  contact_l64 l = FloatPt (nth i (xl64 l) 0) (nth i (yl64 l) 0) /\
  xl64 l = linspace64 (of_int x) (of_int (x - sample_width64 l)) 40 /\
  of_int x == inject_Z x /\
  nth i (yl64 l) 0 == inject_Z y /\
  item mask [nearest64 (nth i (yl64 l) 0); nearest64 (nth i (xl64 l) 0)] <> 0%Z /\
  Qabs (nth i (xl64 l) 0
        - (inject_Z x - inject_Z (Z.of_nat i) * inject_Z (sample_width64 l) / 39))
    <= rounding_allowance (inject_Z x) (inject_Z (x - sample_width64 l)) 40.
Proof.
  intros Hs Hx Hy Hw Hl Hi Hnz Hothers.
  destruct (find_center_locals64_2d mask h w x y Hs)
    as (l' & Hl' & Hsw & (Hxl & Hyl & Hlv) & _ & Hcl & _).
  rewrite Hl in Hl'. injection Hl' as Hl'. subst l'.
  assert (Hlenx : length (xl64 l) = 40%nat) by (rewrite Hxl; apply linspace64_length).
  assert (Hleny : length (yl64 l) = 40%nat) by (rewrite Hyl; apply linspace64_length).
  assert (Hlenv : length (l_val64 l) = 40%nat).
  { rewrite Hlv, sampled64_length; congruence. }
  destruct (nonzero_first i (l_val64 l)) as [rest Hrest].
  { rewrite Hlenv. exact Hi. }
  { exact Hnz. }
  { intros j Hj. apply Hothers; lia. }
  rewrite Hrest in Hcl.
  assert (Hyi : nth i (yl64 l) 0 == inject_Z y).
  { rewrite Hyl, <- (of_int_pixel y Hy).
    apply linspace64_const; [reflexivity | | exact Hi].
    rewrite (round64_comp (of_int y) (inject_Z y) (of_int_pixel y Hy)).
    reflexivity. }
  assert (Hread : sample_at64 mask (Z.of_nat h) (Z.of_nat w)
                    (nth i (yl64 l) 0) (nth i (xl64 l) 0) <> 0%Z).
  { rewrite <- sampled64_nth by (first [congruence | rewrite Hlenx; exact Hi]).
    rewrite <- Hlv. exact Hnz. }
  split; [exact Hcl |]. split; [exact Hxl |].
  split; [apply of_int_pixel, Hx |]. split; [exact Hyi |].
  split; [rewrite (sample_at64_nonzero _ _ _ _ _ Hread); exact Hread |].
  assert (Hrange := sample_width64_range w Hw). rewrite <- Hsw in Hrange.
  assert (Ex := of_int_pixel x Hx).
  assert (Exs : of_int (x - sample_width64 l) == inject_Z (x - sample_width64 l)).
  { apply round64_int. unfold pixel_coordinate in Hx, Hw.
    assert (H52 : (2 * 2 ^ 52 = 2 ^ 53)%Z) by reflexivity. lia. }
  assert (Hnear := linspace64_close (of_int x) (of_int (x - sample_width64 l)) 40 i
                     ltac:(lia) Hi).
  rewrite <- Hxl in Hnear.
  rewrite (even_point_comp _ _ _ _ 40 i Ex Exs) in Hnear.
  rewrite (rounding_allowance_comp _ _ _ _ 40 Ex Exs) in Hnear.
  setoid_replace (inject_Z x - inject_Z (Z.of_nat i) * inject_Z (sample_width64 l) / 39)
    with (even_point (inject_Z x) (inject_Z (x - sample_width64 l)) 40 i);
    [exact Hnear |].
  unfold even_point. change (inject_Z (Z.of_nat (40 - 1))) with 39.
  unfold Z.sub. rewrite inject_Z_plus, inject_Z_opp. field.
Qed.

(** The theorem at a 100 x 100 mask lit at (31, 60) only: sample 15 of the
    left scan reads that pixel. *)
Lemma first_contact_left64_witness :
  exists l : locals64,
    find_center_locals64 (mask_of 100 100 [(31, 60)%Z]) 50 60 = Ok l /\
    contact_l64 l = FloatPt (nth 15 (xl64 l) 0) (nth 15 (yl64 l) 0) /\
    nth 15 (yl64 l) 0 == 60.
Proof.
  destruct (find_center_locals64_2d (mask_of 100 100 [(31, 60)%Z]) 100 100 50 60 eq_refl)
    as (l & Hl & _).
  exists l. split; [exact Hl |].
  assert (Hv : l_val64 l = (repeat 0%Z 15 ++ 1%Z :: repeat 0%Z 24)%list).
  { pose proof Hl as Hc. vm_compute in Hc. injection Hc as Hc. subst l. reflexivity. }
  destruct (first_contact_left64 (mask_of 100 100 [(31, 60)%Z]) 100 100 50 60 15 l
              eq_refl) as (H1 & _ & _ & H4 & _).
  - unfold pixel_coordinate. cbn. lia.
  - unfold pixel_coordinate. cbn. lia.
  - unfold pixel_coordinate. cbn. lia.
  - exact Hl.
  - lia.
  - rewrite Hv. vm_compute. discriminate.
  - intros j Hj Hne. rewrite Hv.
    do 40 (destruct j as [| j]; [try reflexivity; exfalso; apply Hne; reflexivity |]).
    lia.
  - split; assumption.
Defined.

(** C6 as stated fails on that mask: the only non-zero sample of the left
    scan is sample 15, which reads the pixel at column 31 of row 60, and the
    left contact is the float 30.769230769230766 on row 60, not the pixel's
    coordinate (31, 60). *)
Lemma contact64_is_not_the_pixel :
  exists l : locals64,
    find_center_locals64 (mask_of 100 100 [(31, 60)%Z]) 50 60 = Ok l /\
    nonzero (l_val64 l) = [15%nat] /\
    (nearest64 (nth 15 (xl64 l) 0), nearest64 (nth 15 (yl64 l) 0)) = (31%Z, 60%Z) /\
    item (mask_of 100 100 [(31, 60)%Z]) [60%Z; 31%Z] = 1%Z /\
    contact_l64 l = FloatPt (nth 15 (xl64 l) 0) (nth 15 (yl64 l) 0) /\
    nth 15 (xl64 l) 0 == 4330384257087015 # 140737488355328 /\
    nth 15 (yl64 l) 0 == 60 /\
    ~ nth 15 (xl64 l) 0 == 31.
Proof.
  eexists. split; [vm_compute; reflexivity |].
  split; [vm_compute; reflexivity |].
  split; [vm_compute; reflexivity |].
  split; [vm_compute; reflexivity |].
  split; [vm_compute; reflexivity |].
  split; [vm_compute; reflexivity |].
  split; [vm_compute; reflexivity |].
  intros H. vm_compute in H. discriminate H.
Qed.

(** ** The fallbacks *)

Lemma all_zero_nonzero (vals : list Z) :
  (forall v, In v vals -> v = 0%Z) -> nonzero vals = [].
Proof. apply nonzero_nil. Qed.

Lemma pixel_in_int64 (z k : Z) :
  pixel_coordinate z -> (Z.abs k <= 1000)%Z -> wrap64 (z + k) = (z + k)%Z.
Proof.
  unfold pixel_coordinate. intros Hz Hk. apply wrap64_small.
  assert (H52 : (2 ^ 52 + 1000 < 2 ^ 63)%Z) by reflexivity. lia.
Qed.

Lemma frame_is_pixel (z : Z) : frame_coordinate z -> pixel_coordinate z.
Proof.
  unfold frame_coordinate, pixel_coordinate. intros Hz.
  assert ((2 ^ 20 < 2 ^ 52)%Z) by reflexivity. lia.
Qed.

(** The float64 half of an even int below [2^53] in magnitude. *)
Lemma half_of_even (z : Z) :
  (Z.abs (2 * z) <= 2 ^ 53)%Z -> int_of (fdiv (of_int (2 * z)) 2) = z.
Proof.
  intros Hz.
  transitivity (int_of (inject_Z z)); [| apply int_of_inject_Z].
  apply int_of_comp. unfold fdiv, of_int.
  rewrite (round64_comp (round64 (inject_Z (2 * z)) / 2) (inject_Z z)).
  - apply round64_int. lia.
  - rewrite (round64_int (2 * z) Hz), inject_Z_mult.
    change (inject_Z 2) with 2. field.
Qed.

(** C3: for a reference point with pixel coordinates on a mask of a width
    in that range (all at most [2^52], so that the int64 arrays of
    [find_center] do not wrap), when the left scan has no non-zero sample the
    left contact is exactly [(x - 100, y)], and when the right scan has none
    the right contact is exactly [(x + 30, y)]; [find_center] takes one
    profile of 40 samples per side and returns normally.  This holds of the
    scans over the rationals and of the scans in binary64, where the
    fallback is an int64 pair. *)
Theorem fallback_contacts (mask : ndarray) (h w : nat) (x y : Z) :
  shape mask = [h; w] ->
  pixel_coordinate x -> pixel_coordinate y -> pixel_coordinate (Z.of_nat w) ->
  (exists l : locals,
     find_center_locals mask x y = Ok l /\
     ((forall v, In v (l_val l) -> v = 0%Z) ->
      contact_l l = (inject_Z (x - 100), inject_Z y)) /\
     ((forall v, In v (r_val l) -> v = 0%Z) ->
      contact_r l = (inject_Z (x + 30), inject_Z y))) /\
  (exists l : locals64,
     find_center_locals64 mask x y = Ok l /\
     (length (l_val64 l) = 40%nat /\ length (r_val64 l) = 40%nat) /\
     ((forall v, In v (l_val64 l) -> v = 0%Z) ->
      contact_l64 l = IntPt (x - 100) y) /\
     ((forall v, In v (r_val64 l) -> v = 0%Z) ->
      contact_r64 l = IntPt (x + 30) y)).
Proof.
  intros Hs Hx Hy _. split.
  - destruct (find_center_locals_2d mask h w x y Hs)
      as (l & Hl & _ & _ & _ & _ & _ & _ & Hcl & Hcr & _).
    exists l. split; [exact Hl |]. split; intros Hzero.
    + apply nonzero_nil in Hzero. rewrite Hcl, Hzero.
      unfold of_ints; cbn [fst snd]. rewrite Z.add_0_r. reflexivity.
    + apply nonzero_nil in Hzero. rewrite Hcr, Hzero.
      unfold of_ints; cbn [fst snd]. rewrite Z.add_0_r. reflexivity.
  - destruct (find_center_locals64_2d mask h w x y Hs)
      as (l & Hl & _ & (Hxl & Hyl & Hlv) & (Hxr & Hyr & Hrv) & Hcl & Hcr & _).
    exists l. split; [exact Hl |].
    split.
    { split.
      - rewrite Hlv, sampled64_length; rewrite ?Hxl, ?Hyl, !linspace64_length; reflexivity.
      - rewrite Hrv, sampled64_length; rewrite ?Hxr, ?Hyr, !linspace64_length; reflexivity. }
    split; intros Hzero.
    + apply all_zero_nonzero in Hzero. rewrite Hcl, Hzero.
      rewrite !pixel_in_int64 by (assumption || (cbn; lia)).
      f_equal; lia.
    + apply all_zero_nonzero in Hzero. rewrite Hcr, Hzero.
      rewrite !pixel_in_int64 by (assumption || (cbn; lia)).
      f_equal; lia.
Qed.

(** The theorem at the example mask: neither scan meets a non-zero sample. *)
Lemma fallback_contacts_witness :
  (exists l : locals,
     find_center_locals example_mask 50 60 = Ok l /\
     contact_l l = (inject_Z (-50), inject_Z 60) /\
     contact_r l = (inject_Z 80, inject_Z 60)) /\
  (exists l : locals64,
     find_center_locals64 example_mask 50 60 = Ok l /\
     contact_l64 l = IntPt (-50) 60 /\
     contact_r64 l = IntPt 80 60).
Proof.
  destruct (fallback_contacts example_mask 100 100 50 60 eq_refl)
    as [(l & Hl & HL & HR) (l64 & Hl64 & _ & HL64 & HR64)];
    [unfold pixel_coordinate; cbn; lia | unfold pixel_coordinate; cbn; lia
     | unfold pixel_coordinate; cbn; lia |].
  split.
  - exists l. split; [exact Hl |].
    assert (Hv : l_val l = repeat 0%Z 40 /\ r_val l = repeat 0%Z 40).
    { vm_compute in Hl. injection Hl as Hl. subst l. split; reflexivity. }
    destruct Hv as [Hvl Hvr].
    split; [apply HL; rewrite Hvl | apply HR; rewrite Hvr];
      intros v Hin; apply repeat_spec in Hin; exact Hin.
  - exists l64. split; [exact Hl64 |].
    assert (Hv : l_val64 l64 = repeat 0%Z 40 /\ r_val64 l64 = repeat 0%Z 40).
    { vm_compute in Hl64. injection Hl64 as Hl64. subst l64. split; reflexivity. }
    destruct Hv as [Hvl Hvr].
    split; [apply HL64; rewrite Hvl | apply HR64; rewrite Hvr];
      intros v Hin; apply repeat_spec in Hin; exact Hin.
Defined.

Lemma find_center64_blank (mask : ndarray) (h w : nat) (x y : Z) (l : locals64) :
  shape mask = [h; w] ->
  frame_coordinate x -> frame_coordinate y ->
  find_center_locals64 mask x y = Ok l ->
  (forall v, In v (l_val64 l) -> v = 0%Z) ->
  (forall v, In v (r_val64 l) -> v = 0%Z) ->
  find_center64 mask x y = Ok ((x - 35)%Z, y).
Proof.
  intros Hs Hx Hy Hl HzL HzR.
  destruct (find_center_locals64_2d mask h w x y Hs)
    as (l' & Hl' & _ & _ & _ & Hcl & Hcr & Hce).
  rewrite Hl in Hl'. injection Hl' as Hl'. subst l'.
  apply all_zero_nonzero in HzL, HzR. rewrite HzL in Hcl. rewrite HzR in Hcr.
  unfold find_center64. rewrite Hl. cbn [bind].
  rewrite Hce, Hcl, Hcr.
  assert (Hpx := frame_is_pixel x Hx). assert (Hpy := frame_is_pixel y Hy).
  rewrite !pixel_in_int64 by (assumption || (cbn; lia)).
  unfold frame_coordinate in Hx, Hy.
  assert (H20 : (2 * (2 ^ 20 + 1000) < 2 ^ 53)%Z) by reflexivity.
  assert (H53 : (2 ^ 53 < 2 ^ 63)%Z) by reflexivity.
  unfold add_coords, halve, to_pixel; cbn [fst snd].
  rewrite !wrap64_small by lia.
  replace (x + -100 + (x + 30))%Z with (2 * (x - 35))%Z by lia.
  replace (y + 0 + (y + 0))%Z with (2 * y)%Z by lia.
  rewrite !half_of_even by lia. reflexivity.
Qed.

(** X3: for a reference point of an image of ordinary size (coordinates at
    most [2^20] in magnitude), when neither scan meets a non-zero sample,
    [find_center] returns the point 35 columns left of the reference point,
    on the same row.  This holds of the scans over the rationals and of the
    scans in binary64. *)
Theorem blank_scans_center (mask : ndarray) (h w : nat) (x y : Z) :
  shape mask = [h; w] ->
  frame_coordinate x -> frame_coordinate y -> frame_coordinate (Z.of_nat w) ->
  (forall l : locals,
     find_center_locals mask x y = Ok l ->
     (forall v, In v (l_val l) -> v = 0%Z) ->
     (forall v, In v (r_val l) -> v = 0%Z) ->
     find_center mask x y = Ok ((x - 35)%Z, y)) /\
  (forall l : locals64,
     find_center_locals64 mask x y = Ok l ->
     (forall v, In v (l_val64 l) -> v = 0%Z) ->
     (forall v, In v (r_val64 l) -> v = 0%Z) ->
     find_center64 mask x y = Ok ((x - 35)%Z, y)).
Proof.
  intros Hs Hx Hy _. split.
  - intros l. exact (PathFacts.find_center_blank mask h w x y l Hs).
  - intros l. exact (find_center64_blank mask h w x y l Hs Hx Hy).
Qed.

(** The theorem at the example mask, where both scans miss the lit pixels. *)
Lemma blank_scans_center_witness :
  find_center example_mask 50 60 = Ok (15%Z, 60%Z) /\
  find_center64 example_mask 50 60 = Ok (15%Z, 60%Z).
Proof.
  destruct (blank_scans_center example_mask 100 100 50 60 eq_refl) as [HQ HF];
    [unfold frame_coordinate; cbn; lia | unfold frame_coordinate; cbn; lia
     | unfold frame_coordinate; cbn; lia |].
  split.
  - destruct (find_center_locals_2d example_mask 100 100 50 60 eq_refl) as (l & Hl & _).
    assert (Hv : l_val l = repeat 0%Z 40 /\ r_val l = repeat 0%Z 40).
    { pose proof Hl as Hc. vm_compute in Hc. injection Hc as Hc. subst l.
      split; reflexivity. }
    destruct Hv as [Hvl Hvr].
    apply (HQ l Hl).
    + rewrite Hvl. intros v Hin. apply repeat_spec in Hin. exact Hin.
    + rewrite Hvr. intros v Hin. apply repeat_spec in Hin. exact Hin.
  - destruct (find_center_locals64_2d example_mask 100 100 50 60 eq_refl) as (l & Hl & _).
    assert (Hv : l_val64 l = repeat 0%Z 40 /\ r_val64 l = repeat 0%Z 40).
    { pose proof Hl as Hc. vm_compute in Hc. injection Hc as Hc. subst l.
      split; reflexivity. }
    destruct Hv as [Hvl Hvr].
    apply (HF l Hl).
    + rewrite Hvl. intros v Hin. apply repeat_spec in Hin. exact Hin.
    + rewrite Hvr. intros v Hin. apply repeat_spec in Hin. exact Hin.
Defined.

End Float64Facts.
